(** * sped: a streaming PNG decoder with RGB565 output

    A shallow embedding of [sped.c] and the properties of its decoding
    pipeline: chunk scanning, the inflate driver, scanline assembly,
    inverse filtering, pixel extraction, downscaling and RGB565 packing.

    Conventions.
    - A [uint8_t] is a [Byte.byte]; [bv] gives its value and [to_u8] is the
      conversion [(uint8_t)z], which keeps the low eight bits.
    - Wider C integers are [Z]; every place where the C type wraps is
      written out with [u16], [u32] or [to_int].
    - A buffer is a [list]; [rd] reads an element and [memcpy_at] writes a
      run of elements.  The C code never leaves its buffers when
      [w * bpp] fits an [int]; outside that the behaviour of the C program
      is undefined, and the lists here read [x00] and drop the write. *)

From Stdlib Require Import ZArith Lia.
From Stdlib Require Import Strings.Byte Strings.String.
From stdpp Require Import base option list numbers.

Local Open Scope Z_scope.

(** ** Machine integers *)

#[global] Instance byte_eq_dec : EqDecision byte := Byte.byte_eq_dec.
#[global] Instance byte_inhabited : Inhabited byte := populate x00.

Definition bv (b : byte) : Z := Z.of_N (Byte.to_N b).

Definition to_u8 (z : Z) : byte :=
  default x00 (Byte.of_N (Z.to_N (z mod 256))).

Definition u16 (z : Z) : Z := z mod 65536.
Definition u32 (z : Z) : Z := z mod 4294967296.

(** [(int)z] for a 32-bit [int]. *)
Definition to_int (z : Z) : Z :=
  let m := z mod 4294967296 in
  if m <? 2147483648 then m else m - 4294967296.

(** [p[i]] *)
Definition rd (p : list byte) (i : Z) : byte :=
  default x00 (p !! Z.to_nat i).

(** [memcpy(dst + off, src, |src|)] *)
Definition memcpy_at (dst : list byte) (off : Z) (src : list byte) : list byte :=
  list_inserts (Z.to_nat off) src dst.

(** [memcmp(p + off, tag, |tag|) == 0] *)
Definition bytes_at (p : list byte) (off : Z) (tag : list byte) : bool :=
  bool_decide (take (length tag) (drop (Z.to_nat off) p) = tag).

Definition tag (s : string) : list byte := list_byte_of_string s.

(** ** Leaf functions of sped.c *)

(** PNG file signature *)
Definition png_sig : list byte := [x89; x50; x4e; x47; x0d; x0a; x1a; x0a].

(** Read 4-byte big-endian integer at [p + off] *)
Definition r32 (p : list byte) (off : Z) : Z :=
  Z.lor (Z.lor (Z.lor (Z.shiftl (bv (rd p off)) 24)
                      (Z.shiftl (bv (rd p (off + 1))) 16))
               (Z.shiftl (bv (rd p (off + 2))) 8))
        (bv (rd p (off + 3))).

(** Paeth predictor (PNG filter type 4) *)
Definition paeth (a b c : byte) : byte :=
  let p := bv a + bv b - bv c in
  let pa := p - bv a in let pa := if pa <? 0 then - pa else pa in
  let pb := p - bv b in let pb := if pb <? 0 then - pb else pb in
  let pc := p - bv c in let pc := if pc <? 0 then - pc else pc in
  if (pa <=? pb) && (pa <=? pc) then a
  else if pb <=? pc then b
  else c.

Definition rgb : Type := byte * byte * byte.

(** The palette [uint8_t pal[256][3]] *)
Definition palette : Type := list rgb.

Definition pal_rd (pal : palette) (i : Z) : rgb :=
  default (x00, x00, x00) (pal !! Z.to_nat i).

(** Extract RGB from a decoded scanline; the products are [uint32_t]. *)
Definition get_pixel (cur : list byte) (x : Z) (ctype : Z) (bpc : Z)
    (pal : palette) : rgb :=
  if bpc =? 1 then
    match ctype with
    | 0 => (rd cur x, rd cur x, rd cur x)
    | 2 => (rd cur (u32 (x * 3)), rd cur (u32 (x * 3) + 1), rd cur (u32 (x * 3) + 2))
    | 3 => pal_rd pal (bv (rd cur x))
    | 4 => (rd cur (u32 (x * 2)), rd cur (u32 (x * 2)), rd cur (u32 (x * 2)))
    | 6 => (rd cur (u32 (x * 4)), rd cur (u32 (x * 4) + 1), rd cur (u32 (x * 4) + 2))
    | _ => (x00, x00, x00)
    end
  else
    match ctype with
    | 0 => (rd cur (u32 (x * 2)), rd cur (u32 (x * 2)), rd cur (u32 (x * 2)))
    | 2 => (rd cur (u32 (x * 6)), rd cur (u32 (x * 6) + 2), rd cur (u32 (x * 6) + 4))
    | 4 => (rd cur (u32 (x * 4)), rd cur (u32 (x * 4)), rd cur (u32 (x * 4)))
    | 6 => (rd cur (u32 (x * 8)), rd cur (u32 (x * 8) + 2), rd cur (u32 (x * 8) + 4))
    | _ => (x00, x00, x00)
    end.

(** [((r & 0xF8) << 8) | ((g & 0xFC) << 3) | (bl >> 3)], stored in a
    [uint16_t] *)
Definition rgb565 (r g bl : Z) : Z :=
  u16 (Z.lor (Z.lor (Z.shiftl (Z.land r 248) 8) (Z.shiftl (Z.land g 252) 3))
             (Z.shiftr bl 3)).

Definition pack (p : rgb) : Z :=
  let '(r, g, bl) := p in rgb565 (bv r) (bv g) (bv bl).

(** ** sped_info *)

Record sped_info_t := { width : Z; height : Z }.

(** [None] is the return value -1; [Some info] is the return value 0 with
    [*info] filled in.  [png] is the [len] bytes the caller passed. *)
Definition sped_info (png : list byte) : option sped_info_t :=
  let len := Z.of_nat (length png) in
  if (len <? 33) || negb (bytes_at png 0 png_sig) then None
  else if negb (r32 png 8 =? 13) || negb (bytes_at png 12 (tag "IHDR")) then None
  else Some {| width := r32 png 16; height := r32 png 20 |}.

(** ** The image header and the chunk scanner *)

(** The locals of [sped_decode] that stay fixed once the header and the
    chunk list have been read. *)
Record image := {
  img_w : Z;          (* uint32_t w *)
  img_h : Z;          (* uint32_t h *)
  img_ctype : Z;      (* uint8_t ctype *)
  img_bpc : Z;        (* int bpc *)
  img_bpp : Z;        (* int bpp *)
  img_stride : Z;     (* int stride *)
  img_scale : Z;      (* int scale *)
  img_out_w : Z;      (* uint32_t out_w *)
  img_pal : palette   (* uint8_t pal[256][3] *)
}.

(** Max IDAT chunks we track *)
Definition SPED_MAX_IDAT : Z := 64.

(** What the chunk scan collects: the palette, the palette alpha and the
    IDAT descriptors (each a slice of the file). *)
Record chunks := {
  ch_pal : palette;
  ch_pal_a : list byte;
  ch_idat : list (list byte)
}.

Definition plte_copy (png : list byte) (cp : Z) (n : Z) (pal : palette) : palette :=
  fold_left (fun pal i =>
      <[Z.to_nat i := (rd png (cp + 8 + i * 3),
                       rd png (cp + 8 + i * 3 + 1),
                       rd png (cp + 8 + i * 3 + 2))]> pal)
    (seqZ 0 n) pal.

Definition trns_copy (png : list byte) (cp : Z) (clen : Z) (pal_a : list byte) : list byte :=
  fold_left (fun pal_a i => <[Z.to_nat i := rd png (cp + 8 + i)]> pal_a)
    (seqZ 0 (Z.min clen 256)) pal_a.

(** The loop [while (cp + 12 <= end)]; offsets into the file stand for
    the pointers.  Every turn moves [cp] forward by at least 12, so
    [length png] turns are enough (see [scan_loop_fuel]). *)
Fixpoint scan_loop (fuel : nat) (png : list byte) (ctype : Z) (cp : Z)
    (c : chunks) : chunks :=
  match fuel with
  | O => c
  | S fuel' =>
    let len := Z.of_nat (length png) in
    if negb (cp + 12 <=? len) then c
    else
      let clen := r32 png cp in
      if len <? cp + 12 + clen then c
      else if bytes_at png (cp + 4) (tag "PLTE") then
        let n := Z.quot clen 3 in
        let n := if 256 <? n then 256 else n in
        scan_loop fuel' png ctype (cp + 12 + clen)
          {| ch_pal := plte_copy png cp n (ch_pal c);
             ch_pal_a := ch_pal_a c; ch_idat := ch_idat c |}
      else if bytes_at png (cp + 4) (tag "tRNS") then
        scan_loop fuel' png ctype (cp + 12 + clen)
          {| ch_pal := ch_pal c;
             ch_pal_a := if ctype =? 3 then trns_copy png cp clen (ch_pal_a c)
                         else ch_pal_a c;
             ch_idat := ch_idat c |}
      else if bytes_at png (cp + 4) (tag "IDAT") then
        scan_loop fuel' png ctype (cp + 12 + clen)
          {| ch_pal := ch_pal c; ch_pal_a := ch_pal_a c;
             ch_idat := if Z.of_nat (length (ch_idat c)) <? SPED_MAX_IDAT
                        then ch_idat c ++ [take (Z.to_nat clen) (drop (Z.to_nat (cp + 8)) png)]
                        else ch_idat c |}
      else if bytes_at png (cp + 4) (tag "IEND") then c
      else scan_loop fuel' png ctype (cp + 12 + clen) c
  end.

(** ** The scanline state machine *)

(** One invocation of the row callback: [cb(y, w, rgb565, user)] with the
    [w] pixels the row buffer holds at that moment. *)
Record cb_call := { cb_y : Z; cb_w : Z; cb_row : list Z }.

(** The mutable locals of the decoding loop and the log of callbacks. *)
Record decoder := {
  sl_pos : Z;            (* 0 = expecting filter byte, 1..stride = pixel data *)
  filter : byte;
  row : Z;
  out_row : Z;
  cur : list byte;
  prev : list byte;
  acc : list Z;          (* uint16_t acc[out_w * 3] *)
  calls : list cb_call
}.

Definition acc_rd (acc : list Z) (i : Z) : Z := default 0 (acc !! Z.to_nat i).

(** [acc[i] += v] on a [uint16_t] *)
Definition acc_add (acc : list Z) (i : Z) (v : Z) : list Z :=
  <[Z.to_nat i := u16 (acc_rd acc i + v)]> acc.

(** The body of the inverse-filter loop for index [i]. *)
Definition unfilter_byte (flt : byte) (bpp : Z) (prev : list byte)
    (cur : list byte) (i : Z) : list byte :=
  let a := if bpp <=? i then rd cur (i - bpp) else x00 in
  let b := rd prev i in
  let c_val := if bpp <=? i then rd prev (i - bpp) else x00 in
  match bv flt with
  | 1 => <[Z.to_nat i := to_u8 (bv (rd cur i) + bv a)]> cur
  | 2 => <[Z.to_nat i := to_u8 (bv (rd cur i) + bv b)]> cur
  | 3 => <[Z.to_nat i := to_u8 (bv (rd cur i) + bv (to_u8 (Z.shiftr (bv a + bv b) 1)))]> cur
  | 4 => <[Z.to_nat i := to_u8 (bv (rd cur i) + bv (paeth a b c_val))]> cur
  | _ => cur
  end.

(** [for (int i = 0; i < stride; i++) ...] *)
Definition unfilter (flt : byte) (bpp stride : Z) (cur prev : list byte) : list byte :=
  fold_left (unfilter_byte flt bpp prev) (seqZ 0 stride) cur.

Section Scanline.
Variable im : image.

(** The body of the accumulation loop for column [x]. *)
Definition accumulate_px (cur : list byte) (acc : list Z) (x : Z) : list Z :=
  let '(r, g, bl) := get_pixel cur x (img_ctype im) (img_bpc im) (img_pal im) in
  let ox := x / img_scale im in
  let acc := acc_add acc (u32 (ox * 3 + 0)) (bv r) in
  let acc := acc_add acc (u32 (ox * 3 + 1)) (bv g) in
  acc_add acc (u32 (ox * 3 + 2)) (bv bl).

(** The first [n] turns of [for (x = 0; x < limit && x < w; x++)]. *)
Definition accumulate (n : Z) (cur : list byte) (acc : list Z) : list Z :=
  fold_left (accumulate_px cur) (seqZ 0 n) acc.

(** The averaged row: [out[ox]] for [ox < out_w]. *)
Definition average_row (acc : list Z) : list Z :=
  let div := img_scale im * img_scale im in
  map (fun ox =>
         let r := to_u8 (Z.quot (acc_rd acc (u32 (ox * 3 + 0))) div) in
         let g := to_u8 (Z.quot (acc_rd acc (u32 (ox * 3 + 1))) div) in
         let bl := to_u8 (Z.quot (acc_rd acc (u32 (ox * 3 + 2))) div) in
         rgb565 (bv r) (bv g) (bv bl))
      (seqZ 0 (img_out_w im)).

(** The full-resolution row: [out[x]] for [x < w]. *)
Definition direct_row (cur : list byte) : list Z :=
  map (fun x => pack (get_pixel cur x (img_ctype im) (img_bpc im) (img_pal im)))
      (seqZ 0 (img_w im)).

(** What follows the inverse filter once a scanline is complete: emit or
    accumulate, swap the buffers, next row (lines 250-289).  [cur] is the
    unfiltered scanline. *)
Definition emit_scanline (s : decoder) (cur : list byte) : decoder :=
  let zero := replicate (Z.to_nat (img_stride im)) x00 in
  if img_scale im =? 1 then
    {| sl_pos := 0; filter := filter s; row := to_int (row s + 1);
       out_row := out_row s; cur := zero; prev := cur; acc := acc s;
       calls := calls s ++ [{| cb_y := row s; cb_w := to_int (img_w im);
                               cb_row := direct_row cur |}] |}
  else
    let limit := u32 (img_out_w im * img_scale im) in
    let acc1 := accumulate (Z.min limit (img_w im)) cur (acc s) in
    if Z.rem (row s) (img_scale im) =? img_scale im - 1 then
      {| sl_pos := 0; filter := filter s; row := to_int (row s + 1);
         out_row := to_int (out_row s + 1); cur := zero; prev := cur;
         acc := replicate (Z.to_nat (u32 (img_out_w im * 3))) 0;
         calls := calls s ++ [{| cb_y := out_row s; cb_w := to_int (img_out_w im);
                                 cb_row := average_row acc1 |}] |}
    else
      {| sl_pos := 0; filter := filter s; row := to_int (row s + 1);
         out_row := out_row s; cur := zero; prev := cur; acc := acc1;
         calls := calls s |}.

(** "Scanline complete": apply the inverse filter to the assembled bytes
    [cur0], then emit (lines 237-289). *)
Definition scanline_complete (s : decoder) (cur0 : list byte) : decoder :=
  emit_scanline s (unfilter (filter s) (img_bpp im) (img_stride im) cur0 (prev s)).

(** The loop [while (avail > 0 && row < (int)h)] over the window [dp] of
    freshly inflated bytes.  [size_t] is the 32-bit type of the target.
    A turn either takes a byte or completes a scanline, so
    [2 * length dp + 1] turns are enough (see [feed_loop_fuel]). *)
Fixpoint feed_loop (fuel : nat) (s : decoder) (dp : list byte) : decoder :=
  match fuel with
  | O => s
  | S fuel' =>
    let avail := Z.of_nat (length dp) in
    if (0 <? avail) && (row s <? to_int (img_h im)) then
      if sl_pos s =? 0 then
        feed_loop fuel'
          {| sl_pos := 1; filter := rd dp 0; row := row s; out_row := out_row s;
             cur := cur s; prev := prev s; acc := acc s; calls := calls s |}
          (drop 1 dp)
      else
        let need := u32 (img_stride im - (sl_pos s - 1)) in
        let take_n := if avail <? need then avail else need in
        let cur1 := memcpy_at (cur s) (sl_pos s - 1) (take (Z.to_nat take_n) dp) in
        let sl_pos1 := to_int (sl_pos s + to_int take_n) in
        let s1 :=
          if img_stride im <? sl_pos1 then scanline_complete s cur1
          else {| sl_pos := sl_pos1; filter := filter s; row := row s;
                  out_row := out_row s; cur := cur1; prev := prev s;
                  acc := acc s; calls := calls s |} in
        feed_loop fuel' s1 (drop (Z.to_nat take_n) dp)
    else s
  end.

Definition feed (s : decoder) (dp : list byte) : decoder :=
  feed_loop (2 * length dp + 1) s dp.
End Scanline.

(** ** The inflate primitive *)

(** Modelled from the spec: miniz.h is not among the sources.  The spec
    (1, 3, 4.3) treats the decompressor as a streaming primitive with a
    32 KiB sliding dictionary that returns Done, NeedsMoreInput,
    HasMoreOutput or a negative failure code; miniz numbers the first
    three 0, 1 and 2. *)
Definition TINFL_LZ_DICT_SIZE : Z := 32768.
Definition TINFL_STATUS_DONE : Z := 0.
Definition TINFL_STATUS_NEEDS_MORE_INPUT : Z := 1.
Definition TINFL_STATUS_HAS_MORE_OUTPUT : Z := 2.

(** What one call of [tinfl_decompress] hands back: the status, the
    number of input bytes it consumed ([in_bytes] on return), the bytes it
    wrote at [dict + dict_ofs] (their number is [out_bytes] on return) and
    the decompressor's next state.  The dictionary is written by the
    decompressor alone and sped reads only the bytes just written, so the
    dictionary's older contents are part of the decompressor state. *)
Record tinfl_result (T : Type) := {
  t_status : Z;
  t_in_bytes : Z;
  t_out : list byte;
  t_next : T
}.
Arguments t_status {T} _.
Arguments t_in_bytes {T} _.
Arguments t_out {T} _.
Arguments t_next {T} _.

(** A decompressor: its state after [tinfl_init] and the step
    [tinfl_decompress], given the input slice, the room left in the
    dictionary and whether [TINFL_FLAG_HAS_MORE_INPUT] is set
    ([TINFL_FLAG_PARSE_ZLIB_HEADER] always is). *)
Record inflater := {
  tinfl_state : Type;
  tinfl_init : tinfl_state;
  tinfl_decompress : tinfl_state -> list byte -> Z -> bool -> tinfl_result tinfl_state
}.

(** ** sped_decode *)

Section Decode.
(** The decompressor the build links in. *)
Variable tinfl : inflater.
(** Whether [malloc]/[calloc] grants a request of the given size. *)
Variable alloc : Z -> bool.
(** What the uninitialised array [pal] holds when the function starts. *)
Variable stack_pal : Z -> rgb.

Definition pal_uninit : palette := map stack_pal (seqZ 0 256).

Section Loop.
Variable im : image.
Variable idat : list (list byte).

(** The loop [while (row < (int)h)] of the inflate driver.  [inp] is
    the unread rest of [idat[ci]], that is [in_ptr] and [in_remain].
    The result is the return value and the callbacks made; [None]
    means the loop is still running after [fuel] turns. *)
Fixpoint inflate_loop (fuel : nat) (d : tinfl_state tinfl) (dict_ofs : Z)
    (ci : Z) (inp : list byte) (s : decoder) : option (Z * list cb_call) :=
  if negb (row s <? to_int (img_h im)) then Some (0, calls s)
  else
    match fuel with
    | O => None
    | S fuel' =>
      let nidat := Z.of_nat (length idat) in
      let more := (ci <? nidat - 1) || (0 <? Z.of_nat (length inp)) in
      let r := tinfl_decompress tinfl d inp (TINFL_LZ_DICT_SIZE - dict_ofs) more in
      let inp1 := drop (Z.to_nat (t_in_bytes r)) inp in
      let dict_ofs1 :=
        Z.land (dict_ofs + Z.of_nat (length (t_out r))) (TINFL_LZ_DICT_SIZE - 1) in
      let s1 := feed im s (t_out r) in
      let advance := (Z.of_nat (length inp1) =? 0) && (ci <? nidat - 1) in
      let ci1 := if advance then ci + 1 else ci in
      let inp2 := if advance then default [] (idat !! Z.to_nat (ci + 1)) else inp1 in
      if t_status r =? TINFL_STATUS_DONE then Some (0, calls s1)
      else if t_status r <? 0 then Some (-1, calls s1)
      else inflate_loop fuel' (t_next r) dict_ofs1 ci1 inp2 s1
    end.
End Loop.

Definition bytes_per_pixel (ctype bpc : Z) : option Z :=
  match ctype with
  | 0 => Some (1 * bpc)
  | 2 => Some (3 * bpc)
  | 3 => Some 1
  | 4 => Some (2 * bpc)
  | 6 => Some (4 * bpc)
  | _ => None
  end.

Definition scan_chunks (png : list byte) (ctype : Z) : chunks :=
  scan_loop (length png) png ctype (8 + 25)
    {| ch_pal := pal_uninit; ch_pal_a := replicate 256 xff; ch_idat := [] |}.

(** [sped_decode(png, len, scale, cb, user)]: the return value and the
    calls of [cb] in order, or [None] when the decoding loop has not
    ended after [fuel] turns. *)
Definition sped_decode (fuel : nat) (png : list byte) (scale : Z)
    : option (Z * list cb_call) :=
  if negb (scale =? 1) && negb (scale =? 2) && negb (scale =? 4) then Some (-1, [])
  else
  let len := Z.of_nat (length png) in
  if (len <? 33) || negb (bytes_at png 0 png_sig) then Some (-1, [])
  else if negb (r32 png 8 =? 13) || negb (bytes_at png 12 (tag "IHDR")) then Some (-1, [])
  else
  let w := r32 png 16 in
  let h := r32 png 20 in
  let depth := bv (rd png 24) in
  let ctype := bv (rd png 25) in
  if negb (bv (rd png 26) =? 0) then Some (-1, [])
  else if negb (bv (rd png 27) =? 0) then Some (-1, [])
  else if negb (bv (rd png 28) =? 0) then Some (-1, [])
  else if negb (depth =? 8) && negb (depth =? 16) then Some (-1, [])
  else if (depth =? 16) && (ctype =? 3) then Some (-1, [])
  else if (w =? 0) || (h =? 0) then Some (-1, [])
  else
  let bpc := Z.quot depth 8 in
  match bytes_per_pixel ctype bpc with
  | None => Some (-1, [])
  | Some bpp =>
    let stride := to_int (u32 (w * bpp)) in
    let out_w := w / scale in
    let out_h := h / scale in
    if (out_w =? 0) || (out_h =? 0) then Some (-1, [])
    else
    let c := scan_chunks png ctype in
    if Z.of_nat (length (ch_idat c)) =? 0 then Some (-1, [])
    else
    if negb (alloc (u32 stride)) || negb (alloc (u32 stride))
       || negb (alloc (u32 (out_w * 2))) || negb (alloc TINFL_LZ_DICT_SIZE)
       || ((1 <? scale) && negb (alloc (u32 (out_w * 3) * 2)))
    then Some (-1, [])
    else
    let im := {| img_w := w; img_h := h; img_ctype := ctype; img_bpc := bpc;
                 img_bpp := bpp; img_stride := stride; img_scale := scale;
                 img_out_w := out_w; img_pal := ch_pal c |} in
    inflate_loop im (ch_idat c) fuel (tinfl_init tinfl) 0 0
      (default [] (ch_idat c !! 0%nat))
      {| sl_pos := 0; filter := x00; row := 0; out_row := 0;
         cur := replicate (Z.to_nat stride) x00;
         prev := replicate (Z.to_nat stride) x00;
         acc := if 1 <? scale then replicate (Z.to_nat (u32 (out_w * 3))) 0 else [];
         calls := [] |}
  end.
End Decode.

(** ** A decompressor for stored blocks

    The zlib streams made of stored (uncompressed) deflate blocks are the
    part of the format one can write down by hand.  [stored] inflates
    them the way tinfl does: a resumable machine that takes its input
    byte by byte, checks the zlib header, the LEN/NLEN pair and the
    Adler-32 trailer, reports [HAS_MORE_OUTPUT] when the window is full
    and, out of input, [NEEDS_MORE_INPUT] or (flag clear) the failure
    [-4].  Block types other than stored are reported as the failure
    [-1]: this is where the instance stops short of miniz.  It serves the
    worked examples below; the theorems hold for any decompressor. *)
Module Stored.

Inductive phase :=
| Cmf                                 (* expecting the CMF byte *)
| Flg (cmf : Z)                       (* expecting the FLG byte *)
| Block                               (* expecting a block header *)
| Len (final : bool) (got : list Z)   (* inside LEN, NLEN *)
| Data (final : bool) (n : Z)         (* [n > 0] stored bytes to copy *)
| Adler (got : list Z)                (* inside the Adler-32 trailer *)
| Done
| Fail (code : Z).

Record state := { ph : phase; s1 : Z; s2 : Z }.

Definition init : state := {| ph := Cmf; s1 := 1; s2 := 0 |}.

Definition after_block (final : bool) : phase :=
  if final then Adler [] else Block.

(** Consume one input byte: the next state and the byte written, if any. *)
Definition step (st : state) (x : byte) : state * list byte :=
  let keep p := ({| ph := p; s1 := s1 st; s2 := s2 st |}, []) in
  match ph st with
  | Cmf => keep (Flg (bv x))
  | Flg cmf =>
      if negb ((cmf * 256 + bv x) mod 31 =? 0) || negb (Z.land (bv x) 32 =? 0)
         || negb (Z.land cmf 15 =? 8) || (32768 <? Z.shiftl 1 (8 + Z.shiftr cmf 4))
      then keep (Fail (-1)) else keep Block
  | Block =>
      if Z.land (Z.shiftr (bv x) 1) 3 =? 0
      then keep (Len (Z.odd (bv x)) [])
      else keep (Fail (-1))
  | Len final got =>
      match got with
      | [l0; l1; n0] =>
          let len := l0 + 256 * l1 in
          let nlen := n0 + 256 * bv x in
          if negb (len =? Z.lxor 65535 nlen) then keep (Fail (-1))
          else if len =? 0 then keep (after_block final)
          else keep (Data final len)
      | _ => keep (Len final (got ++ [bv x]))
      end
  | Data final n =>
      let a := (s1 st + bv x) mod 65521 in
      let b := (s2 st + a) mod 65521 in
      ({| ph := if n =? 1 then after_block final else Data final (n - 1);
          s1 := a; s2 := b |}, [x])
  | Adler got =>
      match got with
      | [a0; a1; a2] =>
          let sum := ((a0 * 256 + a1) * 256 + a2) * 256 + bv x in
          if sum =? s2 st * 65536 + s1 st then keep Done else keep (Fail (-2))
      | _ => keep (Adler (got ++ [bv x]))
      end
  | Done => keep Done
  | Fail c => keep (Fail c)
  end.

Definition halted (st : state) : option Z :=
  match ph st with
  | Done => Some TINFL_STATUS_DONE
  | Fail c => Some c
  | _ => None
  end.

Definition copying (st : state) : bool :=
  match ph st with Data _ _ => true | _ => false end.

(** One call of the decompressor on the slice [inp] with room for [cap]
    bytes of output. *)
Fixpoint run (st : state) (inp : list byte) (cap : Z) (more : bool)
    : tinfl_result state :=
  match halted st with
  | Some code => {| t_status := code; t_in_bytes := 0; t_out := []; t_next := st |}
  | None =>
    if copying st && (cap <=? 0) then
      {| t_status := TINFL_STATUS_HAS_MORE_OUTPUT; t_in_bytes := 0; t_out := [];
         t_next := st |}
    else
      match inp with
      | [] => {| t_status := if more then TINFL_STATUS_NEEDS_MORE_INPUT else -4;
                 t_in_bytes := 0; t_out := []; t_next := st |}
      | x :: inp' =>
          let '(st', o) := step st x in
          let r := run st' inp' (cap - Z.of_nat (length o)) more in
          {| t_status := t_status r; t_in_bytes := 1 + t_in_bytes r;
             t_out := o ++ t_out r; t_next := t_next r |}
      end
  end.

Definition stored : inflater :=
  {| tinfl_state := state; tinfl_init := init; tinfl_decompress := run |}.

(** The whole stream at once: what [inp] inflates to from state [st],
    when it is a complete and valid stream. *)
Fixpoint inflate_all (st : state) (inp : list byte) : option (list byte) :=
  match halted st with
  | Some code => if code =? TINFL_STATUS_DONE then Some [] else None
  | None =>
      match inp with
      | [] => None
      | x :: inp' =>
          let '(st', o) := step st x in
          match inflate_all st' inp' with
          | Some out => Some (o ++ out)
          | None => None
          end
      end
  end.

(** In state [st] the stream [zin] is still to be read and inflates
    to [out]. *)
Definition delivers (st : state) (zin out : list byte) : Prop :=
  inflate_all st zin = Some out.

End Stored.

(** ** Worked examples: three PNG files *)

(** The 2x2 RGB image (255,0,0) (0,255,0) / (0,0,255) (255,255,255), 8 bits
    per channel, filter 0 on both scanlines, one IDAT chunk holding one
    stored block. *)
Definition png_2x2 : list byte :=
  [x89; x50; x4e; x47; x0d; x0a; x1a; x0a;
   x00; x00; x00; x0d; x49; x48; x44; x52;
   x00; x00; x00; x02; x00; x00; x00; x02; x08; x02; x00; x00; x00;
   xfd; xd4; x9a; x73;
   x00; x00; x00; x19; x49; x44; x41; x54;
   x78; x01; x01; x0e; x00; xf1; xff;
   x00; xff; x00; x00; x00; xff; x00;
   x00; x00; x00; xff; xff; xff; xff;
   x1f; xee; x05; xfb;
   xde; xdd; xec; x2b;
   x00; x00; x00; x00; x49; x45; x4e; x44; xae; x42; x60; x82].

(** The same image with the IDAT payload cut after its ninth byte. *)
Definition png_2x2_split : list byte :=
  [x89; x50; x4e; x47; x0d; x0a; x1a; x0a;
   x00; x00; x00; x0d; x49; x48; x44; x52;
   x00; x00; x00; x02; x00; x00; x00; x02; x08; x02; x00; x00; x00;
   xfd; xd4; x9a; x73;
   x00; x00; x00; x09; x49; x44; x41; x54;
   x78; x01; x01; x0e; x00; xf1; xff; x00; xff;
   x17; xdc; x10; x66;
   x00; x00; x00; x10; x49; x44; x41; x54;
   x00; x00; x00; xff; x00; x00; x00; x00; xff; xff; xff; xff;
   x1f; xee; x05; xfb;
   x51; x1c; xe3; xe0;
   x00; x00; x00; x00; x49; x45; x4e; x44; xae; x42; x60; x82].

(** A header announcing 2x2 RGB whose zlib stream ends, with a valid
    trailer, after the first scanline. *)
Definition png_2x2_short : list byte :=
  [x89; x50; x4e; x47; x0d; x0a; x1a; x0a;
   x00; x00; x00; x0d; x49; x48; x44; x52;
   x00; x00; x00; x02; x00; x00; x00; x02; x08; x02; x00; x00; x00;
   xfd; xd4; x9a; x73;
   x00; x00; x00; x12; x49; x44; x41; x54;
   x78; x01; x01; x07; x00; xf8; xff;
   x00; xff; x00; x00; x00; xff; x00;
   x07; xff; x01; xff;
   xc5; x0e; xe2; x6a;
   x00; x00; x00; x00; x49; x45; x4e; x44; xae; x42; x60; x82].

Definition no_stack : Z -> rgb := fun _ => (x00, x00, x00).
Definition alloc_any : Z -> bool := fun _ => true.

(** The same file with the interlace method set to 1 (Adam7). *)
Definition png_2x2_interlaced : list byte := <[28%nat := x01]> png_2x2.

(** ** Vocabulary of the statements *)

(** A dimensionless header: the 2x2 file with width and height set to 0. *)
Definition png_0x0 : list byte := <[19%nat := x00]> (<[23%nat := x00]> png_2x2).

(** The big-endian value of the four bytes at [off]. *)
Definition be32_at (p : list byte) (off : Z) : Z :=
  16777216 * bv (rd p off) + 65536 * bv (rd p (off + 1))
  + 256 * bv (rd p (off + 2)) + bv (rd p (off + 3)).


(** The IHDR fields, at the offsets [sped_decode] reads them from
    ([ihdr = base + 16]). *)
Definition ihdr_w (png : list byte) : Z := r32 png 16.
Definition ihdr_h (png : list byte) : Z := r32 png 20.
Definition ihdr_depth (png : list byte) : Z := bv (rd png 24).
Definition ihdr_ctype (png : list byte) : Z := bv (rd png 25).
Definition ihdr_compression (png : list byte) : Z := bv (rd png 26).
Definition ihdr_filter (png : list byte) : Z := bv (rd png 27).
Definition ihdr_interlace (png : list byte) : Z := bv (rd png 28).

(** The inputs section 4.2 of the spec lists as unsupported. *)
Definition unsupported (png : list byte) (scale : Z) : Prop :=
  ihdr_compression png <> 0 \/ ihdr_filter png <> 0 \/ ihdr_interlace png <> 0
  \/ (ihdr_depth png <> 8 /\ ihdr_depth png <> 16)
  \/ (ihdr_depth png = 16 /\ ihdr_ctype png = 3)
  \/ (ihdr_ctype png <> 0 /\ ihdr_ctype png <> 2 /\ ihdr_ctype png <> 3
      /\ ihdr_ctype png <> 4 /\ ihdr_ctype png <> 6)
  \/ ihdr_w png = 0 \/ ihdr_h png = 0
  \/ (scale <> 1 /\ scale <> 2 /\ scale <> 4)
  \/ ihdr_w png / scale = 0 \/ ihdr_h png / scale = 0.

(** Modelled from the spec: the encoder's side of section 4.5.  sped only
    decodes, so the forward filter is written from the PNG definition the
    spec refers to: each byte minus the predictor the decoder adds back,
    modulo 256, the predictor being taken from the unfiltered bytes. *)
Definition png_filter_byte (flt : byte) (bpp : Z) (prev cur : list byte) (i : Z) : byte :=
  let a := if bpp <=? i then rd cur (i - bpp) else x00 in
  let b := rd prev i in
  let c := if bpp <=? i then rd prev (i - bpp) else x00 in
  match bv flt with
  | 1 => to_u8 (bv (rd cur i) - bv a)
  | 2 => to_u8 (bv (rd cur i) - bv b)
  | 3 => to_u8 (bv (rd cur i) - (bv a + bv b) / 2)
  | 4 => to_u8 (bv (rd cur i) - bv (paeth a b c))
  | _ => rd cur i
  end.

Definition png_filter (flt : byte) (bpp : Z) (cur prev : list byte) : list byte :=
  map (png_filter_byte flt bpp prev cur) (seqZ 0 (Z.of_nat (length cur))).

(** *** The decoding loop seen from outside *)

(** The image record [sped_decode] works with once the header checks have
    passed. *)
Definition image_of (stack_pal : Z -> rgb) (png : list byte) (scale : Z) : image :=
  let bpc := Z.quot (ihdr_depth png) 8 in
  let bpp := default 0 (bytes_per_pixel (ihdr_ctype png) bpc) in
  {| img_w := ihdr_w png; img_h := ihdr_h png; img_ctype := ihdr_ctype png;
     img_bpc := bpc; img_bpp := bpp;
     img_stride := to_int (u32 (ihdr_w png * bpp));
     img_scale := scale; img_out_w := ihdr_w png / scale;
     img_pal := ch_pal (scan_chunks stack_pal png (ihdr_ctype png)) |}.

(** The decoder state when the decoding loop starts. *)
Definition decoder_init (im : image) : decoder :=
  {| sl_pos := 0; filter := x00; row := 0; out_row := 0;
     cur := replicate (Z.to_nat (img_stride im)) x00;
     prev := replicate (Z.to_nat (img_stride im)) x00;
     acc := if 1 <? img_scale im
            then replicate (Z.to_nat (u32 (img_out_w im * 3))) 0 else [];
     calls := [] |}.

(** The decoding loop one byte at a time: what [feed] does with a window
    that holds the single byte [b] (see [feed_push]). *)
Definition push (im : image) (s : decoder) (b : byte) : decoder :=
  if row s <? to_int (img_h im) then
    if sl_pos s =? 0 then
      {| sl_pos := 1; filter := b; row := row s; out_row := out_row s;
         cur := cur s; prev := prev s; acc := acc s; calls := calls s |}
    else
      let cur1 := <[Z.to_nat (sl_pos s - 1) := b]> (cur s) in
      if img_stride im <? sl_pos s + 1 then scanline_complete im s cur1
      else {| sl_pos := sl_pos s + 1; filter := filter s; row := row s;
              out_row := out_row s; cur := cur1; prev := prev s;
              acc := acc s; calls := calls s |}
  else s.

(** An image as the loop meets it: the dimensions are positive, the
    height fits an [int], a scanline plus its filter byte fits an [int],
    the scale is 1, 2 or 4 and leaves at least one output column. *)
Record image_ok (im : image) : Prop := {
  ok_w : 0 < img_w im;
  ok_h : 0 < img_h im < 2147483648;
  ok_bpp : 1 <= img_bpp im <= 8;
  ok_stride : img_stride im = img_w im * img_bpp im;
  ok_fits : img_w im * img_bpp im < 2147483647;
  ok_scale : img_scale im = 1 \/ img_scale im = 2 \/ img_scale im = 4;
  ok_out_w : img_out_w im = img_w im / img_scale im;
  ok_out_w_pos : 0 < img_out_w im
}.

(** The decoder states of the loop: [sl_pos] is within [0, stride], [row]
    within [0, h], and the two scanline buffers have [stride] bytes. *)
Record decoder_ok (im : image) (s : decoder) : Prop := {
  ok_sl_pos : 0 <= sl_pos s <= img_stride im;
  ok_row : 0 <= row s <= img_h im;
  ok_cur : length (cur s) = Z.to_nat (img_stride im);
  ok_prev : length (prev s) = Z.to_nat (img_stride im)
}.

(** *** What is expected of the decompressor

    [R d zin out] reads: in state [d] the decompressor still has the
    compressed bytes [zin] to read and the bytes [out] to deliver.  A
    call on a slice [inp] of what is left, with room for [cap] bytes,
    consumes a prefix of the slice, delivers a prefix of [out], reports no
    failure, reports Done only when everything has been delivered, and
    does something unless it was given no input while more was promised. *)
Definition streams (tinfl : inflater)
    (R : tinfl_state tinfl -> list byte -> list byte -> Prop) : Prop :=
  forall d zin out inp rest cap more,
    R d zin out -> zin = inp ++ rest -> (more = false -> rest = []) -> 0 < cap ->
    let r := tinfl_decompress tinfl d inp cap more in
    0 <= t_in_bytes r <= Z.of_nat (length inp)
    /\ Z.of_nat (length (t_out r)) <= cap
    /\ t_out r = take (length (t_out r)) out
    /\ R (t_next r) (drop (Z.to_nat (t_in_bytes r)) zin) (drop (length (t_out r)) out)
    /\ 0 <= t_status r
    /\ (t_status r = TINFL_STATUS_DONE -> drop (length (t_out r)) out = [])
    /\ (t_status r <> TINFL_STATUS_DONE -> t_in_bytes r = 0 -> t_out r = [] ->
        inp = [] /\ more = true).

(** *** Files that decode

    [decodable ... png scale raw] gathers what lets the decoding loop of
    [sped_decode] run on [png]: the header passes the checks, the height
    fits an [int] (PNG allows no more than 2^31 - 1) and so does a
    scanline with its filter byte, the buffers are granted, there is an
    IDAT chunk, and the decompressor inflates the IDAT stream to [raw]. *)
Record decodable (tinfl : inflater) (alloc : Z -> bool) (stack_pal : Z -> rgb)
    (png : list byte) (scale : Z) (raw : list byte) : Prop := {
  dc_header : sped_info png <> None;
  dc_supported : ~ unsupported png scale;
  dc_height : ihdr_h png < 2147483648;
  dc_stride : ihdr_w png * img_bpp (image_of stack_pal png scale) < 2147483647;
  dc_alloc :
    alloc (u32 (img_stride (image_of stack_pal png scale))) = true
    /\ alloc (u32 (ihdr_w png / scale * 2)) = true
    /\ alloc TINFL_LZ_DICT_SIZE = true
    /\ (1 < scale -> alloc (u32 (ihdr_w png / scale * 3) * 2) = true);
  dc_idat : ch_idat (scan_chunks stack_pal png (ihdr_ctype png)) <> [];
  dc_stream :
    exists R, streams tinfl R
              /\ R (tinfl_init tinfl)
                   (concat (ch_idat (scan_chunks stack_pal png (ihdr_ctype png)))) raw
}.

(** Turns of the decoding loop that are always enough. *)
Definition decode_fuel (stack_pal : Z -> rgb) (png raw : list byte) : nat :=
  let idat := ch_idat (scan_chunks stack_pal png (ihdr_ctype png)) in
  (length (concat idat) + length raw + length idat)%nat.

(** A well-formed file: it decodes and its inflated data holds the [h]
    scanlines the header announces. *)
Definition well_formed (tinfl : inflater) (alloc : Z -> bool) (stack_pal : Z -> rgb)
    (png : list byte) (scale : Z) (raw : list byte) : Prop :=
  decodable tinfl alloc stack_pal png scale raw
  /\ ihdr_h png * (img_stride (image_of stack_pal png scale) + 1)
     <= Z.of_nat (length raw).

(** *** Scanlines, blocks and the expected output *)

Definition zsum (l : list Z) : Z := foldr Z.add 0 l.

(** Channel [c] of a pixel: 0 is red, 1 is green, 2 is blue. *)
Definition chan (c : Z) (p : rgb) : Z :=
  let '(r, g, bl) := p in
  if c =? 0 then bv r else if c =? 1 then bv g else bv bl.

Definition with_filter (s : decoder) (f : byte) : decoder :=
  {| sl_pos := sl_pos s; filter := f; row := row s; out_row := out_row s;
     cur := cur s; prev := prev s; acc := acc s; calls := calls s |}.

Section Rows.
Variable im : image.

(** The source pixel in column [x] of the unfiltered scanline [cur]. *)
Definition source_pixel (cur : list byte) (x : Z) : rgb :=
  get_pixel cur x (img_ctype im) (img_bpc im) (img_pal im).

(** Channel [c] summed over the first [m] columns of block column [ox]
    in one scanline. *)
Definition row_sum (cur : list byte) (ox c m : Z) : Z :=
  zsum (map (fun dx => chan c (source_pixel cur (ox * img_scale im + dx))) (seqZ 0 m)).

(** Channel [c] summed over the scale columns of block column [ox] in
    each scanline of [blk]. *)
Definition block_sum (blk : list (list byte)) (ox c : Z) : Z :=
  zsum (map (fun cur => row_sum cur ox c (img_scale im)) blk).

(** The RGB565 packing of the per-channel floor-average of a block. *)
Definition block_pixel (blk : list (list byte)) (ox : Z) : Z :=
  let n := img_scale im * img_scale im in
  rgb565 (block_sum blk ox 0 / n) (block_sum blk ox 1 / n) (block_sum blk ox 2 / n).

(** The scanlines with indices [oy * scale .. oy * scale + scale - 1]. *)
Definition block_rows (rows : list (list byte)) (oy : Z) : list (list byte) :=
  take (Z.to_nat (img_scale im)) (drop (Z.to_nat (oy * img_scale im)) rows).

(** The callbacks the spec expects for the scanlines [rows]: one per
    complete block of [scale] scanlines, in order, each with [out_w]
    block pixels. *)
Definition expected_calls (rows : list (list byte)) : list cb_call :=
  map (fun oy => {| cb_y := oy; cb_w := img_out_w im;
                    cb_row := map (block_pixel (block_rows rows oy))
                                  (seqZ 0 (img_out_w im)) |})
      (seqZ 0 (Z.of_nat (length rows) / img_scale im)).

(** The first [n] unfiltered scanlines of the inflated data [raw], the
    scanline above the first being [prev]. *)
Fixpoint scanlines (n : nat) (prev raw : list byte) : list (list byte) :=
  match n with
  | O => []
  | S n' =>
      let cur := unfilter (rd raw 0) (img_bpp im) (img_stride im)
                   (take (Z.to_nat (img_stride im)) (drop 1 raw)) prev in
      cur :: scanlines n' cur (drop (S (Z.to_nat (img_stride im))) raw)
  end.

(** The decoder after [n] whole scanlines of [raw]. *)
Fixpoint decode_rows (n : nat) (s : decoder) (raw : list byte) : decoder :=
  match n with
  | O => s
  | S n' =>
      decode_rows n'
        (scanline_complete im (with_filter s (rd raw 0))
           (take (Z.to_nat (img_stride im)) (drop 1 raw)))
        (drop (S (Z.to_nat (img_stride im))) raw)
  end.

(** The accumulation loop without the [uint16_t] wrap. *)
Definition accumulate_px_exact (cur : list byte) (acc : list Z) (x : Z) : list Z :=
  let '(r, g, bl) := source_pixel cur x in
  let ox := x / img_scale im in
  let acc := <[Z.to_nat (ox * 3 + 0) := acc_rd acc (ox * 3 + 0) + bv r]> acc in
  let acc := <[Z.to_nat (ox * 3 + 1) := acc_rd acc (ox * 3 + 1) + bv g]> acc in
  <[Z.to_nat (ox * 3 + 2) := acc_rd acc (ox * 3 + 2) + bv bl]> acc.

Definition accumulate_exact (n : Z) (cur : list byte) (acc : list Z) : list Z :=
  fold_left (accumulate_px_exact cur) (seqZ 0 n) acc.

(** The decoder has completed the scanlines [done]: it is at row
    [length done], has made the expected calls, and when downscaling
    its accumulator holds the sums over the scanlines of the block in
    progress. *)
Record rows_done (done : list (list byte)) (s : decoder) : Prop := {
  rd_row : row s = Z.of_nat (length done);
  rd_calls : calls s = expected_calls done;
  rd_out_row : 1 < img_scale im -> out_row s = Z.of_nat (length done) / img_scale im;
  rd_acc_len : 1 < img_scale im -> Z.of_nat (length (acc s)) = 3 * img_out_w im;
  rd_acc : 1 < img_scale im ->
    forall ox c, 0 <= ox < img_out_w im -> 0 <= c < 3 ->
      acc_rd (acc s) (3 * ox + c)
      = block_sum (drop (Z.to_nat (Z.of_nat (length done) / img_scale im * img_scale im)) done) ox c
}.
End Rows.

(** The unfiltered scanlines of a file whose IDAT stream inflates to
    [raw]: the source image. *)
Definition image_rows (stack_pal : Z -> rgb) (png : list byte) (scale : Z)
    (raw : list byte) : list (list byte) :=
  let im := image_of stack_pal png scale in
  scanlines im (Z.to_nat (img_h im)) (replicate (Z.to_nat (img_stride im)) x00) raw.

(** The inflated data of [png_2x2]: two scanlines with filter type 0. *)
Definition raw_2x2 : list byte :=
  [x00; xff; x00; x00; x00; xff; x00;
   x00; x00; x00; xff; xff; xff; xff].

(** The inflated data of [png_2x2_short]: the first scanline only. *)
Definition raw_2x2_short : list byte := [x00; xff; x00; x00; x00; xff; x00].

(** *** Files as lists of chunks *)

(** The four bytes of a big-endian length. *)
Definition be32 (n : Z) : list byte :=
  [to_u8 (Z.shiftr n 24); to_u8 (Z.shiftr n 16); to_u8 (Z.shiftr n 8); to_u8 n].

(** A chunk: its four-byte type, its data and its four CRC bytes (which
    sped never looks at). *)
Record chunk_t := { ck_type : list byte; ck_data : list byte; ck_crc : list byte }.

Definition chunk_ok (c : chunk_t) : Prop :=
  length (ck_type c) = 4%nat /\ length (ck_crc c) = 4%nat
  /\ Z.of_nat (length (ck_data c)) < 4294967296.

(** [len:4BE][type:4][data:len][crc:4] *)
Definition encode_chunk (c : chunk_t) : list byte :=
  be32 (Z.of_nat (length (ck_data c))) ++ ck_type c ++ ck_data c ++ ck_crc c.

Definition idat_chunk (data crc : list byte) : chunk_t :=
  {| ck_type := tag "IDAT"; ck_data := data; ck_crc := crc |}.

Definition iend_chunk (crc : list byte) : chunk_t :=
  {| ck_type := tag "IEND"; ck_data := []; ck_crc := crc |}.

(** A chunk that is neither IDAT nor IEND. *)
Definition other_chunk (c : chunk_t) : Prop :=
  chunk_ok c /\ ck_type c <> tag "IDAT" /\ ck_type c <> tag "IEND".

(** A file: the 33 bytes of signature and IHDR chunk, then chunks, the
    IEND chunk and whatever follows it. *)
Definition png_file (hdr : list byte) (cs : list chunk_t) (iend_crc junk : list byte)
    : list byte :=
  hdr ++ concat (map encode_chunk cs) ++ encode_chunk (iend_chunk iend_crc) ++ junk.

(** What one turn of the scanning loop does with a chunk that is not
    IEND, read off the chunk instead of the file. *)
Definition apply_chunk (ctype : Z) (c : chunks) (ch : chunk_t) : chunks :=
  let clen := Z.of_nat (length (ck_data ch)) in
  if bool_decide (ck_type ch = tag "PLTE") then
    let n := Z.quot clen 3 in
    let n := if 256 <? n then 256 else n in
    {| ch_pal := plte_copy (ck_data ch) (-8) n (ch_pal c);
       ch_pal_a := ch_pal_a c; ch_idat := ch_idat c |}
  else if bool_decide (ck_type ch = tag "tRNS") then
    {| ch_pal := ch_pal c;
       ch_pal_a := if ctype =? 3 then trns_copy (ck_data ch) (-8) clen (ch_pal_a c)
                   else ch_pal_a c;
       ch_idat := ch_idat c |}
  else if bool_decide (ck_type ch = tag "IDAT") then
    {| ch_pal := ch_pal c; ch_pal_a := ch_pal_a c;
       ch_idat := if Z.of_nat (length (ch_idat c)) <? SPED_MAX_IDAT
                  then ch_idat c ++ [ck_data ch] else ch_idat c |}
  else c.

(** ** Vocabulary of the further properties *)

(** The 8-bit scanline a 16-bit scanline reduces to: the high byte of
    every two-byte sample. *)
Definition high_bytes (cur : list byte) : list byte :=
  map (fun i => rd cur (2 * i)) (seqZ 0 (Z.of_nat (length cur) / 2)).

(** An allocator that refuses the 32 KiB inflate dictionary and grants
    everything else. *)
Definition alloc_no_dict : Z -> bool := fun n => negb (n =? TINFL_LZ_DICT_SIZE).

(** The 2x2 file with its height field set to 2^31. *)
Definition png_huge_height : list byte := <[20%nat := x80]> png_2x2.

(** The 2x2 file without its IDAT chunk: signature, IHDR, IEND. *)
Definition png_no_idat : list byte := take 33 png_2x2 ++ drop 70 png_2x2.

(** A decompressor that reports Done at once and delivers nothing. *)
Definition done_at_once : inflater :=
  {| tinfl_state := unit; tinfl_init := tt;
     tinfl_decompress := fun _ _ _ _ =>
       {| t_status := TINFL_STATUS_DONE; t_in_bytes := 0; t_out := []; t_next := tt |} |}.

(** The image record with another palette. *)
Definition with_pal (im : image) (pal : palette) : image :=
  {| img_w := img_w im; img_h := img_h im; img_ctype := img_ctype im;
     img_bpc := img_bpc im; img_bpp := img_bpp im; img_stride := img_stride im;
     img_scale := img_scale im; img_out_w := img_out_w im; img_pal := pal |}.

(** ** Tactics for the boolean tests of the C code *)

Ltac zb :=
  repeat match goal with
  | H : (_ && _) = true |- _ => apply andb_true_iff in H; destruct H
  | H : (_ && _) = false |- _ => apply andb_false_iff in H; destruct H
  | H : (_ || _) = false |- _ => apply orb_false_iff in H; destruct H
  | H : (_ || _) = true |- _ => apply orb_true_iff in H; destruct H
  | H : negb _ = true |- _ => apply negb_true_iff in H
  | H : negb _ = false |- _ => apply negb_false_iff in H
  | H : (_ <? _) = true |- _ => apply Z.ltb_lt in H
  | H : (_ <? _) = false |- _ => apply Z.ltb_ge in H
  | H : (_ <=? _) = true |- _ => apply Z.leb_le in H
  | H : (_ <=? _) = false |- _ => apply Z.leb_gt in H
  | H : (_ =? _) = true |- _ => apply Z.eqb_eq in H
  | H : (_ =? _) = false |- _ => apply Z.eqb_neq in H
  end.

Ltac case_if :=
  match goal with
  | |- context [if ?c then _ else _] => destruct c eqn:?
  end.

(* ===== THEOREMS ===== *)

(** * Properties *)

(** ** Bytes and machine integers *)

Lemma bv_range (b : byte) : 0 <= bv b < 256.
Proof.
  unfold bv. pose proof (Byte.to_N_bounded b) as H.
  apply N2Z.inj_le in H. change (Z.of_N 255) with 255 in H. lia.
Qed.

Lemma to_u8_bv (b : byte) : to_u8 (bv b) = b.
Proof.
  unfold to_u8. rewrite Z.mod_small by apply bv_range.
  unfold bv. rewrite N2Z.id, Byte.of_to_N. reflexivity.
Qed.

Lemma bv_to_u8 (z : Z) : bv (to_u8 z) = z mod 256.
Proof.
  unfold to_u8, bv.
  assert (Hr : 0 <= z mod 256 < 256) by (apply Z.mod_pos_bound; lia).
  destruct (Byte.of_N (Z.to_N (z mod 256))) as [b|] eqn:E.
  - apply Byte.to_of_N in E. simpl. rewrite E. rewrite Z2N.id; lia.
  - apply Byte.of_N_None_iff in E. lia.
Qed.

Lemma bv_inj (a b : byte) : bv a = bv b -> a = b.
Proof. intros H. rewrite <- (to_u8_bv a), <- (to_u8_bv b), H. reflexivity. Qed.

Lemma to_u8_mod (z : Z) : to_u8 (z mod 256) = to_u8 z.
Proof. unfold to_u8. rewrite Z.mod_mod by lia. reflexivity. Qed.

Lemma to_int_small (z : Z) : 0 <= z < 2147483648 -> to_int z = z.
Proof.
  intros H. unfold to_int. rewrite Z.mod_small by lia.
  destruct (Z.ltb_spec z 2147483648); lia.
Qed.

Lemma u32_small (z : Z) : 0 <= z < 4294967296 -> u32 z = z.
Proof. intros H. unfold u32. apply Z.mod_small. lia. Qed.

Lemma u16_small (z : Z) : 0 <= z < 65536 -> u16 z = z.
Proof. intros H. unfold u16. apply Z.mod_small. lia. Qed.

Lemma c_abs (x : Z) : (if x <? 0 then - x else x) = Z.abs x.
Proof. destruct (Z.ltb_spec x 0); lia. Qed.

(** ** The Paeth predictor *)

(** C7. For all bytes [a] and [b]: [paeth a a a = a], [paeth a b b = a]
    and [paeth a b a = b]. *)
Theorem paeth_unit_properties (a b : byte) :
  paeth a a a = a /\ paeth a b b = a /\ paeth a b a = b.
Proof.
  pose proof (bv_range a) as Ha. pose proof (bv_range b) as Hb.
  unfold paeth. cbv zeta. rewrite !c_abs. repeat split.
  - repeat case_if; reflexivity.
  - repeat case_if; zb; try reflexivity; lia.
  - repeat case_if; zb; try reflexivity; try (apply bv_inj); lia.
Qed.

(** ** Rejected inputs *)

Lemma bytes_per_pixel_Some (ctype bpc bpp : Z) :
  bytes_per_pixel ctype bpc = Some bpp ->
  (ctype = 0 /\ bpp = 1 * bpc) \/ (ctype = 2 /\ bpp = 3 * bpc) \/ (ctype = 3 /\ bpp = 1)
  \/ (ctype = 4 /\ bpp = 2 * bpc) \/ (ctype = 6 /\ bpp = 4 * bpc).
Proof.
  unfold bytes_per_pixel. intros E.
  destruct ctype as [|p|p]; try discriminate; [injection E; lia|].
  repeat (destruct p as [p|p|]; simpl in E; try discriminate); injection E; lia.
Qed.

(** C5. [sped_decode] returns -1 without calling the row callback when
    the IHDR compression, filter or interlace method is not 0, the bit
    depth is neither 8 nor 16, the depth is 16 with colour type 3, the
    colour type is not one of 0, 2, 3, 4, 6, the width or the height is 0,
    the scale is not one of 1, 2, 4, or [w / scale] or [h / scale] is 0. *)
Theorem decode_rejects_unsupported (tinfl : inflater) (alloc : Z -> bool)
    (stack_pal : Z -> rgb) (fuel : nat) (png : list byte) (scale : Z) :
  unsupported png scale ->
  sped_decode tinfl alloc stack_pal fuel png scale = Some (-1, []).
Proof.
  unfold unsupported, ihdr_compression, ihdr_filter, ihdr_interlace,
    ihdr_depth, ihdr_ctype, ihdr_w, ihdr_h.
  intros H. unfold sped_decode. cbv zeta.
  destruct (bytes_per_pixel (bv (rd png 25)) (Z.quot (bv (rd png 24)) 8)) as [bpp|] eqn:Ebpp.
  - apply bytes_per_pixel_Some in Ebpp.
    repeat case_if; try reflexivity; exfalso; zb; intuition lia.
  - repeat case_if; reflexivity.
Qed.

Lemma decode_rejects_unsupported_witness :
  unsupported png_2x2_interlaced 1 /\
  sped_decode Stored.stored alloc_any no_stack 10 png_2x2_interlaced 1 = Some (-1, []).
Proof.
  assert (H : unsupported png_2x2_interlaced 1).
  { unfold unsupported. right; right; left. vm_compute. discriminate. }
  split; [exact H | apply (decode_rejects_unsupported _ _ _ _ _ _ H)].
Defined.

(** ** Big-endian words *)

Lemma lor_shiftl_add (a x n : Z) :
  0 <= n -> 0 <= x < 2 ^ n -> Z.lor (Z.shiftl a n) x = a * 2 ^ n + x.
Proof.
  intros Hn Hx.
  assert (Hland : Z.land (Z.shiftl a n) x = 0).
  { apply Z.bits_inj'. intros i Hi. rewrite Z.land_spec, Z.bits_0.
    destruct (Z.lt_ge_cases i n) as [Hlt|Hge].
    - rewrite Z.shiftl_spec_low by lia. reflexivity.
    - destruct (Z.eq_dec x 0) as [->|Hx0].
      + rewrite Z.bits_0. apply andb_false_r.
      + rewrite (Z.bits_above_log2 x i); [apply andb_false_r | lia |].
        apply Z.log2_lt_pow2; [lia|].
        eapply Z.lt_le_trans; [apply Hx|]. apply Z.pow_le_mono_r; lia. }
  rewrite <- Z.lxor_lor by exact Hland.
  rewrite <- Z.add_nocarry_lxor by exact Hland.
  rewrite Z.shiftl_mul_pow2 by lia. reflexivity.
Qed.

Lemma r32_be (p : list byte) (off : Z) : r32 p off = be32_at p off.
Proof.
  unfold r32, be32_at.
  pose proof (bv_range (rd p off)). pose proof (bv_range (rd p (off + 1))).
  pose proof (bv_range (rd p (off + 2))). pose proof (bv_range (rd p (off + 3))).
  set (b0 := bv (rd p off)) in *. set (b1 := bv (rd p (off + 1))) in *.
  set (b2 := bv (rd p (off + 2))) in *. set (b3 := bv (rd p (off + 3))) in *.
  rewrite (lor_shiftl_add b0 (Z.shiftl b1 16) 24)
    by (rewrite ?Z.shiftl_mul_pow2; lia).
  rewrite (Z.shiftl_mul_pow2 b1) by lia.
  replace (b0 * 2 ^ 24 + b1 * 2 ^ 16) with (Z.shiftl (b0 * 256 + b1) 16)
    by (rewrite Z.shiftl_mul_pow2; lia).
  rewrite (lor_shiftl_add _ (Z.shiftl b2 8) 16)
    by (rewrite ?Z.shiftl_mul_pow2; lia).
  rewrite (Z.shiftl_mul_pow2 b2) by lia.
  replace ((b0 * 256 + b1) * 2 ^ 16 + b2 * 2 ^ 8)
    with (Z.shiftl ((b0 * 256 + b1) * 256 + b2) 8)
    by (rewrite Z.shiftl_mul_pow2; lia).
  rewrite lor_shiftl_add by lia. lia.
Qed.

Lemma r32_range (p : list byte) (off : Z) : 0 <= r32 p off < 4294967296.
Proof.
  rewrite r32_be. unfold be32_at.
  pose proof (bv_range (rd p off)). pose proof (bv_range (rd p (off + 1))).
  pose proof (bv_range (rd p (off + 2))). pose proof (bv_range (rd p (off + 3))).
  lia.
Qed.

(** ** sped_info *)

(** C10. [sped_info] succeeds exactly when the input has at least 33
    bytes, starts with the PNG signature and carries at offset 8 a chunk
    of declared length 13 and type IHDR; it then reports the big-endian
    words at offsets 16 and 20 as they are.  It succeeds with dimensions
    0x0, and on an interlaced file, where [sped_decode] returns -1. *)
Theorem sped_info_accepts_unchecked (png : list byte) :
  (forall info : sped_info_t,
      sped_info png = Some info <->
      33 <= Z.of_nat (length png) /\ take 8 png = png_sig /\ be32_at png 8 = 13
      /\ take 4 (drop 12 png) = tag "IHDR"
      /\ info = {| width := be32_at png 16; height := be32_at png 20 |})
  /\ sped_info png_0x0 = Some {| width := 0; height := 0 |}
  /\ sped_info png_2x2_interlaced = Some {| width := 2; height := 2 |}
  /\ (forall tinfl alloc stack_pal fuel scale,
        sped_decode tinfl alloc stack_pal fuel png_0x0 scale = Some (-1, [])
        /\ sped_decode tinfl alloc stack_pal fuel png_2x2_interlaced scale = Some (-1, [])).
Proof.
  split; [|split; [|split]].
  - intros info. unfold sped_info. cbv zeta. rewrite <- !r32_be.
    unfold bytes_at. change (length png_sig) with 8%nat.
    change (length (tag "IHDR")) with 4%nat.
    change (Z.to_nat 0) with 0%nat. change (Z.to_nat 12) with 12%nat.
    rewrite drop_0.
    repeat case_if; zb;
      repeat match goal with
             | H : bool_decide _ = true |- _ => apply bool_decide_eq_true in H
             | H : bool_decide _ = false |- _ => apply bool_decide_eq_false in H
             end;
      split; try discriminate; try (intros [= <-]; tauto);
      try (intros (? & ? & ? & ? & ?); first [lia | congruence]).
  - vm_compute. reflexivity.
  - vm_compute. reflexivity.
  - intros. unfold sped_decode.
    destruct (negb (scale =? 1) && negb (scale =? 2) && negb (scale =? 4));
      [split; reflexivity|].
    split; vm_compute; reflexivity.
Qed.

(** ** Buffers *)

Lemma rd_lookup (p : list byte) (i : nat) (b : byte) :
  p !! i = Some b -> rd p (Z.of_nat i) = b.
Proof. intros H. unfold rd. rewrite Nat2Z.id, H. reflexivity. Qed.

Lemma rd_app_l (p q : list byte) (i : Z) :
  0 <= i < Z.of_nat (length p) -> rd (p ++ q) i = rd p i.
Proof. intros H. unfold rd. rewrite lookup_app_l by lia. reflexivity. Qed.

Lemma rd_app_r (p q : list byte) (i : Z) :
  Z.of_nat (length p) <= i -> rd (p ++ q) i = rd q (i - Z.of_nat (length p)).
Proof.
  intros H. unfold rd. rewrite lookup_app_r by lia.
  f_equal. f_equal. lia.
Qed.

Lemma rd_take (p : list byte) (n : nat) (i : Z) :
  0 <= i < Z.of_nat n -> rd (take n p) i = rd p i.
Proof. intros H. unfold rd. rewrite lookup_take_lt by lia. reflexivity. Qed.

Lemma rd_drop (p : list byte) (n : nat) (i : Z) :
  0 <= i -> rd (drop n p) i = rd p (Z.of_nat n + i).
Proof.
  intros H. unfold rd. rewrite lookup_drop. f_equal. f_equal. lia.
Qed.

(** ** Inverse filtering undoes filtering *)

Lemma rd_png_filter (flt : byte) (bpp : Z) (cur prev : list byte) (i : Z) :
  0 <= i < Z.of_nat (length cur) ->
  rd (png_filter flt bpp cur prev) i = png_filter_byte flt bpp prev cur i.
Proof.
  intros H. unfold rd, png_filter. rewrite list_lookup_fmap.
  rewrite lookup_seqZ_lt by lia. simpl. f_equal. lia.
Qed.

Lemma unfilter_prefix (flt : byte) (bpp : Z) (cur prev : list byte) (k : nat) :
  1 <= bpp -> (k <= length cur)%nat ->
  fold_left (unfilter_byte flt bpp prev) (seqZ 0 (Z.of_nat k)) (png_filter flt bpp cur prev)
  = take k cur ++ drop k (png_filter flt bpp cur prev).
Proof.
  intros Hbpp. induction k as [|k IH]; intros Hk.
  - reflexivity.
  - rewrite seqZ_S, Z.add_0_l, fold_left_app, IH by lia. simpl. clear IH.
    set (F := png_filter flt bpp cur prev).
    assert (HF : length F = length cur).
    { unfold F, png_filter. rewrite length_map, length_seqZ. lia. }
    destruct (lookup_lt_is_Some_2 cur k ltac:(lia)) as [x Hx].
    assert (Hcur : rd (take k cur ++ drop k F) (Z.of_nat k)
                   = png_filter_byte flt bpp prev cur (Z.of_nat k)).
    { rewrite rd_app_r by (rewrite length_take; lia).
      rewrite length_take, rd_drop by lia.
      replace (Z.of_nat k + (Z.of_nat k - Z.of_nat (k `min` length cur)))
        with (Z.of_nat k) by lia.
      apply rd_png_filter. lia. }
    assert (Ha : bpp <= Z.of_nat k ->
                 rd (take k cur ++ drop k F) (Z.of_nat k - bpp)
                 = rd cur (Z.of_nat k - bpp)).
    { intros Hle. rewrite rd_app_l by (rewrite length_take; lia).
      apply rd_take. lia. }
    assert (Hgoal : forall v : byte, v = x ->
              <[Z.to_nat (Z.of_nat k) := v]> (take k cur ++ drop k F)
              = take (S k) cur ++ drop (S k) F).
    { intros v ->. rewrite Nat2Z.id.
      rewrite insert_app_r_alt by (rewrite length_take; lia).
      rewrite length_take. replace (k - k `min` length cur)%nat with 0%nat by lia.
      rewrite (take_S_r cur k x Hx).
      destruct (drop k F) as [|y F'] eqn:EF.
      { apply (f_equal length) in EF. rewrite length_drop in EF. simpl in EF. lia. }
      simpl. rewrite <- app_assoc. simpl. f_equal. f_equal.
      change F' with (drop 1 (y :: F')). rewrite <- EF, drop_drop.
      f_equal. lia. }
    assert (Hx' : rd cur (Z.of_nat k) = x) by (apply rd_lookup; exact Hx).
    pose proof (bv_range x) as Hxr.
    assert (Hsame : png_filter_byte flt bpp prev cur (Z.of_nat k) = x ->
                    take k cur ++ drop k F = take (S k) cur ++ drop (S k) F).
    { intros E. rewrite <- (Hgoal x eq_refl). symmetry.
      rewrite Nat2Z.id. apply list_insert_id.
      destruct (lookup_lt_is_Some_2 (take k cur ++ drop k F) k) as [y Hy].
      { rewrite length_app, length_take, length_drop. lia. }
      rewrite Hy. f_equal. apply rd_lookup in Hy. congruence. }
    assert (Hadd : forall p : Z, to_u8 (bv (to_u8 (bv x - p)) + p) = x).
    { intros p. rewrite bv_to_u8, <- to_u8_mod, Zplus_mod_idemp_l.
      replace (bv x - p + p) with (bv x) by lia.
      rewrite to_u8_mod. apply to_u8_bv. }
    unfold unfilter_byte. rewrite Hcur.
    assert (Hshr : forall a b : byte,
               bv (to_u8 (Z.shiftr (bv a + bv b) 1)) = (bv a + bv b) / 2).
    { intros a b. pose proof (bv_range a). pose proof (bv_range b).
      rewrite bv_to_u8, Z.shiftr_div_pow2 by lia. change (2 ^ 1) with 2.
      apply Z.mod_small. split; [apply Z.div_pos; lia|].
      apply Z.div_lt_upper_bound; lia. }
    unfold png_filter_byte in *. rewrite Hx' in *.
    destruct (Z.leb_spec bpp (Z.of_nat k)) as [Hle|Hgt].
    + rewrite (Ha Hle).
      destruct (bv flt) as [|[[|[]|]|[|[]|]|]|] eqn:Ef;
        first [ apply Hgoal; rewrite ?Hshr; apply Hadd | apply Hsame; reflexivity ].
    + destruct (bv flt) as [|[[|[]|]|[|[]|]|]|] eqn:Ef;
        first [ apply Hgoal; rewrite ?Hshr; apply Hadd | apply Hsame; reflexivity ].
Qed.

(** C6. For every filter type 0 to 4, every [bpp >= 1] and scanlines
    [cur] and [prev] of equal length, the inverse filter of section 4.5
    applied to the filtered [cur] gives back [cur]. *)
Theorem filter_roundtrip (flt : byte) (bpp : Z) (cur prev : list byte) :
  0 <= bv flt <= 4 -> 1 <= bpp -> length cur = length prev ->
  unfilter flt bpp (Z.of_nat (length cur)) (png_filter flt bpp cur prev) prev = cur.
Proof.
  intros _ Hbpp _. unfold unfilter. rewrite unfilter_prefix by lia.
  rewrite firstn_all, drop_ge; [apply app_nil_r|].
  unfold png_filter. rewrite length_map, length_seqZ. lia.
Qed.

Lemma filter_roundtrip_witness :
  0 <= bv x04 <= 4 /\ 1 <= 3
  /\ length [x0a; xff; x03; x80; x7f; x01] = length [x09; x10; xfe; x80; x00; x81]
  /\ unfilter x04 3 6
       (png_filter x04 3 [x0a; xff; x03; x80; x7f; x01] [x09; x10; xfe; x80; x00; x81])
       [x09; x10; xfe; x80; x00; x81]
     = [x0a; xff; x03; x80; x7f; x01].
Proof.
  assert (H1 : 0 <= bv x04 <= 4) by (vm_compute; split; discriminate).
  assert (H2 : 1 <= 3) by lia.
  assert (H3 : length [x0a; xff; x03; x80; x7f; x01]
               = length [x09; x10; xfe; x80; x00; x81]) by reflexivity.
  split; [exact H1|]. split; [exact H2|]. split; [exact H3|].
  exact (filter_roundtrip x04 3 [x0a; xff; x03; x80; x7f; x01]
           [x09; x10; xfe; x80; x00; x81] H1 H2 H3).
Defined.

(** ** The scanline assembler, byte by byte *)

Lemma decoder_eta (s : decoder) :
  {| sl_pos := sl_pos s; filter := filter s; row := row s; out_row := out_row s;
     cur := cur s; prev := prev s; acc := acc s; calls := calls s |} = s.
Proof. destruct s; reflexivity. Qed.

Lemma unfilter_length (flt : byte) (bpp stride : Z) (cur prev : list byte) :
  length (unfilter flt bpp stride cur prev) = length cur.
Proof.
  unfold unfilter. generalize (seqZ 0 stride) as l. intros l. revert cur.
  induction l as [|i l IH]; intros cur; simpl; [reflexivity|].
  rewrite IH. unfold unfilter_byte.
  destruct (bv flt) as [|[[|[]|]|[|[]|]|]|]; rewrite ?length_insert; reflexivity.
Qed.

Section Assembler.
Variable im : image.
Hypothesis Him : image_ok im.

Lemma stride_pos : 0 < img_stride im < 2147483647.
Proof. destruct Him. nia. Qed.

Lemma h_int : to_int (img_h im) = img_h im.
Proof. destruct Him. apply to_int_small. lia. Qed.

Lemma scanline_complete_ok (s : decoder) (c : list byte) :
  decoder_ok im s -> row s < img_h im -> length c = Z.to_nat (img_stride im) ->
  decoder_ok im (scanline_complete im s c).
Proof.
  intros [Hp Hr Hc Hv] Hlt Hlen. pose proof stride_pos as Hs. destruct Him.
  unfold scanline_complete, emit_scanline.
  repeat case_if; constructor; simpl;
    rewrite ?to_int_small, ?length_replicate, ?unfilter_length by lia;
    try lia.
Qed.

Lemma push_ok (s : decoder) (b : byte) :
  decoder_ok im s -> decoder_ok im (push im s b).
Proof.
  intros Hok. pose proof stride_pos as Hs. unfold push. rewrite h_int.
  repeat case_if; zb; try exact Hok.
  - destruct Hok. constructor; simpl; lia.
  - apply scanline_complete_ok; [exact Hok | lia |].
    rewrite length_insert. apply Hok.
  - destruct Hok. constructor; simpl; rewrite ?length_insert; lia.
Qed.

Lemma fold_push_ok (l : list byte) (s : decoder) :
  decoder_ok im s -> decoder_ok im (fold_left (push im) l s).
Proof.
  revert s. induction l as [|b l IH]; intros s Hok; simpl; [exact Hok|].
  apply IH, push_ok, Hok.
Qed.

Lemma fold_push_done (l : list byte) (s : decoder) :
  img_h im <= row s -> fold_left (push im) l s = s.
Proof.
  intros Hr. induction l as [|b l IH]; simpl; [reflexivity|].
  unfold push at 2. rewrite h_int.
  destruct (Z.ltb_spec (row s) (img_h im)); [lia | exact IH].
Qed.

(** Pushing the bytes [l] into a scanline that has room for them is
    one [memcpy]. *)
Lemma fold_push_fill (l : list byte) (s : decoder) :
  decoder_ok im s -> row s < img_h im -> 1 <= sl_pos s ->
  sl_pos s - 1 + Z.of_nat (length l) <= img_stride im ->
  fold_left (push im) l s =
  let cur1 := memcpy_at (cur s) (sl_pos s - 1) l in
  if img_stride im <? sl_pos s + Z.of_nat (length l) then scanline_complete im s cur1
  else {| sl_pos := sl_pos s + Z.of_nat (length l); filter := filter s; row := row s;
          out_row := out_row s; cur := cur1; prev := prev s; acc := acc s;
          calls := calls s |}.
Proof.
  revert s. induction l as [|b l IH]; intros s Hok Hr Hp Hroom; cbv zeta;
    pose proof (ok_sl_pos _ _ Hok) as Hpos.
  - simpl. case_if; zb; [lia|].
    unfold memcpy_at. simpl. rewrite Z.add_0_r. symmetry. apply decoder_eta.
  - simpl fold_left. unfold push at 2. rewrite h_int.
    destruct (Z.ltb_spec (row s) (img_h im)); [|lia].
    destruct (Z.eqb_spec (sl_pos s) 0); [lia|].
    assert (Hcpy : forall c : list byte,
               memcpy_at (<[Z.to_nat (sl_pos s - 1) := b]> c) (sl_pos s + 1 - 1) l
               = memcpy_at c (sl_pos s - 1) (b :: l)).
    { intros c. unfold memcpy_at.
      replace (Z.to_nat (sl_pos s + 1 - 1)) with (S (Z.to_nat (sl_pos s - 1))) by lia.
      simpl. symmetry. apply list_insert_inserts_lt. lia. }
    simpl length in *.
    destruct (Z.ltb_spec (img_stride im) (sl_pos s + 1)) as [Hfull|Hpart].
    + assert (l = []) as -> by (destruct l; [reflexivity | simpl in Hroom; lia]).
      simpl. case_if; zb; [|lia]. reflexivity.
    + rewrite IH; simpl.
      * rewrite Hcpy.
        replace (sl_pos s + 1 + Z.of_nat (length l))
          with (sl_pos s + Z.of_nat (S (length l))) by lia.
        case_if; reflexivity.
      * destruct Hok. constructor; simpl; rewrite ?length_insert; lia.
      * exact Hr.
      * lia.
      * lia.
Qed.

Lemma feed_loop_push (n : nat) (s : decoder) (dp : list byte) :
  decoder_ok im s -> (length dp <= n)%nat ->
  feed_loop im n s dp = fold_left (push im) dp s.
Proof.
  revert s dp. induction n as [|n IH]; intros s dp Hok Hn.
  - destruct dp; [reflexivity | simpl in Hn; lia].
  - pose proof stride_pos as Hs. pose proof (ok_sl_pos _ _ Hok) as Hpos.
    simpl feed_loop. rewrite h_int.
    destruct (Z.ltb_spec 0 (Z.of_nat (length dp))) as [Hav|Hav]; simpl andb.
    2:{ destruct dp; [reflexivity | simpl in Hav; lia]. }
    destruct (Z.ltb_spec (row s) (img_h im)) as [Hr|Hr].
    2:{ symmetry. apply fold_push_done. lia. }
    destruct (Z.eqb_spec (sl_pos s) 0) as [H0|H0].
    + destruct dp as [|b dp]; [simpl in Hav; lia|].
      change (rd (b :: dp) 0) with b. change (drop 1 (b :: dp)) with dp.
      simpl fold_left. unfold push at 2. rewrite h_int.
      destruct (Z.ltb_spec (row s) (img_h im)); [|lia].
      destruct (Z.eqb_spec (sl_pos s) 0); [|lia].
      apply IH; [|simpl in Hn; lia].
      destruct Hok. constructor; simpl; lia.
    + set (need := u32 (img_stride im - (sl_pos s - 1))).
      assert (Hneed : need = img_stride im - (sl_pos s - 1))
        by (apply u32_small; lia).
      set (take_n := if Z.of_nat (length dp) <? need then Z.of_nat (length dp) else need).
      assert (Htake : 1 <= take_n <= Z.of_nat (length dp) /\ take_n <= need).
      { unfold take_n. case_if; zb; lia. }
      assert (Hlen : length (take (Z.to_nat take_n) dp) = Z.to_nat take_n)
        by (rewrite length_take; lia).
      assert (Hsplit : fold_left (push im) dp s
                       = fold_left (push im) (drop (Z.to_nat take_n) dp)
                           (fold_left (push im) (take (Z.to_nat take_n) dp) s))
        by (rewrite <- fold_left_app, take_drop; reflexivity).
      rewrite Hsplit.
      rewrite (fold_push_fill (take (Z.to_nat take_n) dp)); try assumption. 
      2, 3: lia.
      cbv zeta. rewrite Hlen, Z2Nat.id by lia.
      rewrite (to_int_small take_n) by lia.
      rewrite (to_int_small (sl_pos s + take_n)) by lia.
      apply IH.
      * case_if.
        -- apply scanline_complete_ok; [exact Hok | exact Hr |].
           unfold memcpy_at. rewrite length_inserts. apply Hok.
        -- zb. destruct Hok. constructor; simpl;
             unfold memcpy_at; rewrite ?length_inserts; lia.
      * rewrite length_drop. lia.
Qed.

Lemma feed_push (s : decoder) (dp : list byte) :
  decoder_ok im s -> feed im s dp = fold_left (push im) dp s.
Proof. intros Hok. apply feed_loop_push; [exact Hok | lia]. Qed.

Lemma feed_ok (s : decoder) (dp : list byte) :
  decoder_ok im s -> decoder_ok im (feed im s dp).
Proof. intros Hok. rewrite feed_push by exact Hok. apply fold_push_ok, Hok. Qed.

(** Where the decompressor cuts its output does not matter. *)
Lemma feed_app (s : decoder) (dp1 dp2 : list byte) :
  decoder_ok im s -> feed im s (dp1 ++ dp2) = feed im (feed im s dp1) dp2.
Proof.
  intros Hok. rewrite (feed_push (feed im s dp1)) by (apply feed_ok, Hok).
  rewrite !feed_push by exact Hok. apply fold_left_app.
Qed.

Lemma feed_done (s : decoder) (dp : list byte) :
  decoder_ok im s -> img_h im <= row s -> feed im s dp = s.
Proof. intros Hok Hr. rewrite feed_push by exact Hok. apply fold_push_done, Hr. Qed.

Lemma feed_nil (s : decoder) : feed im s [] = s.
Proof. reflexivity. Qed.
End Assembler.

(** ** The inflate driver *)

Section Driver.
Variable tinfl : inflater.
Variable R : tinfl_state tinfl -> list byte -> list byte -> Prop.
Hypothesis HR : streams tinfl R.
Variable im : image.
Hypothesis Him : image_ok im.
Variable idat : list (list byte).

(** With a decompressor that streams, the loop ends, returns 0 and has
    made the calls that feeding all of the inflated data makes. *)
Lemma inflate_loop_streams (fuel : nat) :
  forall (d : tinfl_state tinfl) (dict_ofs : Z) (ci : nat) (inp : list byte)
         (s : decoder) (out : list byte),
    R d (inp ++ concat (drop (S ci) idat)) out ->
    0 <= dict_ofs < TINFL_LZ_DICT_SIZE -> (ci < length idat)%nat ->
    decoder_ok im s ->
    (length inp + length (concat (drop (S ci) idat)) + length out
     + (length idat - ci) <= fuel)%nat ->
    inflate_loop tinfl im idat fuel d dict_ofs (Z.of_nat ci) inp s
    = Some (0, calls (feed im s out)).
Proof.
  induction fuel as [|fuel IH]; intros d dict_ofs ci inp s out HRd Hofs Hci Hok Hfuel;
    [lia|].
  simpl inflate_loop. rewrite (h_int im Him).
  destruct (Z.ltb_spec (row s) (img_h im)) as [Hrow|Hrow]; simpl negb; cbv iota.
  2:{ rewrite (feed_done im Him) by (assumption || lia). reflexivity. }
  set (more := (Z.of_nat ci <? Z.of_nat (length idat) - 1)
               || (0 <? Z.of_nat (length inp))).
  set (cap := TINFL_LZ_DICT_SIZE - dict_ofs).
  set (r := tinfl_decompress tinfl d inp cap more).
  assert (Hmore : more = false -> concat (drop (S ci) idat) = []).
  { unfold more. intros Hm. zb. rewrite drop_ge; [reflexivity | lia]. }
  destruct (HR d _ out inp _ cap more HRd eq_refl Hmore ltac:(unfold cap; lia))
    as (Hin & Hcap & Hpre & Hnext & Hst & Hdone & Hprog).
  fold r in Hin, Hcap, Hpre, Hnext, Hst, Hdone, Hprog.
  assert (Hout : out = t_out r ++ drop (length (t_out r)) out).
  { rewrite Hpre at 1. apply eq_sym, take_drop. }
  assert (Hfeed : feed im s out
                  = feed im (feed im s (t_out r)) (drop (length (t_out r)) out)).
  { rewrite Hout at 1. apply (feed_app im Him). exact Hok. }
  destruct (Z.eqb_spec (t_status r) TINFL_STATUS_DONE) as [Hd|Hd].
  { rewrite Hfeed, (Hdone Hd). reflexivity. }
  destruct (Z.ltb_spec (t_status r) 0) as [Hneg|_]; [lia|].
  rewrite Hfeed.
  rewrite drop_app_le in Hnext by lia.
  set (inp1 := drop (Z.to_nat (t_in_bytes r)) inp) in *.
  assert (Hinp1 : (length inp1 + Z.to_nat (t_in_bytes r) = length inp)%nat).
  { unfold inp1. rewrite length_drop. lia. }
  assert (Hlen_out : (length (drop (length (t_out r)) out) + length (t_out r)
                      = length out)%nat).
  { rewrite length_drop. apply (f_equal length) in Hout.
    rewrite length_app, length_drop in Hout. lia. }
  assert (Hofs1 : 0 <= Z.land (dict_ofs + Z.of_nat (length (t_out r)))
                        (TINFL_LZ_DICT_SIZE - 1) < TINFL_LZ_DICT_SIZE).
  { change (TINFL_LZ_DICT_SIZE - 1) with (Z.ones 15).
    rewrite Z.land_ones by lia. change TINFL_LZ_DICT_SIZE with (2 ^ 15).
    apply Z.mod_pos_bound. lia. }
  destruct ((Z.of_nat (length inp1) =? 0)
            && (Z.of_nat ci <? Z.of_nat (length idat) - 1)) eqn:Hadv.
  - zb. destruct (lookup_lt_is_Some_2 idat (S ci) ltac:(lia)) as [nxt Hnxt].
    replace (Z.to_nat (Z.of_nat ci + 1)) with (S ci) by lia.
    rewrite Hnxt. simpl default.
    replace (Z.of_nat ci + 1) with (Z.of_nat (S ci)) by lia.
    assert (Hcat : concat (drop (S ci) idat) = nxt ++ concat (drop (S (S ci)) idat)).
    { rewrite (drop_S idat nxt (S ci) Hnxt). reflexivity. }
    apply IH.
    + destruct inp1; [|simpl in *; lia]. simpl in Hnext. rewrite <- Hcat. exact Hnext.
    + exact Hofs1.
    + lia.
    + apply (feed_ok im Him), Hok.
    + rewrite Hcat, length_app in Hfuel. lia.
  - apply IH.
    + exact Hnext.
    + exact Hofs1.
    + exact Hci.
    + apply (feed_ok im Him), Hok.
    + assert (0 < t_in_bytes r \/ t_out r <> []) as Hp.
      { destruct (Z.eq_dec (t_in_bytes r) 0) as [H0|H0]; [|lia].
        destruct (t_out r) eqn:Eo; [|right; discriminate].
        exfalso. destruct (Hprog Hd H0 eq_refl) as [-> Hm].
        unfold inp1 in Hadv. rewrite drop_nil in Hadv. simpl in Hadv.
        unfold more in Hm. simpl in Hm. rewrite orb_false_r in Hm. congruence. }
      destruct Hp as [Hp|Hp]; [lia|].
      destruct (t_out r); [congruence|]. simpl in *. lia.
Qed.
End Driver.

(** ** sped_decode on a file that decodes *)

Section Decodable.
Variable tinfl : inflater.
Variable alloc : Z -> bool.
Variable stack_pal : Z -> rgb.
Variables (png : list byte) (scale : Z) (raw : list byte).
Hypothesis Hdec : decodable tinfl alloc stack_pal png scale raw.

Lemma decodable_scale : scale = 1 \/ scale = 2 \/ scale = 4.
Proof. destruct Hdec as [_ Hsup _ _ _ _ _]. unfold unsupported in Hsup. lia. Qed.

Lemma decodable_bpp :
  exists bpp, bytes_per_pixel (ihdr_ctype png) (Z.quot (ihdr_depth png) 8) = Some bpp
              /\ img_bpp (image_of stack_pal png scale) = bpp /\ 1 <= bpp <= 8.
Proof.
  destruct Hdec as [_ Hsup _ _ _ _ _]. unfold unsupported in Hsup.
  assert (Hd : ihdr_depth png = 8 \/ ihdr_depth png = 16) by lia.
  assert (Hc : ihdr_ctype png = 0 \/ ihdr_ctype png = 2 \/ ihdr_ctype png = 3
               \/ ihdr_ctype png = 4 \/ ihdr_ctype png = 6) by lia.
  unfold image_of; simpl.
  destruct Hd as [-> | ->]; destruct Hc as [-> | [-> | [-> | [-> | ->]]]];
    eexists; (split; [reflexivity|]); simpl; split;
    first [reflexivity | lia | (vm_compute; split; discriminate)].
Qed.

Lemma decodable_image_ok : image_ok (image_of stack_pal png scale).
Proof.
  destruct decodable_bpp as (bpp & Ebpp & Hbpp & Hb).
  pose proof Hdec as [_ Hsup Hh Hstr _ _ _]. unfold unsupported in Hsup.
  pose proof (r32_range png 16). pose proof (r32_range png 20).
  rewrite Hbpp in Hstr.
  assert (Hw : 0 < r32 png 16 / scale).
  { unfold ihdr_w in Hsup. pose proof (Z.div_pos (r32 png 16) scale). lia. }
  constructor; rewrite ?Hbpp; unfold image_of; simpl; fold (ihdr_w png) (ihdr_h png);
    unfold ihdr_w, ihdr_h in *; try lia.
  rewrite Ebpp. simpl. rewrite u32_small, to_int_small; nia.
Qed.

Lemma decoder_init_ok (im : image) : image_ok im -> decoder_ok im (decoder_init im).
Proof.
  intros Him. pose proof (stride_pos im Him). destruct Him.
  constructor; simpl; rewrite ?length_replicate; lia.
Qed.

(** The file decodes to the calls that feeding [raw] makes, and
    [sped_decode] returns 0, however long [raw] is. *)
Lemma sped_decode_streams (fuel : nat) :
  (decode_fuel stack_pal png raw <= fuel)%nat ->
  sped_decode tinfl alloc stack_pal fuel png scale
  = Some (0, calls (feed (image_of stack_pal png scale)
                         (decoder_init (image_of stack_pal png scale)) raw)).
Proof.
  intros Hfuel.
  destruct decodable_bpp as (bpp & Ebpp & Hbpp & Hb).
  pose proof decodable_image_ok as Him.
  pose proof decodable_scale as Hsc.
  pose proof Hdec as [Hhdr Hsup Hh Hstr (Ha1 & Ha2 & Ha3 & Ha4) Hidat (R & HR & HR0)].
  unfold sped_info in Hhdr. unfold unsupported in Hsup.
  unfold ihdr_compression, ihdr_filter, ihdr_interlace, ihdr_depth, ihdr_ctype,
    ihdr_w, ihdr_h in *.
  unfold sped_decode. cbv zeta.
  replace (negb (scale =? 1) && negb (scale =? 2) && negb (scale =? 4)) with false
    by (symmetry; apply andb_false_iff; rewrite andb_false_iff, !negb_false_iff, !Z.eqb_eq; lia).
  destruct ((Z.of_nat (length png) <? 33) || negb (bytes_at png 0 png_sig));
    [congruence|].
  destruct (negb (r32 png 8 =? 13) || negb (bytes_at png 12 (tag "IHDR")));
    [congruence|].
  replace (negb (bv (rd png 26) =? 0)) with false
    by (symmetry; rewrite negb_false_iff, Z.eqb_eq; lia).
  replace (negb (bv (rd png 27) =? 0)) with false
    by (symmetry; rewrite negb_false_iff, Z.eqb_eq; lia).
  replace (negb (bv (rd png 28) =? 0)) with false
    by (symmetry; rewrite negb_false_iff, Z.eqb_eq; lia).
  replace (negb (bv (rd png 24) =? 8) && negb (bv (rd png 24) =? 16)) with false
    by (symmetry; rewrite andb_false_iff, !negb_false_iff, !Z.eqb_eq; lia).
  replace ((bv (rd png 24) =? 16) && (bv (rd png 25) =? 3)) with false
    by (symmetry; rewrite andb_false_iff, !Z.eqb_neq; lia).
  replace ((r32 png 16 =? 0) || (r32 png 20 =? 0)) with false
    by (symmetry; rewrite orb_false_iff, !Z.eqb_neq; lia).
  rewrite Ebpp.
  replace ((r32 png 16 / scale =? 0) || (r32 png 20 / scale =? 0)) with false
    by (symmetry; rewrite orb_false_iff, !Z.eqb_neq; lia).
  replace (Z.of_nat (length (ch_idat (scan_chunks stack_pal png (bv (rd png 25))))) =? 0)
    with false
    by (symmetry; apply Z.eqb_neq; destruct (ch_idat _); [congruence | simpl; lia]).
  assert (Eim : image_of stack_pal png scale =
                {| img_w := r32 png 16; img_h := r32 png 20;
                   img_ctype := bv (rd png 25);
                   img_bpc := Z.quot (bv (rd png 24)) 8; img_bpp := bpp;
                   img_stride := to_int (u32 (r32 png 16 * bpp));
                   img_scale := scale; img_out_w := r32 png 16 / scale;
                   img_pal := ch_pal (scan_chunks stack_pal png (bv (rd png 25))) |}).
  { unfold image_of, ihdr_depth, ihdr_ctype, ihdr_w, ihdr_h. rewrite Ebpp. reflexivity. }
  rewrite Eim in Ha1. simpl in Ha1. rewrite Ha1, Ha2, Ha3. simpl negb. simpl orb.
  replace ((1 <? scale) && negb (alloc (u32 (r32 png 16 / scale * 3) * 2))) with false.
  2:{ symmetry. destruct (Z.ltb_spec 1 scale) as [H1|H1]; [|reflexivity].
      rewrite (Ha4 H1). reflexivity. }
  rewrite <- Eim.
  destruct (ch_idat (scan_chunks stack_pal png (bv (rd png 25)))) as [|i0 idat] eqn:Eidat;
    [congruence|].
  change (default [] ((i0 :: idat) !! 0%nat)) with i0.
  replace (inflate_loop tinfl (image_of stack_pal png scale) (i0 :: idat) fuel (tinfl_init tinfl) 0 0 i0)
    with (inflate_loop tinfl (image_of stack_pal png scale) (i0 :: idat) fuel (tinfl_init tinfl) 0 (Z.of_nat 0) i0)
    by reflexivity.
  assert (Einit : decoder_init (image_of stack_pal png scale) =
     {| sl_pos := 0; filter := x00; row := 0; out_row := 0;
        cur := replicate (Z.to_nat (to_int (u32 (r32 png 16 * bpp)))) x00;
        prev := replicate (Z.to_nat (to_int (u32 (r32 png 16 * bpp)))) x00;
        acc := if 1 <? scale
               then replicate (Z.to_nat (u32 (r32 png 16 / scale * 3))) 0 else [];
        calls := [] |}).
  { rewrite Eim. reflexivity. }
  rewrite <- Einit.
  apply (inflate_loop_streams tinfl R HR _ Him).
  - simpl. exact HR0.
  - unfold TINFL_LZ_DICT_SIZE. lia.
  - simpl. lia.
  - apply decoder_init_ok, Him.
  - unfold decode_fuel, ihdr_ctype in Hfuel. rewrite Eidat in Hfuel.
    change (drop 1 (i0 :: idat)) with idat.
    change (concat (i0 :: idat)) with (i0 ++ concat idat) in Hfuel.
    rewrite length_app in Hfuel. simpl length in *. lia.
Qed.
End Decodable.

(** ** The stored-block decompressor streams *)

Lemma stored_step_out (st st' : Stored.state) (x : byte) (o : list byte) :
  Stored.step st x = (st', o) -> o = [] \/ (Stored.copying st = true /\ o = [x]).
Proof.
  unfold Stored.step, Stored.copying. intros E.
  destruct (Stored.ph st) as [| | |f got|f n|got| |c];
    repeat (case_if || match type of E with context [match ?l with _ => _ end] =>
                         destruct l end);
    injection E as <- <-; auto.
Qed.

Lemma stored_run_eq (st : Stored.state) (inp : list byte) (cap : Z) (more : bool) :
  Stored.run st inp cap more =
  match Stored.halted st with
  | Some code => {| t_status := code; t_in_bytes := 0; t_out := []; t_next := st |}
  | None =>
    if Stored.copying st && (cap <=? 0) then
      {| t_status := TINFL_STATUS_HAS_MORE_OUTPUT; t_in_bytes := 0; t_out := [];
         t_next := st |}
    else
      match inp with
      | [] => {| t_status := if more then TINFL_STATUS_NEEDS_MORE_INPUT else -4;
                 t_in_bytes := 0; t_out := []; t_next := st |}
      | x :: inp' =>
          let '(st', o) := Stored.step st x in
          let r := Stored.run st' inp' (cap - Z.of_nat (length o)) more in
          {| t_status := t_status r; t_in_bytes := 1 + t_in_bytes r;
             t_out := o ++ t_out r; t_next := t_next r |}
      end
  end.
Proof. destruct inp; reflexivity. Qed.

Lemma stored_inflate_all_eq (st : Stored.state) (inp : list byte) :
  Stored.inflate_all st inp =
  match Stored.halted st with
  | Some code => if code =? TINFL_STATUS_DONE then Some [] else None
  | None =>
      match inp with
      | [] => None
      | x :: inp' =>
          let '(st', o) := Stored.step st x in
          match Stored.inflate_all st' inp' with
          | Some out => Some (o ++ out)
          | None => None
          end
      end
  end.
Proof. destruct inp; reflexivity. Qed.

Lemma stored_run_spec (inp : list byte) :
  forall (st : Stored.state) (rest out : list byte) (cap : Z) (more : bool),
    Stored.inflate_all st (inp ++ rest) = Some out ->
    (more = false -> rest = []) -> 0 <= cap ->
    let r := Stored.run st inp cap more in
    0 <= t_in_bytes r <= Z.of_nat (length inp)
    /\ Z.of_nat (length (t_out r)) <= cap
    /\ t_out r = take (length (t_out r)) out
    /\ Stored.inflate_all (t_next r) (drop (Z.to_nat (t_in_bytes r)) (inp ++ rest))
       = Some (drop (length (t_out r)) out)
    /\ 0 <= t_status r
    /\ (t_status r = TINFL_STATUS_DONE -> drop (length (t_out r)) out = [])
    /\ (t_status r <> TINFL_STATUS_DONE -> t_in_bytes r = 0 -> t_out r = [] ->
        (inp = [] /\ more = true) \/ cap = 0).
Proof.
  induction inp as [|x inp IH]; intros st rest out cap more Hall Hmore Hcap;
    cbv zeta; rewrite stored_run_eq; pose proof Hall as Hall0;
    rewrite stored_inflate_all_eq in Hall;
    (destruct (Stored.halted st) as [code|] eqn:Eh;
     [ destruct (Z.eqb_spec code TINFL_STATUS_DONE) as [Hcode|]; [|discriminate];
       injection Hall as <-; subst code;
       cbn [t_in_bytes t_out t_next t_status length]; change (Z.to_nat 0) with 0%nat;
       rewrite !drop_0, Hall0;
       unfold TINFL_STATUS_DONE; repeat split; auto; lia
     | destruct (Stored.copying st && (cap <=? 0)) eqn:Ec;
       [ zb; cbn [t_in_bytes t_out t_next t_status length]; change (Z.to_nat 0) with 0%nat;
         rewrite !drop_0, Hall0;
         unfold TINFL_STATUS_HAS_MORE_OUTPUT, TINFL_STATUS_DONE;
         repeat split; auto; lia | ] ]).
  - destruct more.
    + cbn [t_in_bytes t_out t_next t_status length]. change (Z.to_nat 0) with 0%nat.
      rewrite !drop_0, Hall0.
      unfold TINFL_STATUS_NEEDS_MORE_INPUT, TINFL_STATUS_DONE.
      repeat split; auto; lia.
    + rewrite (Hmore eq_refl) in Hall. simpl in Hall. discriminate.
  - simpl app in Hall. cbv iota in Hall.
    destruct (Stored.step st x) as [st' o] eqn:Es.
    destruct (Stored.inflate_all st' (inp ++ rest)) as [out'|] eqn:Eall;
      [|discriminate].
    injection Hall as <-.
    assert (Ho : (length o <= 1)%nat /\ 0 <= cap - Z.of_nat (length o)).
    { destruct (stored_step_out _ _ _ _ Es) as [-> | [Hc ->]]; simpl; [lia|].
      rewrite Hc in Ec. simpl in Ec. zb. lia. }
    destruct (IH st' rest out' (cap - Z.of_nat (length o)) more Eall Hmore
                ltac:(lia)) as (Hin & Hcp & Hpre & Hnext & Hst & Hdone & Hprog).
    cbv zeta. simpl.
    set (r := Stored.run st' inp (cap - Z.of_nat (length o)) more) in *.
    replace (Z.to_nat (1 + t_in_bytes r)) with (S (Z.to_nat (t_in_bytes r))) by lia.
    simpl drop. rewrite length_app.
    rewrite drop_app_add', take_app_add' by reflexivity.
    repeat split; auto; try lia.
    f_equal. exact Hpre.
Qed.

Lemma stored_streams : streams Stored.stored Stored.delivers.
Proof.
  intros d zin out inp rest cap more Hd -> Hmore Hcap. unfold Stored.delivers in *.
  destruct (stored_run_spec inp d rest out cap more Hd Hmore ltac:(lia))
    as (Hin & Hcp & Hpre & Hnext & Hst & Hdone & Hprog).
  simpl. repeat split; auto; try lia.
  all: match goal with
       | Ha : _ <> _, Hb : _ = 0, Hc : _ = [] |- _ =>
           destruct (Hprog Ha Hb Hc) as [[? ?]|?]; [assumption | lia]
       end.
Qed.

(** ** The downscale accumulator *)

Lemma zsum_app (l1 l2 : list Z) : zsum (l1 ++ l2) = zsum l1 + zsum l2.
Proof. unfold zsum. induction l1 as [|x l1 IH]; simpl; lia. Qed.

Lemma chan_range (c : Z) (p : rgb) : 0 <= chan c p <= 255.
Proof.
  destruct p as [[r g] bl]. unfold chan.
  pose proof (bv_range r). pose proof (bv_range g). pose proof (bv_range bl).
  repeat case_if; lia.
Qed.

Lemma acc_rd_insert_eq (acc : list Z) (i v : Z) :
  0 <= i < Z.of_nat (length acc) -> acc_rd (<[Z.to_nat i := v]> acc) i = v.
Proof. intros H. unfold acc_rd. rewrite list_lookup_insert_eq by lia. reflexivity. Qed.

Lemma acc_rd_insert_ne (acc : list Z) (i j v : Z) :
  0 <= i -> 0 <= j -> i <> j -> acc_rd (<[Z.to_nat i := v]> acc) j = acc_rd acc j.
Proof. intros Hi Hj Hne. unfold acc_rd. rewrite list_lookup_insert_ne by lia. reflexivity. Qed.

Section Accumulate.
Variable im : image.
Hypothesis Him : image_ok im.
Hypothesis Hdown : 1 < img_scale im.

Lemma scale_24 : img_scale im = 2 \/ img_scale im = 4.
Proof. destruct Him. lia. Qed.

Lemma out_w_bound : 0 < img_out_w im /\ img_out_w im * img_scale im <= img_w im
                    /\ img_w im < 2147483647.
Proof.
  pose proof scale_24. destruct Him as [? ? ? ? ? ? Hw ?]. rewrite Hw.
  pose proof (Z.mul_div_le (img_w im) (img_scale im)). rewrite <- Hw. nia.
Qed.

Lemma row_sum_S (cur : list byte) (ox c : Z) (m : nat) :
  row_sum im cur ox c (Z.of_nat (S m))
  = row_sum im cur ox c (Z.of_nat m)
    + chan c (source_pixel im cur (ox * img_scale im + Z.of_nat m)).
Proof.
  unfold row_sum. rewrite seqZ_S, Z.add_0_l, map_app, zsum_app.
  cbn [map zsum foldr]. lia.
Qed.

Lemma row_sum_range (cur : list byte) (ox c : Z) (m : nat) :
  0 <= row_sum im cur ox c (Z.of_nat m) <= 255 * Z.of_nat m.
Proof.
  induction m as [|m IH]; [unfold row_sum; simpl; lia|].
  rewrite row_sum_S.
  pose proof (chan_range c (source_pixel im cur (ox * img_scale im + Z.of_nat m))).
  lia.
Qed.

(** How many of the first [n] columns fall into block column [ox]. *)
Lemma clamp_step (n ox : Z) :
  0 <= n -> 0 <= ox ->
  let s := img_scale im in
  Z.min s (Z.max 0 (n + 1 - ox * s))
  = if n / s =? ox then Z.min s (Z.max 0 (n - ox * s)) + 1
    else Z.min s (Z.max 0 (n - ox * s)).
Proof.
  intros Hn Hox s. pose proof scale_24 as Hs. fold s in Hs.
  assert (Hdiv : ox * s <= n < ox * s + s <-> n / s = ox).
  { split.
    - intros H. symmetry. apply (Z.div_unique n s ox (n - ox * s)); lia.
    - intros <-. pose proof (Z.mul_div_le n s). pose proof (Z.mul_succ_div_gt n s). lia. }
  destruct (Z.eqb_spec (n / s) ox); lia.
Qed.

Lemma accumulate_exact_lane (cur : list byte) (n : nat) (acc : list Z) :
  Z.of_nat n <= img_out_w im * img_scale im ->
  Z.of_nat (length acc) = 3 * img_out_w im ->
  length (accumulate_exact im (Z.of_nat n) cur acc) = length acc
  /\ forall ox c, 0 <= ox < img_out_w im -> 0 <= c < 3 ->
       acc_rd (accumulate_exact im (Z.of_nat n) cur acc) (3 * ox + c)
       = acc_rd acc (3 * ox + c)
         + row_sum im cur ox c
             (Z.min (img_scale im) (Z.max 0 (Z.of_nat n - ox * img_scale im))).
Proof.
  intros Hn Hlen. pose proof scale_24 as Hs. pose proof out_w_bound as Hw.
  induction n as [|n IH].
  - split; [reflexivity|]. intros ox c Hox Hc. change (Z.of_nat 0) with 0.
    replace (Z.min (img_scale im) (Z.max 0 (0 - ox * img_scale im))) with 0 by nia.
    change (accumulate_exact im 0 cur acc) with acc.
    change (row_sum im cur ox c 0) with 0. lia.
  - destruct (IH ltac:(lia)) as [IHlen IHlane]. clear IH.
    unfold accumulate_exact in *. rewrite seqZ_S, Z.add_0_l, fold_left_app.
    cbn [fold_left].
    set (a := fold_left (accumulate_px_exact im cur) (seqZ 0 (Z.of_nat n)) acc) in *.
    unfold accumulate_px_exact.
    destruct (source_pixel im cur (Z.of_nat n)) as [[r g] bl] eqn:Epx.
    set (oxn := Z.of_nat n / img_scale im).
    assert (Hoxn : 0 <= oxn < img_out_w im).
    { unfold oxn. split; [apply Z.div_pos; lia|].
      apply Z.div_lt_upper_bound; lia. }
    split; [rewrite !length_insert; exact IHlen|].
    intros ox c Hox Hc.
    replace (Z.of_nat (S n) - ox * img_scale im)
      with (Z.of_nat n + 1 - ox * img_scale im) by lia.
    rewrite (clamp_step (Z.of_nat n) ox) by lia. fold oxn.
    destruct (Z.eqb_spec oxn ox) as [Heq|Hne].
    + assert (Hblk : ox * img_scale im <= Z.of_nat n < ox * img_scale im + img_scale im).
      { rewrite <- Heq. unfold oxn.
        pose proof (Z.mul_div_le (Z.of_nat n) (img_scale im)).
        pose proof (Z.mul_succ_div_gt (Z.of_nat n) (img_scale im)). lia. }
      rewrite Heq. clear Heq Hoxn. clearbody oxn.
      set (m := Z.min (img_scale im) (Z.max 0 (Z.of_nat n - ox * img_scale im))).
      assert (Hm : m = Z.of_nat n - ox * img_scale im) by (unfold m; lia).
      replace (m + 1) with (Z.of_nat (S (Z.to_nat m))) by lia.
      rewrite row_sum_S, Z2Nat.id by lia.
      replace (ox * img_scale im + m) with (Z.of_nat n) by lia.
      rewrite Epx. pose proof (IHlane ox c Hox Hc) as IHl. fold m in IHl.
      rewrite Z.add_assoc, <- IHl.
      assert (c = 0 \/ c = 1 \/ c = 2) as [-> | [-> | ->]] by lia; simpl chan.
      * rewrite !acc_rd_insert_ne by lia.
        replace (3 * ox + 0) with (ox * 3 + 0) by lia.
        rewrite acc_rd_insert_eq by lia. reflexivity.
      * rewrite acc_rd_insert_ne by lia.
        replace (3 * ox + 1) with (ox * 3 + 1) by lia.
        rewrite acc_rd_insert_eq by (rewrite length_insert; lia).
        rewrite acc_rd_insert_ne by lia. reflexivity.
      * replace (3 * ox + 2) with (ox * 3 + 2) by lia.
        rewrite acc_rd_insert_eq by (rewrite !length_insert; lia).
        rewrite !acc_rd_insert_ne by lia. reflexivity.
    + rewrite !acc_rd_insert_ne by lia. apply IHlane; assumption.
Qed.

Lemma accumulate_px_no_wrap (cur : list byte) (a : list Z) (x : Z) :
  0 <= x < img_out_w im * img_scale im ->
  Z.of_nat (length a) = 3 * img_out_w im ->
  (forall c, 0 <= c < 3 ->
     0 <= acc_rd a (3 * (x / img_scale im) + c) <= 65535 - 255) ->
  accumulate_px im cur a x = accumulate_px_exact im cur a x.
Proof.
  intros Hx Hlen Hb. pose proof scale_24 as Hs. pose proof out_w_bound as Hw.
  unfold accumulate_px, accumulate_px_exact, source_pixel.
  destruct (get_pixel cur x (img_ctype im) (img_bpc im) (img_pal im)) as [[r g] bl].
  set (ox := x / img_scale im) in *.
  assert (Hox : 0 <= ox < img_out_w im).
  { unfold ox. split; [apply Z.div_pos; lia | apply Z.div_lt_upper_bound; lia]. }
  pose proof (bv_range r). pose proof (bv_range g). pose proof (bv_range bl).
  pose proof (Hb 0 ltac:(lia)) as Hl0. pose proof (Hb 1 ltac:(lia)) as Hl1.
  pose proof (Hb 2 ltac:(lia)) as Hl2.
  replace (3 * ox + 0) with (ox * 3 + 0) in Hl0 by lia.
  replace (3 * ox + 1) with (ox * 3 + 1) in Hl1 by lia.
  replace (3 * ox + 2) with (ox * 3 + 2) in Hl2 by lia.
  rewrite !u32_small by lia. unfold acc_add.
  rewrite (u16_small (acc_rd a (ox * 3 + 0) + bv r)) by lia.
  rewrite (acc_rd_insert_ne a (ox * 3 + 0) (ox * 3 + 1)) by lia.
  rewrite (u16_small (acc_rd a (ox * 3 + 1) + bv g)) by lia.
  rewrite !(acc_rd_insert_ne _ _ (ox * 3 + 2)) by lia.
  rewrite (u16_small (acc_rd a (ox * 3 + 2) + bv bl)) by lia.
  rewrite ?(acc_rd_insert_ne _ _ (ox * 3 + 1)) by lia.
  reflexivity.
Qed.

(** The wrap of the [uint16_t] lanes never comes into play: when every
    lane starts at no more than [B] and [B + 255 * scale] fits 16 bits,
    the loop computes the exact sums. *)
Lemma accumulate_no_wrap (cur : list byte) (B : Z) (n : nat) (acc : list Z) :
  Z.of_nat n <= img_out_w im * img_scale im ->
  Z.of_nat (length acc) = 3 * img_out_w im ->
  (forall ox c, 0 <= ox < img_out_w im -> 0 <= c < 3 ->
     0 <= acc_rd acc (3 * ox + c) <= B) ->
  B + 255 * img_scale im <= 65535 ->
  accumulate im (Z.of_nat n) cur acc = accumulate_exact im (Z.of_nat n) cur acc.
Proof.
  intros Hn Hlen Hb HB. pose proof scale_24 as Hs. pose proof out_w_bound as Hw.
  induction n as [|n IH]; [reflexivity|].
  unfold accumulate, accumulate_exact in *.
  rewrite !seqZ_S, Z.add_0_l, !fold_left_app. cbn [fold_left].
  rewrite IH by lia. clear IH.
  destruct (accumulate_exact_lane cur n acc ltac:(lia) Hlen) as [Hl Hlane].
  unfold accumulate_exact in Hl, Hlane.
  apply accumulate_px_no_wrap; [lia | lia |].
  intros c Hc.
  assert (Hox : 0 <= Z.of_nat n / img_scale im < img_out_w im).
  { split; [apply Z.div_pos; lia | apply Z.div_lt_upper_bound; lia]. }
  rewrite (Hlane _ c Hox Hc).
  pose proof (Hb _ c Hox Hc).
  pose proof (Z.mul_div_le (Z.of_nat n) (img_scale im)).
  pose proof (Z.mul_succ_div_gt (Z.of_nat n) (img_scale im)).
  set (m := Z.min (img_scale im)
              (Z.max 0 (Z.of_nat n - Z.of_nat n / img_scale im * img_scale im))).
  assert (Hm : 0 <= m <= img_scale im - 1) by (unfold m; lia).
  pose proof (row_sum_range cur (Z.of_nat n / img_scale im) c (Z.to_nat m)) as Hr.
  rewrite Z2Nat.id in Hr by lia. lia.
Qed.

(** Every lane stays within [B + 255 * scale] all along the loop. *)
Lemma accumulate_bound (cur : list byte) (B : Z) (n : nat) (acc : list Z) :
  Z.of_nat n <= img_out_w im * img_scale im ->
  Z.of_nat (length acc) = 3 * img_out_w im ->
  (forall ox c, 0 <= ox < img_out_w im -> 0 <= c < 3 ->
     0 <= acc_rd acc (3 * ox + c) <= B) ->
  B + 255 * img_scale im <= 65535 ->
  forall ox c, 0 <= ox < img_out_w im -> 0 <= c < 3 ->
    0 <= acc_rd (accumulate im (Z.of_nat n) cur acc) (3 * ox + c)
      <= B + 255 * img_scale im.
Proof.
  intros Hn Hlen Hb HB ox c Hox Hc. pose proof scale_24 as Hs.
  rewrite (accumulate_no_wrap cur B) by assumption.
  destruct (accumulate_exact_lane cur n acc Hn Hlen) as [_ Hlane].
  rewrite (Hlane ox c Hox Hc). pose proof (Hb ox c Hox Hc).
  set (m := Z.min (img_scale im) (Z.max 0 (Z.of_nat n - ox * img_scale im))).
  assert (Hm : 0 <= m <= img_scale im) by (unfold m; lia).
  pose proof (row_sum_range cur ox c (Z.to_nat m)) as Hr.
  rewrite Z2Nat.id in Hr by lia. nia.
Qed.
End Accumulate.

(** ** Scanline by scanline *)

Section RowsDone.
Variable im : image.
Hypothesis Him : image_ok im.

Lemma block_sum_snoc (blk : list (list byte)) (cur : list byte) (ox c : Z) :
  block_sum im (blk ++ [cur]) ox c
  = block_sum im blk ox c + row_sum im cur ox c (img_scale im).
Proof. unfold block_sum. rewrite map_app, zsum_app. cbn [map zsum foldr]. lia. Qed.

Lemma block_sum_range (blk : list (list byte)) (ox c : Z) :
  0 <= block_sum im blk ox c <= 255 * img_scale im * Z.of_nat (length blk).
Proof.
  assert (Hs : 0 <= img_scale im) by (destruct Him; lia).
  induction blk as [|cur blk IH]; [unfold block_sum; simpl; lia|].
  unfold block_sum in *. cbn [map zsum foldr length].
  pose proof (row_sum_range im cur ox c (Z.to_nat (img_scale im))) as Hr.
  rewrite Z2Nat.id in Hr by lia. unfold zsum in IH. lia.
Qed.

(** Appending a scanline completes a block, or not. *)
Lemma expected_calls_snoc (done : list (list byte)) (cur : list byte) :
  let s := img_scale im in
  let len := Z.of_nat (length done) in
  expected_calls im (done ++ [cur])
  = if len mod s =? s - 1
    then expected_calls im done
         ++ [{| cb_y := len / s; cb_w := img_out_w im;
                cb_row := map (block_pixel im (drop (Z.to_nat (len / s * s)) done ++ [cur]))
                              (seqZ 0 (img_out_w im)) |}]
    else expected_calls im done.
Proof.
  intros s len.
  assert (Hs : s = 1 \/ s = 2 \/ s = 4) by (destruct Him; assumption).
  assert (Hlen : 0 <= len) by (unfold len; lia).
  pose proof (Z.div_mod len s ltac:(lia)) as Hdm.
  pose proof (Z.mod_pos_bound len s ltac:(lia)) as Hmod.
  assert (Hq : 0 <= len / s) by (apply Z.div_pos; lia).
  assert (Hblocks : forall q, q <= len / s ->
            map (fun oy => {| cb_y := oy; cb_w := img_out_w im;
                              cb_row := map (block_pixel im (block_rows im (done ++ [cur]) oy))
                                            (seqZ 0 (img_out_w im)) |}) (seqZ 0 q)
            = map (fun oy => {| cb_y := oy; cb_w := img_out_w im;
                                cb_row := map (block_pixel im (block_rows im done oy))
                                              (seqZ 0 (img_out_w im)) |}) (seqZ 0 q)).
  { intros q Hqle. apply map_ext_in. intros oy Hoy.
    apply list_elem_of_In, elem_of_seqZ in Hoy.
    f_equal. f_equal. unfold block_rows. fold s.
    assert (oy * s + s <= len) by nia.
    rewrite drop_app_le by lia.
    rewrite take_app_le; [reflexivity|]. rewrite length_drop. lia. }
  unfold expected_calls. fold s. rewrite length_app. cbn [length].
  replace (Z.of_nat (length done + 1)) with (len + 1) by (unfold len; lia).
  destruct (Z.eqb_spec (len mod s) (s - 1)) as [Hfull|Hpart].
  - assert (Hq1 : (len + 1) / s = len / s + 1).
    { symmetry. apply (Z.div_unique (len + 1) s (len / s + 1) 0); lia. }
    rewrite Hq1. replace (len / s + 1) with (Z.of_nat (S (Z.to_nat (len / s)))) by lia.
    rewrite seqZ_S, map_app, Z.add_0_l, !Z2Nat.id by lia.
    rewrite Hblocks by lia. fold len. f_equal. cbn [map]. f_equal. f_equal. f_equal.
    unfold block_rows. fold s.
    rewrite drop_app_le by lia.
    f_equal. apply take_ge. rewrite length_app, length_drop. cbn [length]. lia.
  - assert (Hq1 : (len + 1) / s = len / s).
    { symmetry. apply (Z.div_unique (len + 1) s (len / s) (len mod s + 1)); lia. }
    rewrite Hq1. fold len. apply Hblocks. lia.
Qed.

Lemma direct_row_block (cur : list byte) :
  img_scale im = 1 ->
  direct_row im cur = map (block_pixel im [cur]) (seqZ 0 (img_out_w im)).
Proof.
  intros H1. destruct Him as [? ? ? ? ? ? Hw ?]. rewrite Hw, H1, Z.div_1_r.
  unfold direct_row. apply map_ext. intros x.
  unfold block_pixel, block_sum, row_sum, source_pixel. rewrite H1.
  cbn [seqZ map zsum foldr]. change (seqZ 0 1) with [0]. cbn [map foldr].
  rewrite !Z.add_0_r, !Z.mul_1_r, !Z.div_1_r.
  destruct (get_pixel cur x (img_ctype im) (img_bpc im) (img_pal im)) as [[r g] bl].
  change (chan 0 (r, g, bl)) with (bv r). change (chan 1 (r, g, bl)) with (bv g).
  change (chan 2 (r, g, bl)) with (bv bl).
  unfold zsum. cbn [foldr]. rewrite !Z.add_0_r. reflexivity.
Qed.

Lemma acc_rd_replicate (n : nat) (j : Z) : acc_rd (replicate n 0) j = 0.
Proof.
  unfold acc_rd. destruct (replicate n 0 !! Z.to_nat j) as [v|] eqn:E; [|reflexivity].
  apply lookup_replicate in E. simpl. lia.
Qed.

(** The accumulator after a whole scanline, when the lanes hold the
    sums of the block in progress. *)
Lemma accumulate_row (part : list (list byte)) (cur : list byte) (acc : list Z) :
  1 < img_scale im ->
  Z.of_nat (length part) <= img_scale im - 1 ->
  Z.of_nat (length acc) = 3 * img_out_w im ->
  (forall ox c, 0 <= ox < img_out_w im -> 0 <= c < 3 ->
     acc_rd acc (3 * ox + c) = block_sum im part ox c) ->
  let acc1 := accumulate im (Z.min (u32 (img_out_w im * img_scale im)) (img_w im))
                cur acc in
  Z.of_nat (length acc1) = 3 * img_out_w im
  /\ forall ox c, 0 <= ox < img_out_w im -> 0 <= c < 3 ->
       acc_rd acc1 (3 * ox + c) = block_sum im (part ++ [cur]) ox c.
Proof.
  intros Hdown Hpart Hlen Hacc acc1.
  pose proof (scale_24 im Him Hdown) as Hs.
  pose proof (out_w_bound im Him Hdown) as Hw.
  assert (Hn : Z.min (u32 (img_out_w im * img_scale im)) (img_w im)
               = Z.of_nat (Z.to_nat (img_out_w im * img_scale im))).
  { rewrite u32_small by lia. lia. }
  unfold acc1. rewrite Hn.
  assert (Hb : forall ox c, 0 <= ox < img_out_w im -> 0 <= c < 3 ->
                 0 <= acc_rd acc (3 * ox + c) <= 255 * img_scale im * (img_scale im - 1)).
  { intros ox c Hox Hc. rewrite (Hacc ox c Hox Hc).
    pose proof (block_sum_range part ox c). nia. }
  rewrite (accumulate_no_wrap im Him Hdown cur (255 * img_scale im * (img_scale im - 1))
             (Z.to_nat (img_out_w im * img_scale im)) acc ltac:(lia) Hlen Hb ltac:(nia)).
  destruct (accumulate_exact_lane im Him Hdown cur (Z.to_nat (img_out_w im * img_scale im))
              acc ltac:(lia) Hlen) as [Hl Hlane].
  split; [rewrite Hl; exact Hlen|].
  intros ox c Hox Hc. rewrite (Hlane ox c Hox Hc), (Hacc ox c Hox Hc), block_sum_snoc.
  f_equal. f_equal. nia.
Qed.

Lemma average_row_block (blk : list (list byte)) (acc1 : list Z) :
  1 < img_scale im ->
  Z.of_nat (length blk) <= img_scale im ->
  (forall ox c, 0 <= ox < img_out_w im -> 0 <= c < 3 ->
     acc_rd acc1 (3 * ox + c) = block_sum im blk ox c) ->
  average_row im acc1 = map (block_pixel im blk) (seqZ 0 (img_out_w im)).
Proof.
  intros Hdown Hblk Hacc.
  pose proof (scale_24 im Him Hdown) as Hs.
  pose proof (out_w_bound im Him Hdown) as Hw.
  unfold average_row. apply map_ext_in. intros ox Hox.
  apply list_elem_of_In, elem_of_seqZ in Hox.
  unfold block_pixel.
  assert (Hlane : forall c, 0 <= c < 3 ->
            bv (to_u8 (Z.quot (acc_rd acc1 (u32 (ox * 3 + c)))
                              (img_scale im * img_scale im)))
            = block_sum im blk ox c / (img_scale im * img_scale im)).
  { intros c Hc. rewrite u32_small by lia.
    replace (ox * 3 + c) with (3 * ox + c) by lia.
    rewrite (Hacc ox c ltac:(lia) Hc).
    pose proof (block_sum_range blk ox c) as Hr.
    rewrite Z.quot_div_nonneg by nia.
    rewrite bv_to_u8. apply Z.mod_small.
    split; [apply Z.div_pos; nia|].
    apply Z.div_lt_upper_bound; nia. }
  rewrite (Hlane 0), (Hlane 1), (Hlane 2) by lia. reflexivity.
Qed.

(** One more scanline: the invariant [rows_done] moves on. *)
Lemma emit_scanline_done (done : list (list byte)) (s : decoder) (cur : list byte) :
  rows_done im done s -> row s < img_h im ->
  rows_done im (done ++ [cur]) (emit_scanline im s cur).
Proof.
  intros [Hrow Hcalls Hout Hlen Hacc] Hr.
  set (len := Z.of_nat (length done)) in *.
  set (sc := img_scale im) in *.
  assert (Hsc : sc = 1 \/ sc = 2 \/ sc = 4) by (destruct Him; assumption).
  assert (Hh : 0 < img_h im < 2147483648) by (destruct Him; assumption).
  assert (Hlen0 : 0 <= len) by (unfold len; lia).
  pose proof (Z.div_mod len sc ltac:(lia)) as Hdm.
  pose proof (Z.mod_pos_bound len sc ltac:(lia)) as Hmod.
  assert (Hq : 0 <= len / sc) by (apply Z.div_pos; lia).
  assert (Hlen1 : Z.of_nat (length (done ++ [cur])) = len + 1)
    by (rewrite length_app; cbn [length]; unfold len; lia).
  pose proof (expected_calls_snoc done cur) as Hsnoc. cbv zeta in Hsnoc.
  fold sc len in Hsnoc.
  unfold emit_scanline. fold sc.
  destruct (Z.eqb_spec sc 1) as [H1|H1].
  - (* full resolution *)
    rewrite H1, Z.mod_1_r in Hsnoc. change (0 =? 1 - 1) with true in Hsnoc.
    rewrite Z.div_1_r, Z.mul_1_r in Hsnoc.
    unfold len in Hsnoc at 2. rewrite Nat2Z.id, drop_all in Hsnoc.
    constructor; cbn [row calls out_row acc]; fold sc; try (intros; lia).
    + rewrite to_int_small by lia. lia.
    + rewrite Hsnoc, Hcalls. f_equal. f_equal. f_equal.
      * exact Hrow.
      * destruct Him as [? ? ? ? ? ? Hw ?]. fold sc in Hw.
        rewrite Hw, H1, Z.div_1_r. apply to_int_small. nia.
      * apply direct_row_block. exact H1.
  - (* downscaling *)
    assert (Hdown : 1 < img_scale im) by (fold sc; lia).
    pose proof (out_w_bound im Him Hdown) as Hw.
    assert (Hpart : Z.of_nat (length (drop (Z.to_nat (len / sc * sc)) done)) = len mod sc).
    { rewrite length_drop. unfold len in *. lia. }
    destruct (accumulate_row (drop (Z.to_nat (len / sc * sc)) done) cur (acc s)
                Hdown ltac:(fold sc; lia) (Hlen Hdown) (Hacc Hdown)) as [Hl1 Hacc1].
    set (acc1 := accumulate im (Z.min (u32 (img_out_w im * img_scale im)) (img_w im))
                   cur (acc s)) in *.
    fold sc in acc1. fold acc1.
    rewrite Z.rem_mod_nonneg by lia. rewrite Hrow.
    destruct (Z.eqb_spec (len mod sc) (sc - 1)) as [Hfull|Hnot].
    + assert (Hq1 : (len + 1) / sc = len / sc + 1).
      { symmetry. apply (Z.div_unique (len + 1) sc (len / sc + 1) 0); lia. }
      constructor; cbn [row calls out_row acc]; fold sc; rewrite ?Hlen1, ?Hq1.
      * rewrite to_int_small by lia. lia.
      * rewrite Hsnoc, Hcalls. f_equal. f_equal. f_equal.
        -- apply Hout. exact Hdown.
        -- apply to_int_small. lia.
        -- apply average_row_block; [exact Hdown | | exact Hacc1].
           rewrite length_app. cbn [length]. fold sc. lia.
      * intros _. rewrite (Hout Hdown). apply to_int_small. nia.
      * intros _. rewrite length_replicate, u32_small by lia. lia.
      * intros _ ox c Hox Hc. rewrite acc_rd_replicate.
        rewrite drop_ge; [reflexivity|]. rewrite length_app. cbn [length].
        unfold len in *. nia.
    + assert (Hq1 : (len + 1) / sc = len / sc).
      { symmetry. apply (Z.div_unique (len + 1) sc (len / sc) (len mod sc + 1)); lia. }
      constructor; cbn [row calls out_row acc]; fold sc; rewrite ?Hlen1, ?Hq1.
      * rewrite to_int_small by lia. lia.
      * rewrite Hsnoc. exact Hcalls.
      * exact Hout.
      * intros _. exact Hl1.
      * intros _ ox c Hox Hc. rewrite (Hacc1 ox c Hox Hc).
        rewrite drop_app_le by (unfold len in *; lia). reflexivity.
Qed.

Lemma scanline_complete_done (done : list (list byte)) (s : decoder) (cur0 : list byte) :
  rows_done im done s -> row s < img_h im ->
  rows_done im
    (done ++ [unfilter (filter s) (img_bpp im) (img_stride im) cur0 (prev s)])
    (scanline_complete im s cur0).
Proof. intros Hd Hr. apply emit_scanline_done; assumption. Qed.

Lemma rows_done_init : rows_done im [] (decoder_init im).
Proof.
  assert (Hsc : img_scale im = 1 \/ img_scale im = 2 \/ img_scale im = 4)
    by (destruct Him; assumption).
  constructor; cbn [row calls out_row acc decoder_init length].
  - reflexivity.
  - unfold expected_calls. cbn [length]. rewrite Z.div_0_l by lia. reflexivity.
  - intros _. rewrite Z.div_0_l by lia. reflexivity.
  - intros Hdown. pose proof (out_w_bound im Him Hdown).
    destruct (Z.ltb_spec 1 (img_scale im)); [|lia].
    rewrite length_replicate, u32_small by lia. lia.
  - intros Hdown ox c Hox Hc.
    destruct (Z.ltb_spec 1 (img_scale im)); [|lia].
    rewrite acc_rd_replicate. rewrite drop_nil. reflexivity.
Qed.
End RowsDone.

(** ** Whole scanlines *)

Section WholeRows.
Variable im : image.
Hypothesis Him : image_ok im.

Lemma prev_emit_scanline (s : decoder) (c : list byte) :
  prev (emit_scanline im s c) = c.
Proof. unfold emit_scanline. repeat case_if; reflexivity. Qed.

Lemma sl_pos_emit_scanline (s : decoder) (c : list byte) :
  sl_pos (emit_scanline im s c) = 0.
Proof. unfold emit_scanline. repeat case_if; reflexivity. Qed.

Lemma row_emit_scanline (s : decoder) (c : list byte) :
  0 <= row s < img_h im -> row (emit_scanline im s c) = row s + 1.
Proof.
  intros Hr. destruct Him. unfold emit_scanline.
  repeat case_if; cbn [row]; apply to_int_small; lia.
Qed.

Lemma rows_done_with_filter (done : list (list byte)) (s : decoder) (f : byte) :
  rows_done im done s -> rows_done im done (with_filter s f).
Proof. intros [? ? ? ? ?]. constructor; assumption. Qed.

Lemma decode_rows_done (n : nat) :
  forall (s : decoder) (raw : list byte) (done : list (list byte)),
    rows_done im done s -> row s + Z.of_nat n <= img_h im ->
    rows_done im (done ++ scanlines im n (prev s) raw) (decode_rows im n s raw)
    /\ row (decode_rows im n s raw) = row s + Z.of_nat n.
Proof.
  induction n as [|n IH]; intros s raw done Hd Hr.
  - cbn [scanlines decode_rows]. rewrite app_nil_r. split; [exact Hd | lia].
  - cbn [scanlines decode_rows].
    set (f := rd raw 0).
    set (line := take (Z.to_nat (img_stride im)) (drop 1 raw)).
    set (c := unfilter f (img_bpp im) (img_stride im) line (prev s)).
    pose proof (rd_row _ _ _ Hd) as Hrow.
    assert (Hstep : rows_done im (done ++ [c]) (scanline_complete im (with_filter s f) line)).
    { apply (scanline_complete_done im Him done (with_filter s f) line).
      - apply rows_done_with_filter, Hd.
      - cbn [row with_filter]. lia. }
    assert (Hrow' : row (scanline_complete im (with_filter s f) line) = row s + 1).
    { unfold scanline_complete. rewrite row_emit_scanline; cbn [row with_filter]; lia. }
    destruct (IH (scanline_complete im (with_filter s f) line)
                (drop (S (Z.to_nat (img_stride im))) raw) (done ++ [c]) Hstep
                ltac:(lia)) as [IH1 IH2].
    unfold scanline_complete in IH1 at 1. rewrite prev_emit_scanline in IH1.
    cbn [filter prev with_filter] in IH1. fold c in IH1.
    rewrite <- app_assoc in IH1. split; [exact IH1 | lia].
Qed.

(** Feeding [n] whole scanlines byte by byte. *)
Lemma fold_push_rows (n : nat) :
  forall (s : decoder) (raw : list byte),
    decoder_ok im s -> sl_pos s = 0 -> row s + Z.of_nat n <= img_h im ->
    (n * S (Z.to_nat (img_stride im)) <= length raw)%nat ->
    fold_left (push im) (take (n * S (Z.to_nat (img_stride im))) raw) s
    = decode_rows im n s raw.
Proof.
  pose proof (stride_pos im Him) as Hs. pose proof (h_int im Him) as Hh.
  set (st := Z.to_nat (img_stride im)) in *.
  induction n as [|n IH]; intros s raw Hok Hp Hr Hlen; [reflexivity|].
  cbn [decode_rows]. fold st.
  replace (S n * S st)%nat with (S st + n * S st)%nat by lia.
  rewrite <- take_take_drop, fold_left_app.
  destruct raw as [|f raw]; [simpl in Hlen; lia|].
  change (take (S st) (f :: raw)) with (f :: take st raw).
  change (rd (f :: raw) 0) with f. change (drop 1 (f :: raw)) with raw.
  change (drop (S st) (f :: raw)) with (drop st raw).
  cbn [fold_left]. unfold push at 3. rewrite Hh.
  destruct (Z.ltb_spec (row s) (img_h im)); [|lia].
  rewrite Hp. change (0 =? 0) with true. cbv iota.
  assert (Hok1 : decoder_ok im {| sl_pos := 1; filter := f; row := row s;
                    out_row := out_row s; cur := cur s; prev := prev s;
                    acc := acc s; calls := calls s |}).
  { destruct Hok. constructor; cbn; lia. }
  assert (Hline : length (take st raw) = st).
  { rewrite length_take. simpl in Hlen. lia. }
  rewrite (fold_push_fill im Him (take st raw)); cbn [sl_pos row cur];
    [|exact Hok1 | lia | lia | lia].
  cbv zeta. cbn [sl_pos cur]. rewrite Hline.
  destruct (Z.ltb_spec (img_stride im) (1 + Z.of_nat st)); [|lia].
  assert (Hcpy : memcpy_at (cur s) (1 - 1) (take st raw) = take st raw).
  { unfold memcpy_at. change (Z.to_nat (1 - 1)) with 0%nat.
    rewrite <- (app_nil_r (take st raw)) at 1.
    apply list_inserts_0_l. rewrite Hline. symmetry. apply Hok. }
  rewrite Hcpy.
  change (scanline_complete im {| sl_pos := 1; filter := f; row := row s;
            out_row := out_row s; cur := cur s; prev := prev s; acc := acc s;
            calls := calls s |} (take st raw))
    with (scanline_complete im (with_filter s f) (take st raw)).
  apply IH.
  - apply (scanline_complete_ok im Him); [|cbn; lia | exact Hline].
    destruct Hok. constructor; cbn; lia.
  - apply sl_pos_emit_scanline.
  - unfold scanline_complete. rewrite row_emit_scanline; cbn [row with_filter].
    + lia.
    + pose proof (ok_row _ _ Hok). lia.
  - rewrite length_drop. simpl in Hlen. lia.
Qed.

(** A file with all its scanlines: the decoder ends at row [h] with the
    expected calls. *)
Lemma feed_all_rows (raw : list byte) :
  img_h im * (img_stride im + 1) <= Z.of_nat (length raw) ->
  calls (feed im (decoder_init im) raw)
  = expected_calls im
      (scanlines im (Z.to_nat (img_h im))
         (replicate (Z.to_nat (img_stride im)) x00) raw)
  /\ length (scanlines im (Z.to_nat (img_h im))
               (replicate (Z.to_nat (img_stride im)) x00) raw)
     = Z.to_nat (img_h im).
Proof.
  intros Hraw. pose proof (stride_pos im Him) as Hs.
  assert (Hh : 0 < img_h im < 2147483648) by (destruct Him; assumption).
  pose proof (decoder_init_ok im Him) as Hok0.
  set (n := Z.to_nat (img_h im)). set (st := Z.to_nat (img_stride im)).
  assert (Hn : (n * S st <= length raw)%nat) by (unfold n, st; nia).
  rewrite <- (take_drop (n * S st) raw) at 1.
  rewrite (feed_app im Him) by exact Hok0.
  rewrite (feed_push im Him _ (take _ _)) by exact Hok0.
  unfold st at 1. rewrite (fold_push_rows n) by (try assumption; cbn; lia). 
  destruct (decode_rows_done n (decoder_init im) raw [] (rows_done_init im Him)
              ltac:(cbn; lia)) as [Hd Hrow].
  cbn [prev decoder_init app] in Hd. fold st in Hd.
  assert (Hok' : decoder_ok im (decode_rows im n (decoder_init im) raw)).
  { rewrite <- (fold_push_rows n) by (try assumption; cbn; lia).
    apply fold_push_ok; assumption. }
  rewrite (feed_done im Him _ _ Hok') by (rewrite Hrow; cbn [row decoder_init]; lia).
  rewrite (rd_calls _ _ _ Hd). split; [reflexivity|].
  pose proof (rd_row _ _ _ Hd) as Hr. rewrite Hrow in Hr.
  cbn [row decoder_init] in Hr. lia.
Qed.
End WholeRows.

(** ** Well-formed files *)

Lemma sped_decode_well_formed (tinfl : inflater) (alloc : Z -> bool)
    (stack_pal : Z -> rgb) (png : list byte) (scale : Z) (raw : list byte)
    (fuel : nat) :
  well_formed tinfl alloc stack_pal png scale raw ->
  (decode_fuel stack_pal png raw <= fuel)%nat ->
  sped_decode tinfl alloc stack_pal fuel png scale
  = Some (0, expected_calls (image_of stack_pal png scale)
               (image_rows stack_pal png scale raw))
  /\ Z.of_nat (length (image_rows stack_pal png scale raw)) = ihdr_h png.
Proof.
  intros [Hdec Hrows] Hfuel.
  pose proof (decodable_image_ok _ _ _ _ _ _ Hdec) as Him.
  rewrite (sped_decode_streams _ _ _ _ _ _ Hdec fuel Hfuel).
  destruct (feed_all_rows _ Him raw Hrows) as [Hc Hl].
  unfold image_rows. cbv zeta. rewrite Hc, Hl. split; [reflexivity|].
  destruct Him. cbn [img_h image_of] in *. lia.
Qed.

Lemma png_2x2_decodable (scale : Z) :
  scale = 1 \/ scale = 2 ->
  decodable Stored.stored alloc_any no_stack png_2x2 scale raw_2x2.
Proof.
  intros Hs. constructor.
  - vm_compute. discriminate.
  - unfold unsupported.
    change (ihdr_compression png_2x2) with 0. change (ihdr_filter png_2x2) with 0.
    change (ihdr_interlace png_2x2) with 0. change (ihdr_depth png_2x2) with 8.
    change (ihdr_ctype png_2x2) with 2. change (ihdr_w png_2x2) with 2.
    change (ihdr_h png_2x2) with 2.
    destruct Hs as [-> | ->]; vm_compute; intuition discriminate.
  - vm_compute. reflexivity.
  - destruct Hs as [-> | ->]; vm_compute; reflexivity.
  - repeat split; reflexivity.
  - vm_compute. discriminate.
  - exists Stored.delivers. split; [apply stored_streams|].
    vm_compute. reflexivity.
Qed.

Lemma png_2x2_well_formed (scale : Z) :
  scale = 1 \/ scale = 2 ->
  well_formed Stored.stored alloc_any no_stack png_2x2 scale raw_2x2.
Proof.
  intros Hs. split; [apply png_2x2_decodable, Hs|].
  destruct Hs as [-> | ->]; vm_compute; discriminate.
Qed.

(** ** Number, order and width of the callbacks *)



(** ** Downscaled pixels *)

Section Blocks.
Variable im : image.
Hypothesis Him : image_ok im.

Lemma block_rows_lookup (rows : list (list byte)) (oy : Z) (dy : nat) :
  0 <= oy -> (Z.of_nat dy < img_scale im) ->
  block_rows im rows oy !! dy = rows !! (Z.to_nat (oy * img_scale im + Z.of_nat dy)).
Proof.
  intros Hoy Hdy. unfold block_rows.
  rewrite lookup_take_lt by lia. rewrite lookup_drop. f_equal.
  assert (0 <= img_scale im) by (destruct Him; lia). nia.
Qed.

Lemma block_rows_length (rows : list (list byte)) (oy : Z) :
  0 <= oy < Z.of_nat (length rows) / img_scale im ->
  Z.of_nat (length (block_rows im rows oy)) = img_scale im.
Proof.
  intros Hoy. assert (Hs : 0 < img_scale im) by (destruct Him; lia).
  pose proof (Z.mul_div_le (Z.of_nat (length rows)) (img_scale im) Hs).
  unfold block_rows. rewrite length_take, length_drop. nia.
Qed.

Lemma row_sum_ext (cur1 cur2 : list byte) (ox c : Z) :
  (forall dx, 0 <= dx < img_scale im ->
     source_pixel im cur1 (ox * img_scale im + dx)
     = source_pixel im cur2 (ox * img_scale im + dx)) ->
  row_sum im cur1 ox c (img_scale im) = row_sum im cur2 ox c (img_scale im).
Proof.
  intros H. unfold row_sum. f_equal. apply map_ext_in. intros dx Hdx.
  apply list_elem_of_In, elem_of_seqZ in Hdx. rewrite H by lia. reflexivity.
Qed.

Lemma block_sum_ext (blk1 blk2 : list (list byte)) (ox c : Z) :
  Forall2 (fun cur1 cur2 =>
             forall dx, 0 <= dx < img_scale im ->
               source_pixel im cur1 (ox * img_scale im + dx)
               = source_pixel im cur2 (ox * img_scale im + dx)) blk1 blk2 ->
  block_sum im blk1 ox c = block_sum im blk2 ox c.
Proof.
  intros H. unfold block_sum. induction H as [|c1 c2 b1 b2 Hc _ IH]; [reflexivity|].
  cbn [map zsum foldr]. unfold zsum in IH. rewrite IH, (row_sum_ext c1 c2 ox c Hc).
  reflexivity.
Qed.

(** Only the source pixels of complete blocks matter. *)
Lemma expected_calls_ext (rows1 rows2 : list (list byte)) :
  length rows1 = length rows2 ->
  (forall y x cur1 cur2,
      0 <= y < Z.of_nat (length rows1) / img_scale im * img_scale im ->
      0 <= x < img_out_w im * img_scale im ->
      rows1 !! Z.to_nat y = Some cur1 -> rows2 !! Z.to_nat y = Some cur2 ->
      source_pixel im cur1 x = source_pixel im cur2 x) ->
  expected_calls im rows1 = expected_calls im rows2.
Proof.
  intros Hlen Hpix. assert (Hs : 0 < img_scale im) by (destruct Him; lia).
  unfold expected_calls. rewrite <- Hlen.
  apply map_ext_in. intros oy Hoy. apply list_elem_of_In, elem_of_seqZ in Hoy.
  f_equal. apply map_ext_in. intros ox Hox. apply list_elem_of_In, elem_of_seqZ in Hox.
  assert (Hblk : forall c, block_sum im (block_rows im rows1 oy) ox c
                           = block_sum im (block_rows im rows2 oy) ox c).
  { intros c. apply block_sum_ext. apply Forall2_same_length_lookup. split.
    - apply Nat2Z.inj. rewrite !block_rows_length by (rewrite <- ?Hlen; lia).
      reflexivity.
    - intros i cur1 cur2 H1 H2 dx Hdx.
      assert (Hi : Z.of_nat i < img_scale im).
      { apply lookup_lt_Some in H1.
        pose proof (block_rows_length rows1 oy ltac:(lia)). lia. }
      rewrite block_rows_lookup in H1, H2 by lia.
      apply (Hpix (oy * img_scale im + Z.of_nat i) _ cur1 cur2); try assumption; nia. }
  unfold block_pixel. rewrite !Hblk. reflexivity.
Qed.

(** A callback is made exactly for the rows [r] with
    [r mod scale = scale - 1]. *)
Lemma emit_scanline_calls (s : decoder) (cur : list byte) :
  1 < img_scale im -> 0 <= row s ->
  (row s mod img_scale im = img_scale im - 1 ->
     exists c, calls (emit_scanline im s cur) = calls s ++ [c]
               /\ cb_y c = out_row s)
  /\ (row s mod img_scale im <> img_scale im - 1 ->
        calls (emit_scanline im s cur) = calls s).
Proof.
  intros Hdown Hr. unfold emit_scanline.
  destruct (Z.eqb_spec (img_scale im) 1); [lia|].
  rewrite Z.rem_mod_nonneg by lia.
  destruct (Z.eqb_spec (row s mod img_scale im) (img_scale im - 1)); cbn [calls];
    split; intros; try lia; try reflexivity.
  eexists. split; reflexivity.
Qed.

Lemma expected_calls_lookup (rows : list (list byte)) (ox oy : Z) :
  0 <= oy < Z.of_nat (length rows) / img_scale im -> 0 <= ox < img_out_w im ->
  exists c, expected_calls im rows !! Z.to_nat oy = Some c
            /\ cb_y c = oy /\ cb_w c = img_out_w im
            /\ cb_row c !! Z.to_nat ox = Some (block_pixel im (block_rows im rows oy) ox).
Proof.
  intros Hoy Hox. unfold expected_calls. eexists. split; [|split; [|split]].
  - rewrite list_lookup_fmap, lookup_seqZ_lt by lia. reflexivity.
  - cbn. lia.
  - reflexivity.
  - cbn [cb_row]. rewrite list_lookup_fmap, lookup_seqZ_lt by lia. cbn.
    rewrite !Z2Nat.id by lia. reflexivity.
Qed.
End Blocks.

(** C4. For a well-formed file and a scale [s] of 2 or 4, the pixel at
    [(ox, oy)] of the output is the RGB565 packing of the per-channel
    floor-average over the block of source pixels in rows
    [oy * s .. oy * s + s - 1] and columns [ox * s .. ox * s + s - 1]; the
    decoder makes a callback exactly when it completes a row [r] with
    [r mod s = s - 1]; and source pixels in columns from [(W / s) * s] on
    or rows from [(H / s) * s] on have no influence on the output. *)
Theorem downscaled_pixel_is_block_average (tinfl : inflater) (alloc : Z -> bool)
    (stack_pal : Z -> rgb) (png : list byte) (scale : Z) (raw : list byte)
    (fuel : nat) :
  well_formed tinfl alloc stack_pal png scale raw ->
  scale = 2 \/ scale = 4 ->
  (decode_fuel stack_pal png raw <= fuel)%nat ->
  let im := image_of stack_pal png scale in
  let rows := image_rows stack_pal png scale raw in
  (exists calls,
     sped_decode tinfl alloc stack_pal fuel png scale = Some (0, calls)
     /\ (forall ox oy,
           0 <= ox < ihdr_w png / scale -> 0 <= oy < ihdr_h png / scale ->
           exists c,
             calls !! Z.to_nat oy = Some c /\ cb_y c = oy
             /\ cb_row c !! Z.to_nat ox
                = Some (rgb565 (block_sum im (block_rows im rows oy) ox 0 / (scale * scale))
                               (block_sum im (block_rows im rows oy) ox 1 / (scale * scale))
                               (block_sum im (block_rows im rows oy) ox 2 / (scale * scale)))
             /\ forall dy : nat, Z.of_nat dy < scale ->
                  block_rows im rows oy !! dy = rows !! Z.to_nat (oy * scale + Z.of_nat dy))
     /\ (forall rows' : list (list byte),
           length rows' = length rows ->
           (forall y x cur cur',
               0 <= y < ihdr_h png / scale * scale ->
               0 <= x < ihdr_w png / scale * scale ->
               rows !! Z.to_nat y = Some cur -> rows' !! Z.to_nat y = Some cur' ->
               source_pixel im cur x = source_pixel im cur' x) ->
           expected_calls im rows' = calls))
  /\ (forall (s : decoder) (cur : list byte),
        0 <= row s ->
        (row s mod scale = scale - 1 ->
           exists c, calls (emit_scanline im s cur) = calls s ++ [c] /\ cb_y c = out_row s)
        /\ (row s mod scale <> scale - 1 -> calls (emit_scanline im s cur) = calls s)).
Proof.
  intros Hwf Hs Hfuel im rows.
  destruct (sped_decode_well_formed _ _ _ _ _ _ _ Hwf Hfuel) as [Hdec Hlen].
  pose proof (decodable_image_ok _ _ _ _ _ _ (proj1 Hwf)) as Him.
  fold im rows in Hdec, Hlen, Him.
  assert (Hsc : img_scale im = scale) by reflexivity.
  assert (Hw : img_out_w im = ihdr_w png / scale) by reflexivity.
  split.
  - eexists. split; [exact Hdec|]. split.
    + intros ox oy Hox Hoy.
      destruct (expected_calls_lookup im rows ox oy) as (c & Hc & Hy & _ & Hpx).
      { rewrite Hlen, Hsc. exact Hoy. }
      { rewrite Hw. exact Hox. }
      exists c. split; [exact Hc|]. split; [exact Hy|]. split; [exact Hpx|].
      intros dy Hdy. rewrite <- Hsc. apply (block_rows_lookup im Him); lia.
    + intros rows' Hl Hpix. apply (expected_calls_ext im Him); [exact Hl|].
      intros y x cur1 cur2 Hy Hx H1 H2. symmetry.
      apply (Hpix y x cur2 cur1); try assumption.
      rewrite Hl, Hlen, Hsc in Hy. exact Hy.
  - intros s cur Hr. apply (emit_scanline_calls im); [rewrite Hsc; lia | exact Hr].
Qed.

Lemma downscaled_pixel_is_block_average_witness :
  well_formed Stored.stored alloc_any no_stack png_2x2 2 raw_2x2
  /\ (2 = 2 \/ 2 = 4)
  /\ (decode_fuel no_stack png_2x2 raw_2x2 <= 100)%nat
  /\ exists calls,
       sped_decode Stored.stored alloc_any no_stack 100 png_2x2 2 = Some (0, calls)
       /\ exists c, calls !! 0%nat = Some c
                    /\ cb_row c !! 0%nat = Some (rgb565 (510 / 4) (510 / 4) (510 / 4)).
Proof.
  assert (Hwf : well_formed Stored.stored alloc_any no_stack png_2x2 2 raw_2x2)
    by (apply png_2x2_well_formed; right; reflexivity).
  assert (Hs : 2 = 2 \/ 2 = 4) by (left; reflexivity).
  assert (Hfuel : (decode_fuel no_stack png_2x2 raw_2x2 <= 100)%nat)
    by (vm_compute; lia).
  split; [exact Hwf|]. split; [exact Hs|]. split; [exact Hfuel|].
  destruct (downscaled_pixel_is_block_average Stored.stored alloc_any no_stack
              png_2x2 2 raw_2x2 100 Hwf Hs Hfuel) as [(calls & Hdec & Hpix & _) _].
  exists calls. split; [exact Hdec|].
  destruct (Hpix 0 0) as (c & Hc & _ & Hrow & _).
  - vm_compute. split; [discriminate | reflexivity].
  - vm_compute. split; [discriminate | reflexivity].
  - exists c. split; [exact Hc | exact Hrow].
Defined.

(** ** The 2x2 example *)

(** C3, as the spec has it, fails: decoding the 2x2 RGB file at scale 2
    does not emit the pixel 0x8410.  The channel sums are 510 each and
    510 / 4 is 127, not 128. *)
Lemma rgb_2x2_half_scale_not_0x8410 :
  ~ (exists ret y,
        sped_decode Stored.stored alloc_any no_stack 100 png_2x2 2
        = Some (ret, [{| cb_y := y; cb_w := 1; cb_row := [33808] |}])).
Proof.
  intros (ret & y & H). vm_compute in H. discriminate H.
Qed.

(** C3, amended.  Decoding a 2x2 RGB file (colour type 2, depth 8) whose
    pixels are (255,0,0), (0,255,0), (0,0,255), (255,255,255) at scale 2
    makes exactly one callback, with [y = 0] and one pixel, whose value is
    0x7BEF, the packing of the floor-average (127,127,127). *)
Theorem rgb_2x2_half_scale_pixel (tinfl : inflater) (alloc : Z -> bool)
    (stack_pal : Z -> rgb) (png : list byte) (raw : list byte) (fuel : nat) :
  well_formed tinfl alloc stack_pal png 2 raw ->
  ihdr_w png = 2 -> ihdr_h png = 2 -> ihdr_depth png = 8 -> ihdr_ctype png = 2 ->
  image_rows stack_pal png 2 raw
  = [[xff; x00; x00; x00; xff; x00]; [x00; x00; xff; xff; xff; xff]] ->
  (decode_fuel stack_pal png raw <= fuel)%nat ->
  sped_decode tinfl alloc stack_pal fuel png 2
  = Some (0, [{| cb_y := 0; cb_w := 1; cb_row := [31727] |}])
  /\ 31727 = rgb565 127 127 127
  /\ (255 + 0 + 0 + 255) / 4 = 127.
Proof.
  intros Hwf Hw Hh Hd Hc Hrows Hfuel.
  destruct (sped_decode_well_formed _ _ _ _ _ _ _ Hwf Hfuel) as [Hdec _].
  rewrite Hdec, Hrows. split; [|split; reflexivity].
  f_equal. f_equal.
  unfold expected_calls, block_pixel, block_rows, block_sum, row_sum, source_pixel.
  cbn [img_scale img_out_w img_ctype img_bpc image_of].
  rewrite Hw, Hd, Hc. vm_compute. reflexivity.
Qed.

Lemma rgb_2x2_half_scale_pixel_witness :
  well_formed Stored.stored alloc_any no_stack png_2x2 2 raw_2x2
  /\ ihdr_w png_2x2 = 2 /\ ihdr_h png_2x2 = 2
  /\ ihdr_depth png_2x2 = 8 /\ ihdr_ctype png_2x2 = 2
  /\ image_rows no_stack png_2x2 2 raw_2x2
     = [[xff; x00; x00; x00; xff; x00]; [x00; x00; xff; xff; xff; xff]]
  /\ (decode_fuel no_stack png_2x2 raw_2x2 <= 100)%nat
  /\ sped_decode Stored.stored alloc_any no_stack 100 png_2x2 2
     = Some (0, [{| cb_y := 0; cb_w := 1; cb_row := [31727] |}]).
Proof.
  assert (Hwf : well_formed Stored.stored alloc_any no_stack png_2x2 2 raw_2x2)
    by (apply png_2x2_well_formed; right; reflexivity).
  assert (Hrows : image_rows no_stack png_2x2 2 raw_2x2
                  = [[xff; x00; x00; x00; xff; x00]; [x00; x00; xff; xff; xff; xff]])
    by (vm_compute; reflexivity).
  assert (Hfuel : (decode_fuel no_stack png_2x2 raw_2x2 <= 100)%nat)
    by (vm_compute; lia).
  split; [exact Hwf|]. do 4 (split; [reflexivity|]).
  split; [exact Hrows|]. split; [exact Hfuel|].
  exact (proj1 (rgb_2x2_half_scale_pixel Stored.stored alloc_any no_stack png_2x2
                  raw_2x2 100 Hwf eq_refl eq_refl eq_refl eq_refl Hrows Hfuel)).
Defined.

(** ** A stream that ends early: an example *)

(** [png_2x2_short] announces two scanlines and its zlib stream is valid
    but ends after the first one: the decompressor reports Done with 7
    bytes delivered and [sped_decode] returns 0. *)
Example png_2x2_short_returns_0 :
  ihdr_h png_2x2_short = 2
  /\ Stored.inflate_all Stored.init
       (take 18 (drop 41 png_2x2_short)) = Some raw_2x2_short
  /\ sped_decode Stored.stored alloc_any no_stack 100 png_2x2_short 1
     = Some (0, [{| cb_y := 0; cb_w := 2; cb_row := [63488; 2016] |}])
  /\ sped_decode Stored.stored alloc_any no_stack 100 png_2x2_short 2
     = Some (0, []).
Proof. repeat split; vm_compute; reflexivity. Qed.

(** ** The accumulator along any decode *)

Section Reachable.
Variable im : image.
Hypothesis Him : image_ok im.

Lemma push_rows_done (s : decoder) (b : byte) :
  (exists done, rows_done im done s) ->
  exists done, rows_done im done (push im s b).
Proof.
  intros [done Hd]. unfold push. rewrite (h_int im Him).
  destruct (Z.ltb_spec (row s) (img_h im)) as [Hr|Hr]; [|exists done; exact Hd].
  destruct (sl_pos s =? 0).
  - exists done. destruct Hd. constructor; assumption.
  - destruct (img_stride im <? sl_pos s + 1).
    + eexists. apply (scanline_complete_done im Him); [exact Hd | exact Hr].
    + exists done. destruct Hd. constructor; assumption.
Qed.

Lemma fold_push_rows_done (l : list byte) (s : decoder) :
  (exists done, rows_done im done s) ->
  exists done, rows_done im done (fold_left (push im) l s).
Proof.
  revert s. induction l as [|b l IH]; intros s Hd; [exact Hd|].
  cbn [fold_left]. apply IH, push_rows_done, Hd.
Qed.

Lemma fold_feed_concat (windows : list (list byte)) (s : decoder) :
  decoder_ok im s ->
  fold_left (feed im) windows s = feed im s (concat windows).
Proof.
  revert s. induction windows as [|w ws IH]; intros s Hok; [reflexivity|].
  cbn [fold_left concat]. rewrite IH by (apply (feed_ok im Him), Hok).
  symmetry. apply (feed_app im Him). exact Hok.
Qed.

(** Whatever the decompressor has delivered so far, the decoder has
    completed some scanlines [done], in the sense of [rows_done]. *)
Lemma reachable_rows_done (windows : list (list byte)) :
  exists done, rows_done im done (fold_left (feed im) windows (decoder_init im)).
Proof.
  pose proof (decoder_init_ok im Him) as Hok.
  rewrite fold_feed_concat, (feed_push im Him) by exact Hok.
  apply fold_push_rows_done. exists []. apply (rows_done_init im Him).
Qed.

Lemma rows_done_lanes (done : list (list byte)) (s : decoder) :
  1 < img_scale im -> rows_done im done s ->
  forall ox c, 0 <= ox < img_out_w im -> 0 <= c < 3 ->
    0 <= acc_rd (acc s) (3 * ox + c) <= 255 * img_scale im * (img_scale im - 1).
Proof.
  intros Hdown Hd ox c Hox Hc. pose proof (scale_24 im Him Hdown) as Hs.
  rewrite (rd_acc _ _ _ Hd Hdown ox c Hox Hc).
  set (len := Z.of_nat (length done)).
  pose proof (block_sum_range im Him
                (drop (Z.to_nat (len / img_scale im * img_scale im)) done) ox c) as Hr.
  rewrite length_drop in Hr. fold len in Hr.
  pose proof (Z.div_mod len (img_scale im) ltac:(lia)).
  pose proof (Z.mod_pos_bound len (img_scale im) ltac:(lia)).
  assert (0 <= len / img_scale im) by (apply Z.div_pos; unfold len; lia).
  unfold len in *. nia.
Qed.
End Reachable.

(** C8. In any decode with a scale [s] of 2 or 4, whatever the
    decompressor has delivered, every lane of the accumulator holds at
    most [s * s * 255 <= 4080], between scanlines and after any number of
    turns of the accumulation loop; the 16-bit lanes therefore never wrap:
    the loop computes the same sums as unbounded integers would. *)
Theorem accumulator_lanes_bounded (im : image) (windows : list (list byte)) :
  image_ok im -> img_scale im = 2 \/ img_scale im = 4 ->
  let s := fold_left (feed im) windows (decoder_init im) in
  let sc := img_scale im in
  sc * sc * 255 <= 4080 /\ 4080 < 65536
  /\ (forall j, 0 <= j < Z.of_nat (length (acc s)) ->
        0 <= acc_rd (acc s) j <= sc * sc * 255)
  /\ (forall (cur : list byte) (n : Z),
        0 <= n <= Z.min (u32 (img_out_w im * sc)) (img_w im) ->
        accumulate im n cur (acc s) = accumulate_exact im n cur (acc s)
        /\ forall j, 0 <= j < Z.of_nat (length (acc s)) ->
             0 <= acc_rd (accumulate im n cur (acc s)) j <= sc * sc * 255).
Proof.
  intros Him Hs s sc.
  assert (Hdown : 1 < img_scale im) by lia.
  pose proof (out_w_bound im Him Hdown) as Hw.
  destruct (reachable_rows_done im Him windows) as [done Hd]. fold s in Hd.
  pose proof (rd_acc_len _ _ _ Hd Hdown) as Hlen.
  pose proof (rows_done_lanes im Him done s Hdown Hd) as Hlanes.
  assert (Hj : forall j, 0 <= j < Z.of_nat (length (acc s)) ->
             exists ox c, j = 3 * ox + c /\ 0 <= ox < img_out_w im /\ 0 <= c < 3).
  { intros j Hjr. exists (j / 3), (j mod 3).
    pose proof (Z.div_mod j 3 ltac:(lia)). pose proof (Z.mod_pos_bound j 3 ltac:(lia)).
    assert (0 <= j / 3) by (apply Z.div_pos; lia).
    assert (j / 3 < img_out_w im) by (apply Z.div_lt_upper_bound; lia).
    repeat split; lia. }
  fold sc in Hlanes, Hw, Hdown, Hs.
  split; [nia|]. split; [lia|]. split.
  - intros j Hjr. destruct (Hj j Hjr) as (ox & c & -> & Hox & Hc).
    pose proof (Hlanes ox c Hox Hc). nia.
  - intros cur n Hn. rewrite u32_small in Hn by lia.
    assert (Hn' : Z.of_nat (Z.to_nat n) <= img_out_w im * img_scale im)
      by (fold sc; lia).
    replace n with (Z.of_nat (Z.to_nat n)) by lia.
    split.
    + apply (accumulate_no_wrap im Him Hdown cur (255 * sc * (sc - 1)));
        [exact Hn' | exact Hlen | exact Hlanes | fold sc; nia].
    + intros j Hjr. destruct (Hj j Hjr) as (ox & c & -> & Hox & Hc).
      pose proof (accumulate_bound im Him Hdown cur (255 * sc * (sc - 1))
                    (Z.to_nat n) (acc s) Hn' Hlen Hlanes ltac:(fold sc; nia)
                    ox c Hox Hc) as Hb.
      fold sc in Hb. nia.
Qed.

Lemma accumulator_lanes_bounded_witness :
  image_ok (image_of no_stack png_2x2 2)
  /\ (img_scale (image_of no_stack png_2x2 2) = 2
      \/ img_scale (image_of no_stack png_2x2 2) = 4)
  /\ forall j, 0 <= j < 3 ->
       0 <= acc_rd (acc (fold_left (feed (image_of no_stack png_2x2 2))
                           [take 9 raw_2x2]
                           (decoder_init (image_of no_stack png_2x2 2)))) j
         <= 1020.
Proof.
  assert (Him : image_ok (image_of no_stack png_2x2 2)).
  { apply (decodable_image_ok Stored.stored alloc_any no_stack png_2x2 2 raw_2x2).
    apply png_2x2_decodable. right. reflexivity. }
  assert (Hs : img_scale (image_of no_stack png_2x2 2) = 2
               \/ img_scale (image_of no_stack png_2x2 2) = 4) by (left; reflexivity).
  split; [exact Him|]. split; [exact Hs|].
  destruct (accumulator_lanes_bounded (image_of no_stack png_2x2 2) [take 9 raw_2x2]
              Him Hs) as (_ & _ & Hl & _).
  intros j Hj. apply Hl.
  replace (Z.of_nat (length (acc (fold_left (feed (image_of no_stack png_2x2 2))
                                    [take 9 raw_2x2]
                                    (decoder_init (image_of no_stack png_2x2 2))))))
    with 3 by (vm_compute; reflexivity).
  exact Hj.
Defined.

(** ** Scanning a list of chunks *)

Lemma rd_app_mid (pre mid rest : list byte) (i : Z) :
  0 <= i < Z.of_nat (length mid) ->
  rd (pre ++ mid ++ rest) (Z.of_nat (length pre) + i) = rd mid i.
Proof.
  intros Hi. rewrite rd_app_r by lia. rewrite rd_app_l by lia. f_equal. lia.
Qed.

Lemma bv_be32_byte (n k : Z) :
  0 <= k -> bv (to_u8 (Z.shiftr n k)) = (n / 2 ^ k) mod 256.
Proof. intros Hk. rewrite bv_to_u8, Z.shiftr_div_pow2 by lia. reflexivity. Qed.

Lemma r32_be32 (pre rest : list byte) (n : Z) :
  0 <= n < 4294967296 ->
  r32 (pre ++ be32 n ++ rest) (Z.of_nat (length pre)) = n.
Proof.
  intros Hn. rewrite r32_be. unfold be32_at.
  replace (Z.of_nat (length pre)) with (Z.of_nat (length pre) + 0) at 1 by lia.
  rewrite !rd_app_mid by (cbn; lia).
  unfold be32, rd. change (Z.to_nat 0) with 0%nat. change (Z.to_nat 1) with 1%nat.
  change (Z.to_nat 2) with 2%nat. change (Z.to_nat 3) with 3%nat.
  cbn -[to_u8 bv Z.shiftr Z.mul Z.add].
  rewrite !bv_be32_byte by lia. rewrite bv_to_u8.
  change (2 ^ 24) with 16777216. change (2 ^ 16) with 65536. change (2 ^ 8) with 256.
  pose proof (Z.div_mod n 16777216 ltac:(lia)).
  pose proof (Z.div_mod n 65536 ltac:(lia)).
  pose proof (Z.div_mod n 256 ltac:(lia)).
  pose proof (Z.div_mod (n / 65536) 256 ltac:(lia)).
  pose proof (Z.div_mod (n / 256) 256 ltac:(lia)).
  pose proof (Z.mod_pos_bound n 256 ltac:(lia)).
  pose proof (Z.mod_pos_bound (n / 65536) 256 ltac:(lia)).
  pose proof (Z.mod_pos_bound (n / 256) 256 ltac:(lia)).
  assert (n / 65536 / 256 = n / 16777216) by (rewrite Z.div_div by lia; reflexivity).
  assert (n / 256 / 256 = n / 65536) by (rewrite Z.div_div by lia; reflexivity).
  assert (0 <= n / 16777216 < 256).
  { split; [apply Z.div_pos; lia | apply Z.div_lt_upper_bound; lia]. }
  rewrite (Z.mod_small (n / 16777216)) by lia. lia.
Qed.

Section ScanStep.
Variables (pre rest : list byte) (ch : chunk_t).
Hypothesis Hok : chunk_ok ch.

Let png := pre ++ encode_chunk ch ++ rest.
Let cp := Z.of_nat (length pre).
Let clen := Z.of_nat (length (ck_data ch)).

Lemma chunk_png_length : Z.of_nat (length png) = cp + 12 + clen + Z.of_nat (length rest).
Proof.
  destruct Hok as (Ht & Hc & _). unfold png, encode_chunk, cp, clen.
  rewrite !length_app, Ht, Hc. cbn [length be32]. lia.
Qed.

Lemma chunk_r32 : r32 png cp = clen.
Proof.
  destruct Hok as (_ & _ & Hd). unfold png, encode_chunk, cp.
  rewrite <- (app_assoc (be32 _)). apply r32_be32. lia.
Qed.

Lemma chunk_drop_type : drop (Z.to_nat (cp + 4)) png = ck_type ch ++ ck_data ch ++ ck_crc ch ++ rest.
Proof.
  unfold png, encode_chunk, cp.
  replace (Z.to_nat (Z.of_nat (length pre) + 4)) with (length pre + 4)%nat by lia.
  rewrite drop_app_add'; [|reflexivity].
  rewrite <- !app_assoc. reflexivity.
Qed.

Lemma chunk_bytes_at (tg : list byte) :
  length tg = 4%nat -> bytes_at png (cp + 4) tg = bool_decide (ck_type ch = tg).
Proof.
  intros Htg. destruct Hok as (Ht & _ & _). unfold bytes_at.
  rewrite chunk_drop_type, Htg, <- Ht, take_app_length. reflexivity.
Qed.

Lemma chunk_rd_data (i : Z) :
  0 <= i < clen -> rd png (cp + 8 + i) = rd (ck_data ch) (-8 + 8 + i).
Proof.
  intros Hi. destruct Hok as (Ht & Hc & _). unfold png, encode_chunk, cp, clen in *.
  assert (Hbe : length (be32 (Z.of_nat (length (ck_data ch)))) = 4%nat) by reflexivity.
  rewrite rd_app_r by lia.
  rewrite rd_app_l by (rewrite !length_app, Hbe, Ht, Hc; lia).
  rewrite rd_app_r by (rewrite Hbe; lia).
  rewrite rd_app_r by (rewrite Hbe, Ht; lia).
  rewrite rd_app_l by (rewrite Hbe, Ht; lia).
  f_equal. rewrite Hbe, Ht. lia.
Qed.

Lemma chunk_data_slice :
  take (Z.to_nat clen) (drop (Z.to_nat (cp + 8)) png) = ck_data ch.
Proof.
  destruct Hok as (Ht & _ & _). unfold png, encode_chunk, cp, clen.
  replace (Z.to_nat (Z.of_nat (length pre) + 8))
    with (length pre + (4 + (length (ck_type ch) + 0)))%nat by lia.
  rewrite <- !app_assoc.
  rewrite drop_app_add' by reflexivity.
  rewrite drop_app_add' by reflexivity.
  rewrite drop_app_add' by reflexivity.
  rewrite drop_0, Nat2Z.id, take_app_length. reflexivity.
Qed.

Lemma chunk_plte_copy (n : Z) (pal : palette) :
  n * 3 <= clen ->
  plte_copy png cp n pal = plte_copy (ck_data ch) (-8) n pal.
Proof.
  intros Hn. unfold plte_copy.
  assert (H : forall l, Forall (fun i => 0 <= i < n) l -> forall p : palette,
            fold_left (fun (pal : palette) i =>
                <[Z.to_nat i := (rd png (cp + 8 + i * 3), rd png (cp + 8 + i * 3 + 1),
                                 rd png (cp + 8 + i * 3 + 2))]> pal) l p
            = fold_left (fun (pal : palette) i =>
                <[Z.to_nat i := (rd (ck_data ch) (-8 + 8 + i * 3),
                                 rd (ck_data ch) (-8 + 8 + i * 3 + 1),
                                 rd (ck_data ch) (-8 + 8 + i * 3 + 2))]> pal) l p).
  { induction 1 as [|i l Hi _ IH]; intros p; [reflexivity|]. cbn [fold_left].
    rewrite IH. f_equal. f_equal.
    rewrite (chunk_rd_data (i * 3)) by lia.
    replace (cp + 8 + i * 3 + 1) with (cp + 8 + (i * 3 + 1)) by lia.
    replace (cp + 8 + i * 3 + 2) with (cp + 8 + (i * 3 + 2)) by lia.
    rewrite (chunk_rd_data (i * 3 + 1)), (chunk_rd_data (i * 3 + 2)) by lia.
    repeat f_equal; lia. }
  apply H. apply Forall_seqZ. intros; lia.
Qed.

Lemma chunk_trns_copy (pal_a : list byte) :
  trns_copy png cp clen pal_a = trns_copy (ck_data ch) (-8) clen pal_a.
Proof.
  unfold trns_copy.
  assert (H : forall l, Forall (fun i => 0 <= i < clen) l -> forall p : list byte,
            fold_left (fun (pal_a : list byte) i =>
                         <[Z.to_nat i := rd png (cp + 8 + i)]> pal_a) l p
            = fold_left (fun (pal_a : list byte) i =>
                           <[Z.to_nat i := rd (ck_data ch) (-8 + 8 + i)]> pal_a) l p).
  { induction 1 as [|i l Hi _ IH]; intros p; [reflexivity|]. cbn [fold_left].
    rewrite IH, (chunk_rd_data i) by lia. reflexivity. }
  apply H. apply Forall_seqZ. intros; lia.
Qed.

(** One turn of the scanning loop at the start of a chunk. *)
Lemma scan_loop_chunk (fuel : nat) (ctype : Z) (c : chunks) :
  scan_loop (S fuel) png ctype cp c
  = if bool_decide (ck_type ch = tag "IEND") then
      (if bool_decide (ck_type ch = tag "PLTE") || bool_decide (ck_type ch = tag "tRNS")
          || bool_decide (ck_type ch = tag "IDAT")
       then scan_loop fuel png ctype (cp + 12 + clen) (apply_chunk ctype c ch) else c)
    else scan_loop fuel png ctype (cp + 12 + clen) (apply_chunk ctype c ch).
Proof.
  cbn [scan_loop]. rewrite chunk_png_length, chunk_r32.
  destruct (Z.leb_spec (cp + 12) (cp + 12 + clen + Z.of_nat (length rest))) as [_|Hlt];
    [|unfold clen in Hlt; lia]. cbn [negb].
  destruct (Z.ltb_spec (cp + 12 + clen + Z.of_nat (length rest)) (cp + 12 + clen))
    as [Hlt|_]; [lia|].
  rewrite !chunk_bytes_at by reflexivity. unfold apply_chunk. fold clen.
  assert (Hq : 0 <= Z.quot clen 3 /\ Z.quot clen 3 * 3 <= clen).
  { rewrite Z.quot_div_nonneg by (unfold clen; lia).
    pose proof (Z.mul_div_le clen 3 ltac:(lia)).
    split; [apply Z.div_pos; unfold clen; lia | lia]. }
  destruct (bool_decide (ck_type ch = tag "PLTE")) eqn:E1.
  { apply bool_decide_eq_true in E1. 
    rewrite chunk_plte_copy by (case_if; zb; lia).
    rewrite E1. reflexivity. }
  destruct (bool_decide (ck_type ch = tag "tRNS")) eqn:E2.
  { apply bool_decide_eq_true in E2. rewrite chunk_trns_copy, E2. reflexivity. }
  destruct (bool_decide (ck_type ch = tag "IDAT")) eqn:E3.
  { apply bool_decide_eq_true in E3. rewrite chunk_data_slice, E3. reflexivity. }
  cbn [orb]. destruct (bool_decide (ck_type ch = tag "IEND")); reflexivity.
Qed.
End ScanStep.

Lemma encode_chunk_length (ch : chunk_t) :
  chunk_ok ch ->
  Z.of_nat (length (encode_chunk ch)) = 12 + Z.of_nat (length (ck_data ch)).
Proof.
  intros (Ht & Hc & _). unfold encode_chunk. rewrite !length_app, Ht, Hc.
  cbn [length be32]. lia.
Qed.

Lemma scan_loop_chunks (ctype : Z) (iend_crc junk : list byte) (cs : list chunk_t) :
  length iend_crc = 4%nat ->
  forall (pre : list byte) (c : chunks) (fuel : nat),
    Forall (fun ch => chunk_ok ch /\ ck_type ch <> tag "IEND") cs ->
    (length cs < fuel)%nat ->
    scan_loop fuel (pre ++ concat (map encode_chunk cs)
                        ++ encode_chunk (iend_chunk iend_crc) ++ junk)
      ctype (Z.of_nat (length pre)) c
    = fold_left (apply_chunk ctype) cs c.
Proof.
  intros Hcrc. induction cs as [|ch cs IH]; intros pre c fuel Hcs Hfuel;
    (destruct fuel as [|fuel]; [simpl in Hfuel; lia|]).
  - cbn [map concat app fold_left].
    rewrite (scan_loop_chunk pre junk (iend_chunk iend_crc)).
    + reflexivity.
    + split; [reflexivity | split; [exact Hcrc | cbn; lia]].
  - pose proof (Forall_inv Hcs) as [Hok Hne]. apply Forall_inv_tail in Hcs.
    cbn [map concat fold_left]. rewrite <- (app_assoc (encode_chunk ch)).
    rewrite (scan_loop_chunk pre _ ch Hok).
    rewrite (bool_decide_eq_false_2 _ Hne).
    rewrite (app_assoc pre).
    replace (Z.of_nat (length pre) + 12 + Z.of_nat (length (ck_data ch)))
      with (Z.of_nat (length (pre ++ encode_chunk ch)))
      by (rewrite length_app, Nat2Z.inj_add, encode_chunk_length by exact Hok; lia).
    apply IH; [exact Hcs | simpl in Hfuel; lia].
Qed.

Lemma concat_encode_length (cs : list chunk_t) :
  (length cs <= length (concat (map encode_chunk cs)))%nat.
Proof.
  induction cs as [|ch cs IH]; [reflexivity|].
  cbn [map concat length]. rewrite length_app. unfold encode_chunk at 1.
  rewrite length_app. cbn [length be32]. lia.
Qed.

(** The chunk scan of a file, read off its list of chunks. *)
Lemma scan_chunks_png_file (stack_pal : Z -> rgb) (ctype : Z)
    (hdr : list byte) (cs : list chunk_t) (iend_crc junk : list byte) :
  length hdr = 33%nat -> length iend_crc = 4%nat ->
  Forall (fun ch => chunk_ok ch /\ ck_type ch <> tag "IEND") cs ->
  scan_chunks stack_pal (png_file hdr cs iend_crc junk) ctype
  = fold_left (apply_chunk ctype) cs
      {| ch_pal := pal_uninit stack_pal; ch_pal_a := replicate 256 xff; ch_idat := [] |}.
Proof.
  intros Hhdr Hcrc Hcs. unfold scan_chunks, png_file.
  change (8 + 25) with (Z.of_nat 33). rewrite <- Hhdr.
  apply scan_loop_chunks; [exact Hcrc | exact Hcs |].
  rewrite !length_app. pose proof (concat_encode_length cs). cbn [length]. lia.
Qed.

Lemma apply_other_chunk (ctype : Z) (c c' : chunks) (ch : chunk_t) :
  other_chunk ch -> ch_pal c = ch_pal c' ->
  ch_pal (apply_chunk ctype c ch) = ch_pal (apply_chunk ctype c' ch)
  /\ ch_idat (apply_chunk ctype c ch) = ch_idat c.
Proof.
  intros (_ & Hne & _) Hpal. unfold apply_chunk.
  rewrite (bool_decide_eq_false_2 _ Hne).
  repeat case_if; cbn [ch_pal ch_idat]; rewrite ?Hpal; split; reflexivity.
Qed.

Lemma fold_other_chunks (ctype : Z) (cs : list chunk_t) :
  Forall other_chunk cs ->
  forall c c', ch_pal c = ch_pal c' ->
    ch_pal (fold_left (apply_chunk ctype) cs c)
    = ch_pal (fold_left (apply_chunk ctype) cs c')
    /\ ch_idat (fold_left (apply_chunk ctype) cs c) = ch_idat c.
Proof.
  induction 1 as [|ch cs Hch _ IH]; intros c c' Hpal; [split; [exact Hpal | reflexivity]|].
  cbn [fold_left].
  destruct (apply_other_chunk ctype c c' ch Hch Hpal) as [Hp Hi].
  destruct (IH _ _ Hp) as [IHp IHi]. split; [exact IHp|]. rewrite IHi. exact Hi.
Qed.

Lemma other_chunk_not_iend (cs : list chunk_t) :
  Forall other_chunk cs ->
  Forall (fun ch => chunk_ok ch /\ ck_type ch <> tag "IEND") cs.
Proof. apply Forall_impl. intros ch (Hok & _ & Hne). split; assumption. Qed.

Lemma idat_chunk_not_iend (data crc : list byte) :
  length crc = 4%nat -> Z.of_nat (length data) < 4294967296 ->
  chunk_ok (idat_chunk data crc) /\ ck_type (idat_chunk data crc) <> tag "IEND".
Proof.
  intros Hc Hd. split; [split; [reflexivity | split; [exact Hc | exact Hd]]|].
  cbn. discriminate.
Qed.

(** The scan of a file with IDAT chunks [datas] among other chunks. *)
Lemma scan_chunks_idats (stack_pal : Z -> rgb) (ctype : Z) (hdr : list byte)
    (pre post : list chunk_t) (idats : list chunk_t) (iend_crc junk : list byte) :
  length hdr = 33%nat -> length iend_crc = 4%nat ->
  Forall other_chunk pre -> Forall other_chunk post ->
  Forall (fun ch => chunk_ok ch /\ ck_type ch = tag "IDAT") idats ->
  (length idats <= 64)%nat ->
  let c := scan_chunks stack_pal (png_file hdr (pre ++ idats ++ post) iend_crc junk) ctype in
  ch_idat c = map ck_data idats
  /\ ch_pal c = ch_pal (fold_left (apply_chunk ctype) post
                          (fold_left (apply_chunk ctype) pre
                             {| ch_pal := pal_uninit stack_pal;
                                ch_pal_a := replicate 256 xff; ch_idat := [] |})).
Proof.
  intros Hhdr Hcrc Hpre Hpost Hid Hn c. unfold c.
  rewrite scan_chunks_png_file; [|exact Hhdr | exact Hcrc |].
  2:{ apply Forall_app. split; [apply other_chunk_not_iend, Hpre|].
      apply Forall_app. split; [|apply other_chunk_not_iend, Hpost].
      revert Hid. apply Forall_impl. intros ch [Hok Ht]. split; [exact Hok|].
      rewrite Ht. discriminate. }
  rewrite !fold_left_app.
  set (c0 := {| ch_pal := pal_uninit stack_pal; ch_pal_a := replicate 256 xff;
                ch_idat := [] |}).
  destruct (fold_other_chunks ctype pre Hpre c0 c0 eq_refl) as [_ Hi0].
  set (c1 := fold_left (apply_chunk ctype) pre c0) in *.
  assert (Hidats : forall l acc0, Forall (fun ch => chunk_ok ch /\ ck_type ch = tag "IDAT") l ->
             forall cst, ch_idat cst = acc0 -> (length acc0 + length l <= 64)%nat ->
               ch_pal (fold_left (apply_chunk ctype) l cst) = ch_pal cst
               /\ ch_idat (fold_left (apply_chunk ctype) l cst) = acc0 ++ map ck_data l).
  { induction l as [|ch l IH]; intros acc0 Hl cst Hacc Hlen.
    - cbn. rewrite app_nil_r. split; [reflexivity | exact Hacc].
    - pose proof (Forall_inv Hl) as [_ Ht]. apply Forall_inv_tail in Hl.
      cbn [fold_left map].
      assert (Hstep : ch_pal (apply_chunk ctype cst ch) = ch_pal cst
                      /\ ch_idat (apply_chunk ctype cst ch) = acc0 ++ [ck_data ch]).
      { unfold apply_chunk. rewrite Ht.
        change (bool_decide (tag "IDAT" = tag "PLTE")) with false.
        change (bool_decide (tag "IDAT" = tag "tRNS")) with false.
        change (bool_decide (tag "IDAT" = tag "IDAT")) with true.
        cbn [ch_pal ch_idat]. rewrite Hacc. unfold SPED_MAX_IDAT.
        destruct (Z.ltb_spec (Z.of_nat (length acc0)) 64); [|simpl in Hlen; lia].
        split; reflexivity. }
      destruct Hstep as [Hp Hi].
      destruct (IH (acc0 ++ [ck_data ch]) Hl _ Hi) as [IHp IHi].
      { rewrite length_app. simpl in *. lia. }
      split; [rewrite IHp; exact Hp|]. rewrite IHi, <- app_assoc. reflexivity. }
  destruct (Hidats idats [] Hid c1 Hi0 ltac:(simpl; lia)) as [Hp2 Hi2].
  set (c2 := fold_left (apply_chunk ctype) idats c1) in *.
  destruct (fold_other_chunks ctype post Hpost c2 c1 Hp2) as [Hp3 Hi3].
  split; [rewrite Hi3; exact Hi2 | exact Hp3].
Qed.

(** ** The header of a file *)

Section Header.
Variables (hdr body : list byte).
Hypothesis Hhdr : length hdr = 33%nat.

Lemma hdr_rd (i : Z) : 0 <= i < 33 -> rd (hdr ++ body) i = rd hdr i.
Proof. intros Hi. apply rd_app_l. lia. Qed.

Lemma hdr_r32 (off : Z) : 0 <= off <= 29 -> r32 (hdr ++ body) off = r32 hdr off.
Proof. intros Ho. unfold r32. rewrite !hdr_rd by lia. reflexivity. Qed.

Lemma hdr_bytes_at (off : Z) (tg : list byte) :
  0 <= off -> off + Z.of_nat (length tg) <= 33 ->
  bytes_at (hdr ++ body) off tg = bytes_at hdr off tg.
Proof.
  intros H0 Ho. unfold bytes_at. rewrite drop_app_le by lia.
  rewrite take_app_le; [reflexivity|]. rewrite length_drop. lia.
Qed.

Lemma hdr_fields :
  ihdr_w (hdr ++ body) = ihdr_w hdr /\ ihdr_h (hdr ++ body) = ihdr_h hdr
  /\ ihdr_depth (hdr ++ body) = ihdr_depth hdr
  /\ ihdr_ctype (hdr ++ body) = ihdr_ctype hdr
  /\ ihdr_compression (hdr ++ body) = ihdr_compression hdr
  /\ ihdr_filter (hdr ++ body) = ihdr_filter hdr
  /\ ihdr_interlace (hdr ++ body) = ihdr_interlace hdr.
Proof.
  unfold ihdr_w, ihdr_h, ihdr_depth, ihdr_ctype, ihdr_compression, ihdr_filter,
    ihdr_interlace.
  rewrite !hdr_r32, !hdr_rd by lia. repeat split; reflexivity.
Qed.

Lemma hdr_sped_info : sped_info (hdr ++ body) = sped_info hdr.
Proof.
  unfold sped_info. cbv zeta.
  rewrite !hdr_r32 by lia. rewrite !hdr_bytes_at by (cbn; lia).
  rewrite length_app, Hhdr.
  destruct (Z.ltb_spec (Z.of_nat (33 + length body)) 33); [lia|]. reflexivity.
Qed.

Lemma hdr_unsupported (scale : Z) :
  unsupported (hdr ++ body) scale <-> unsupported hdr scale.
Proof.
  destruct hdr_fields as (Hw & Hh & Hd & Hc & Hco & Hf & Hi).
  unfold unsupported. rewrite Hw, Hh, Hd, Hc, Hco, Hf, Hi. reflexivity.
Qed.
End Header.

(** Two files with the same header and the same palette after the chunk
    scan give the decoding loop the same image. *)
Lemma image_of_same_header (stack_pal : Z -> rgb) (hdr body1 body2 : list byte)
    (scale : Z) :
  length hdr = 33%nat ->
  ch_pal (scan_chunks stack_pal (hdr ++ body1) (ihdr_ctype hdr))
  = ch_pal (scan_chunks stack_pal (hdr ++ body2) (ihdr_ctype hdr)) ->
  image_of stack_pal (hdr ++ body1) scale = image_of stack_pal (hdr ++ body2) scale.
Proof.
  intros Hhdr Hpal.
  destruct (hdr_fields hdr body1 Hhdr) as (Hw1 & Hh1 & Hd1 & Hc1 & _).
  destruct (hdr_fields hdr body2 Hhdr) as (Hw2 & Hh2 & Hd2 & Hc2 & _).
  unfold image_of. rewrite Hw1, Hh1, Hd1, Hc1, Hw2, Hh2, Hd2, Hc2, Hpal. reflexivity.
Qed.

(** ** One IDAT chunk or two *)

Section Split.
Variable tinfl : inflater.
Variable alloc : Z -> bool.
Variable stack_pal : Z -> rgb.
Variables (hdr : list byte) (pre post : list chunk_t).
Variables (data crc crc1 crc2 iend_crc junk : list byte).
Variable k : nat.

Hypothesis Hhdr : length hdr = 33%nat.
Hypothesis Hpre : Forall other_chunk pre.
Hypothesis Hpost : Forall other_chunk post.
Hypothesis Hdata : Z.of_nat (length data) < 4294967296.
Hypothesis Hcrc : length crc = 4%nat.
Hypothesis Hcrc1 : length crc1 = 4%nat.
Hypothesis Hcrc2 : length crc2 = 4%nat.
Hypothesis Hiend : length iend_crc = 4%nat.

Let single := png_file hdr (pre ++ [idat_chunk data crc] ++ post) iend_crc junk.
Let split2 :=
  png_file hdr (pre ++ [idat_chunk (take k data) crc1; idat_chunk (drop k data) crc2]
                    ++ post) iend_crc junk.

Lemma single_scan (ctype : Z) :
  ch_idat (scan_chunks stack_pal single ctype) = [data]
  /\ ch_pal (scan_chunks stack_pal single ctype)
     = ch_pal (scan_chunks stack_pal split2 ctype)
  /\ ch_idat (scan_chunks stack_pal split2 ctype) = [take k data; drop k data].
Proof.
  destruct (scan_chunks_idats stack_pal ctype hdr pre post [idat_chunk data crc]
              iend_crc junk Hhdr Hiend Hpre Hpost) as [Hi1 Hp1].
  { constructor; [|constructor].
    split; [split; [reflexivity | split; [exact Hcrc | exact Hdata]] | reflexivity]. }
  { simpl. lia. }
  destruct (scan_chunks_idats stack_pal ctype hdr pre post
              [idat_chunk (take k data) crc1; idat_chunk (drop k data) crc2]
              iend_crc junk Hhdr Hiend Hpre Hpost) as [Hi2 Hp2].
  { constructor; [|constructor; [|constructor]].
    - split; [split; [reflexivity | split; [exact Hcrc1 |]] | reflexivity].
      cbn [ck_data idat_chunk]. rewrite length_take. lia.
    - split; [split; [reflexivity | split; [exact Hcrc2 |]] | reflexivity].
      cbn [ck_data idat_chunk]. rewrite length_drop. lia. }
  { simpl. lia. }
  fold single in Hi1, Hp1. fold split2 in Hi2, Hp2.
  split; [exact Hi1|]. split; [rewrite Hp1, Hp2; reflexivity | exact Hi2].
Qed.

Lemma split_image (scale : Z) :
  image_of stack_pal split2 scale = image_of stack_pal single scale.
Proof.
  unfold single, split2, png_file. apply image_of_same_header; [exact Hhdr|].
  destruct (single_scan (ihdr_ctype hdr)) as (_ & Hp & _). symmetry. exact Hp.
Qed.

Lemma split_well_formed (scale : Z) (raw : list byte) :
  well_formed tinfl alloc stack_pal single scale raw ->
  well_formed tinfl alloc stack_pal split2 scale raw
  /\ decode_fuel stack_pal split2 raw = S (decode_fuel stack_pal single raw).
Proof.
  intros [[Hi Hsup Hh Hstr Hal Hid (R & HR & HR0)] Hrows].
  pose proof (split_image scale) as Him.
  assert (Hf1 := hdr_fields hdr
             (concat (map encode_chunk (pre ++ [idat_chunk data crc] ++ post))
              ++ encode_chunk (iend_chunk iend_crc) ++ junk) Hhdr).
  assert (Hf2 := hdr_fields hdr
             (concat (map encode_chunk
                (pre ++ [idat_chunk (take k data) crc1; idat_chunk (drop k data) crc2]
                     ++ post))
              ++ encode_chunk (iend_chunk iend_crc) ++ junk) Hhdr).
  fold (png_file hdr (pre ++ [idat_chunk data crc] ++ post) iend_crc junk) in Hf1.
  fold (png_file hdr (pre ++ [idat_chunk (take k data) crc1;
                              idat_chunk (drop k data) crc2] ++ post) iend_crc junk) in Hf2.
  fold single in Hf1. fold split2 in Hf2.
  destruct Hf1 as (Hw1 & Hh1 & Hd1 & Hc1 & Hco1 & Hfi1 & Hil1).
  destruct Hf2 as (Hw2 & Hh2 & Hd2 & Hc2 & Hco2 & Hfi2 & Hil2).
  destruct (single_scan (ihdr_ctype hdr)) as (Hs1 & Hp & Hs2).
  rewrite Hc1 in Hid, HR0. rewrite Hs1 in HR0.
  split; [split; [constructor|]|].
  - unfold single, split2, png_file in *. rewrite hdr_sped_info in * by exact Hhdr.
    exact Hi.
  - unfold single, split2, png_file in *. rewrite hdr_unsupported in * by exact Hhdr.
    exact Hsup.
  - rewrite Hh2, <- Hh1. exact Hh.
  - rewrite Him, Hw2, <- Hw1. exact Hstr.
  - rewrite Him, Hw2, <- Hw1. exact Hal.
  - rewrite Hc2, Hs2. discriminate.
  - exists R. split; [exact HR|]. rewrite Hc2, Hs2.
    cbn [concat] in *. rewrite app_nil_r in *. rewrite take_drop.
    exact HR0.
  - rewrite Him, Hh2, <- Hh1. exact Hrows.
  - unfold decode_fuel. rewrite Hc1, Hc2, Hs1, Hs2. cbn [concat length].
    rewrite !app_nil_r, length_app, length_take, length_drop. lia.
Qed.
End Split.

(** C9. Take a well-formed file with a single IDAT chunk and cut the
    IDAT payload in two IDAT chunks at any offset [k]: for every scale the
    file admits, [sped_decode] makes the same calls of the row callback,
    with the same rows, on both files. *)
Theorem idat_split_same_callbacks (tinfl : inflater) (alloc : Z -> bool)
    (stack_pal : Z -> rgb) (hdr : list byte) (pre post : list chunk_t)
    (data crc crc1 crc2 iend_crc junk : list byte) (k : nat) (scale : Z)
    (raw : list byte) (fuel : nat) :
  length hdr = 33%nat ->
  Forall other_chunk pre -> Forall other_chunk post ->
  Z.of_nat (length data) < 4294967296 ->
  length crc = 4%nat -> length crc1 = 4%nat -> length crc2 = 4%nat ->
  length iend_crc = 4%nat ->
  let single := png_file hdr (pre ++ [idat_chunk data crc] ++ post) iend_crc junk in
  let split2 :=
    png_file hdr (pre ++ [idat_chunk (take k data) crc1; idat_chunk (drop k data) crc2]
                      ++ post) iend_crc junk in
  well_formed tinfl alloc stack_pal single scale raw ->
  (decode_fuel stack_pal single raw < fuel)%nat ->
  exists calls,
    sped_decode tinfl alloc stack_pal fuel single scale = Some (0, calls)
    /\ sped_decode tinfl alloc stack_pal fuel split2 scale = Some (0, calls).
Proof.
  intros Hhdr Hpre Hpost Hdata Hcrc Hcrc1 Hcrc2 Hiend single split2 Hwf Hfuel.
  destruct (split_well_formed tinfl alloc stack_pal hdr pre post data crc crc1 crc2
              iend_crc junk k Hhdr Hpre Hpost Hdata Hcrc Hcrc1 Hcrc2 Hiend scale raw Hwf)
    as [Hwf2 Hfuel2].
  fold single in Hfuel2. fold split2 in Hwf2, Hfuel2.
  destruct (sped_decode_well_formed _ _ _ _ _ _ fuel Hwf ltac:(lia)) as [H1 _].
  destruct (sped_decode_well_formed _ _ _ _ _ _ fuel Hwf2 ltac:(lia)) as [H2 _].
  eexists. split; [exact H1|]. rewrite H2. unfold image_rows. cbv zeta.
  unfold split2, single.
  rewrite (split_image stack_pal hdr pre post data crc crc1 crc2 iend_crc junk k
             Hhdr Hpre Hpost Hdata Hcrc Hcrc1 Hcrc2 Hiend scale).
  reflexivity.
Qed.

Lemma idat_split_same_callbacks_witness :
  png_file (take 33 png_2x2) ([] ++ [idat_chunk (take 25 (drop 41 png_2x2))
                                      [xde; xdd; xec; x2b]] ++ [])
    [xae; x42; x60; x82] [] = png_2x2
  /\ png_file (take 33 png_2x2)
       ([] ++ [idat_chunk (take 9 (take 25 (drop 41 png_2x2))) [x17; xdc; x10; x66];
               idat_chunk (drop 9 (take 25 (drop 41 png_2x2))) [x51; x1c; xe3; xe0]]
           ++ [])
       [xae; x42; x60; x82] [] = png_2x2_split
  /\ well_formed Stored.stored alloc_any no_stack png_2x2 2 raw_2x2
  /\ exists calls,
       sped_decode Stored.stored alloc_any no_stack 100 png_2x2 2 = Some (0, calls)
       /\ sped_decode Stored.stored alloc_any no_stack 100 png_2x2_split 2
          = Some (0, calls).
Proof.
  assert (Hwf : well_formed Stored.stored alloc_any no_stack png_2x2 2 raw_2x2)
    by (apply png_2x2_well_formed; right; reflexivity).
  split; [vm_compute; reflexivity|]. split; [vm_compute; reflexivity|].
  split; [exact Hwf|].
  apply (idat_split_same_callbacks Stored.stored alloc_any no_stack (take 33 png_2x2)
           [] [] (take 25 (drop 41 png_2x2)) [xde; xdd; xec; x2b]
           [x17; xdc; x10; x66] [x51; x1c; xe3; xe0] [xae; x42; x60; x82] [] 9 2
           raw_2x2 100).
  - reflexivity.
  - constructor.
  - constructor.
  - vm_compute. reflexivity.
  - reflexivity.
  - reflexivity.
  - reflexivity.
  - reflexivity.
  - exact Hwf.
  - vm_compute. lia.
Defined.

(** ** A stream that ends early, in general *)

Section Truncated.
Variable im : image.
Hypothesis Him : image_ok im.

Lemma decode_rows_sl_pos (n : nat) (s : decoder) (raw : list byte) :
  sl_pos s = 0 -> sl_pos (decode_rows im n s raw) = 0.
Proof.
  revert s raw. induction n as [|n IH]; intros s raw Hp; [exact Hp|].
  cbn [decode_rows]. apply IH. apply sl_pos_emit_scanline.
Qed.

(** Less than a scanline of data completes no scanline. *)
Lemma fold_push_partial (l : list byte) (s : decoder) :
  decoder_ok im s -> sl_pos s = 0 -> row s < img_h im ->
  Z.of_nat (length l) <= img_stride im ->
  calls (fold_left (push im) l s) = calls s
  /\ row (fold_left (push im) l s) = row s.
Proof.
  intros Hok Hp Hr Hl. pose proof (stride_pos im Him) as Hs.
  destruct l as [|f l]; [split; reflexivity|].
  cbn [fold_left].
  assert (Hpush : push im s f = {| sl_pos := 1; filter := f; row := row s;
                                   out_row := out_row s; cur := cur s; prev := prev s;
                                   acc := acc s; calls := calls s |}).
  { unfold push. rewrite (h_int im Him).
    destruct (Z.ltb_spec (row s) (img_h im)); [|lia].
    rewrite Hp. reflexivity. }
  rewrite Hpush.
  rewrite (fold_push_fill im Him l); cbn [sl_pos row cur];
    [| destruct Hok; constructor; cbn; lia | lia | lia | cbn [length] in Hl; lia].
  cbv zeta. cbn [sl_pos]. cbn [length] in Hl.
  destruct (Z.ltb_spec (img_stride im) (1 + Z.of_nat (length l))); [lia|].
  split; reflexivity.
Qed.

(** With [k < h] whole scanlines in [raw], the decoder stops at row [k]
    having made the calls for the complete blocks among them. *)
Lemma feed_truncated (raw : list byte) :
  let k := Z.to_nat (Z.of_nat (length raw) / (img_stride im + 1)) in
  Z.of_nat (length raw) < img_h im * (img_stride im + 1) ->
  Z.of_nat k < img_h im
  /\ row (feed im (decoder_init im) raw) = Z.of_nat k
  /\ calls (feed im (decoder_init im) raw)
     = expected_calls im (scanlines im k (replicate (Z.to_nat (img_stride im)) x00) raw).
Proof.
  intros k Hraw. pose proof (stride_pos im Him) as Hs.
  assert (Hh : 0 < img_h im < 2147483648) by (destruct Him; assumption).
  pose proof (decoder_init_ok im Him) as Hok0.
  set (st := Z.to_nat (img_stride im)).
  pose proof (Z.div_mod (Z.of_nat (length raw)) (img_stride im + 1) ltac:(lia)) as Hdm.
  pose proof (Z.mod_pos_bound (Z.of_nat (length raw)) (img_stride im + 1) ltac:(lia)) as Hm.
  assert (Hq : 0 <= Z.of_nat (length raw) / (img_stride im + 1))
    by (apply Z.div_pos; lia).
  assert (Hk : Z.of_nat k < img_h im) by (unfold k; nia).
  assert (Hn : (k * S st <= length raw)%nat) by (unfold k, st; nia).
  split; [exact Hk|].
  destruct (decode_rows_done im Him k (decoder_init im) raw [] (rows_done_init im Him)
              ltac:(cbn; lia)) as [Hd Hrow].
  cbn [prev decoder_init app row] in Hd, Hrow. fold st in Hd.
  assert (Hok' : decoder_ok im (decode_rows im k (decoder_init im) raw)).
  { rewrite <- (fold_push_rows im Him k) by (try assumption; cbn; lia).
    apply fold_push_ok; assumption. }
  assert (Hfeed : feed im (decoder_init im) raw
                  = fold_left (push im) (drop (k * S st) raw)
                      (decode_rows im k (decoder_init im) raw)).
  { rewrite <- (take_drop (k * S st) raw) at 1.
    rewrite (feed_app im Him) by exact Hok0.
    rewrite (feed_push im Him _ (take _ _)) by exact Hok0.
    unfold st at 1. rewrite (fold_push_rows im Him k) by (try assumption; cbn; lia).
    apply (feed_push im Him). exact Hok'. }
  rewrite Hfeed.
  destruct (fold_push_partial (drop (k * S st) raw)
              (decode_rows im k (decoder_init im) raw) Hok')
    as [Hc Hr].
  - apply decode_rows_sl_pos. reflexivity.
  - lia.
  - rewrite length_drop. unfold k, st in *. nia.
  - rewrite Hc, Hr, (rd_calls _ _ _ Hd). split; [lia | reflexivity].
Qed.
End Truncated.

(** C1 fails on the code.  The claim is that [sped_decode] returns an
    error when the decompressor reports Done before [h] scanlines have
    been assembled.  It returns 0: with inflated data [raw] shorter than
    [h] scanlines, the loop is left by [break] and the number of rows is
    not checked afterwards.  The second half of the claim holds: the
    calls made are those of the [k] whole scanlines received, none for
    the incomplete one. *)
Theorem done_before_last_row_returns_0 (tinfl : inflater) (alloc : Z -> bool)
    (stack_pal : Z -> rgb) (png : list byte) (scale : Z) (raw : list byte)
    (fuel : nat) :
  decodable tinfl alloc stack_pal png scale raw ->
  let im := image_of stack_pal png scale in
  let k := Z.to_nat (Z.of_nat (length raw) / (img_stride im + 1)) in
  Z.of_nat (length raw) < ihdr_h png * (img_stride im + 1) ->
  (decode_fuel stack_pal png raw <= fuel)%nat ->
  Z.of_nat k < ihdr_h png
  /\ sped_decode tinfl alloc stack_pal fuel png scale
     = Some (0, expected_calls im
                  (scanlines im k (replicate (Z.to_nat (img_stride im)) x00) raw)).
Proof.
  intros Hdec im k Hraw Hfuel.
  pose proof (decodable_image_ok _ _ _ _ _ _ Hdec) as Him. fold im in Him.
  rewrite (sped_decode_streams _ _ _ _ _ _ Hdec fuel Hfuel). fold im.
  destruct (feed_truncated im Him raw Hraw) as (Hk & _ & Hc).
  fold k in Hk, Hc. split; [exact Hk|]. rewrite Hc. reflexivity.
Qed.

Lemma png_2x2_short_decodable (scale : Z) :
  scale = 1 \/ scale = 2 ->
  decodable Stored.stored alloc_any no_stack png_2x2_short scale raw_2x2_short.
Proof.
  intros Hs. constructor.
  - vm_compute. discriminate.
  - unfold unsupported.
    change (ihdr_compression png_2x2_short) with 0. change (ihdr_filter png_2x2_short) with 0.
    change (ihdr_interlace png_2x2_short) with 0. change (ihdr_depth png_2x2_short) with 8.
    change (ihdr_ctype png_2x2_short) with 2. change (ihdr_w png_2x2_short) with 2.
    change (ihdr_h png_2x2_short) with 2.
    destruct Hs as [-> | ->]; vm_compute; intuition discriminate.
  - vm_compute. reflexivity.
  - destruct Hs as [-> | ->]; vm_compute; reflexivity.
  - repeat split; reflexivity.
  - vm_compute. discriminate.
  - exists Stored.delivers. split; [apply stored_streams|].
    vm_compute. reflexivity.
Qed.

Lemma done_before_last_row_returns_0_witness :
  decodable Stored.stored alloc_any no_stack png_2x2_short 1 raw_2x2_short
  /\ Z.of_nat (length raw_2x2_short)
     < ihdr_h png_2x2_short * (img_stride (image_of no_stack png_2x2_short 1) + 1)
  /\ (decode_fuel no_stack png_2x2_short raw_2x2_short <= 100)%nat
  /\ sped_decode Stored.stored alloc_any no_stack 100 png_2x2_short 1
     = Some (0, [{| cb_y := 0; cb_w := 2; cb_row := [63488; 2016] |}]).
Proof.
  assert (Hdec : decodable Stored.stored alloc_any no_stack png_2x2_short 1 raw_2x2_short)
    by (apply png_2x2_short_decodable; left; reflexivity).
  assert (Hraw : Z.of_nat (length raw_2x2_short)
                 < ihdr_h png_2x2_short
                   * (img_stride (image_of no_stack png_2x2_short 1) + 1))
    by (vm_compute; reflexivity).
  assert (Hfuel : (decode_fuel no_stack png_2x2_short raw_2x2_short <= 100)%nat)
    by (vm_compute; lia).
  split; [exact Hdec|]. split; [exact Hraw|]. split; [exact Hfuel|].
  destruct (done_before_last_row_returns_0 Stored.stored alloc_any no_stack
              png_2x2_short 1 raw_2x2_short 100 Hdec Hraw Hfuel) as [_ H].
  rewrite H. vm_compute. reflexivity.
Defined.

(** ** The fuel of the two inner loops is enough *)

(** More turns than [length png] change nothing in the chunk scan. *)
Lemma scan_loop_fuel (png : list byte) (ctype : Z) (fuel : nat) :
  forall (k : nat) (cp : Z) (c : chunks),
    Z.of_nat (length png) - cp < 12 * Z.of_nat fuel ->
    scan_loop (fuel + k) png ctype cp c = scan_loop fuel png ctype cp c.
Proof.
  induction fuel as [|fuel IH]; intros k cp c Hm.
  - destruct k as [|k]; [reflexivity|]. cbn [Nat.add scan_loop].
    destruct (Z.leb_spec (cp + 12) (Z.of_nat (length png))); [lia | reflexivity].
  - cbn [Nat.add scan_loop]. pose proof (r32_range png cp) as Hr.
    repeat case_if; try reflexivity; apply IH; lia.
Qed.

Lemma scan_chunks_fuel (stack_pal : Z -> rgb) (png : list byte) (ctype : Z) (k : nat) :
  scan_loop (length png + k) png ctype (8 + 25)
    {| ch_pal := pal_uninit stack_pal; ch_pal_a := replicate 256 xff; ch_idat := [] |}
  = scan_chunks stack_pal png ctype.
Proof.
  unfold scan_chunks. destruct png as [|b png].
  - destruct k; reflexivity.
  - apply scan_loop_fuel. cbn [length]. lia.
Qed.

Lemma to_int_range (z : Z) : -2147483648 <= to_int z < 2147483648.
Proof.
  unfold to_int. pose proof (Z.mod_pos_bound z 4294967296 ltac:(lia)).
  case_if; zb; lia.
Qed.

Lemma to_int_id (z : Z) : -2147483648 <= z < 2147483648 -> to_int z = z.
Proof.
  intros Hz. unfold to_int.
  destruct (Z.lt_ge_cases z 0) as [Hneg|Hpos].
  - replace (z mod 4294967296) with (z + 4294967296)
      by (apply (Z.mod_unique z 4294967296 (-1)); lia).
    case_if; zb; lia.
  - rewrite Z.mod_small by lia. case_if; zb; lia.
Qed.

(** More turns than [2 * length dp + 1] change nothing in the scanline
    loop: a turn takes a byte or completes a scanline.  This holds for
    every stride an [int] can hold except [INT_MAX], where [sl_pos]
    would overflow. *)
Lemma feed_loop_fuel (im : image) (n : nat) :
  -2147483648 <= img_stride im < 2147483647 ->
  forall (k : nat) (s : decoder) (dp : list byte),
    -2147483648 <= sl_pos s < 2147483648 ->
    (2 * Z.of_nat (length dp) + (if sl_pos s =? 0 then 0 else 1) <= Z.of_nat n) ->
    feed_loop im (n + k) s dp = feed_loop im n s dp.
Proof.
  intros Hst. induction n as [|n IH]; intros k s dp Hp Hm.
  - assert (Hnil : dp = []).
    { destruct dp; [reflexivity|]. cbn [length] in Hm.
      destruct (sl_pos s =? 0); lia. }
    subst dp. destruct k; reflexivity.
  - cbn [Nat.add feed_loop].
    destruct ((0 <? Z.of_nat (length dp)) && (row s <? to_int (img_h im))) eqn:Hc;
      [|reflexivity].
    zb. destruct (Z.eqb_spec (sl_pos s) 0) as [Hz|Hz].
    + apply IH; cbn [sl_pos]; [lia|]. rewrite length_drop. cbn. lia.
    + set (need := u32 (img_stride im - (sl_pos s - 1))).
      set (take_n := if Z.of_nat (length dp) <? need then Z.of_nat (length dp) else need).
      assert (Hneed : 0 <= need) by (apply Z.mod_pos_bound; lia).
      assert (Htk : 0 <= take_n <= Z.of_nat (length dp)) by (unfold take_n; case_if; zb; lia).
      destruct (Z.eq_dec take_n 0) as [Ht0|Ht0].
      * assert (Hn0 : need = 0) by (unfold take_n in Ht0; revert Ht0; case_if; zb; lia).
        assert (Heq : img_stride im = sl_pos s - 1).
        { unfold need, u32 in Hn0. apply Z.mod_divide in Hn0; [|lia].
          destruct Hn0 as [q Hq]. lia. }
        rewrite Ht0. change (to_int 0) with 0. rewrite Z.add_0_r.
        rewrite (to_int_id (sl_pos s)) by lia.
        destruct (Z.ltb_spec (img_stride im) (sl_pos s)); [|lia].
        apply IH.
        -- unfold scanline_complete. rewrite sl_pos_emit_scanline. lia.
        -- unfold scanline_complete. rewrite sl_pos_emit_scanline.
           change (Z.to_nat 0) with 0%nat. rewrite drop_0. cbn. lia.
      * apply IH.
        -- case_if; [unfold scanline_complete; rewrite sl_pos_emit_scanline; lia|].
           cbn [sl_pos]. apply to_int_range.
        -- rewrite length_drop.
           destruct (_ =? 0); lia.
Qed.

Lemma feed_fuel (im : image) (s : decoder) (dp : list byte) (k : nat) :
  -2147483648 <= img_stride im < 2147483647 ->
  -2147483648 <= sl_pos s < 2147483648 ->
  feed_loop im (2 * length dp + 1 + k) s dp = feed im s dp.
Proof.
  intros Hst Hp. unfold feed. apply feed_loop_fuel; [exact Hst | exact Hp |].
  destruct (sl_pos s =? 0); lia.
Qed.

(** * Further properties of the code *)

(** ** The Paeth predictor picks the nearest neighbour *)

(** X1. [paeth a b c] is one of its three arguments, none of the three
    is nearer to [p = a + b - c] than it, and ties go to [a] before [b]
    before [c]. *)
Theorem paeth_nearest (a b c : byte) :
  let p := bv a + bv b - bv c in
  let d := fun x : byte => Z.abs (p - bv x) in
  (paeth a b c = a \/ paeth a b c = b \/ paeth a b c = c)
  /\ d (paeth a b c) <= d a /\ d (paeth a b c) <= d b /\ d (paeth a b c) <= d c
  /\ (paeth a b c = a <-> d a <= d b /\ d a <= d c)
  /\ (paeth a b c <> a -> (paeth a b c = b <-> d b <= d c)).
Proof.
  intros p d. unfold paeth. fold p. rewrite !c_abs. fold (d a) (d b) (d c).
  destruct (Z.leb_spec (d a) (d b)) as [Hab|Hab];
    destruct (Z.leb_spec (d a) (d c)) as [Hac|Hac];
    destruct (Z.leb_spec (d b) (d c)) as [Hbc|Hbc]; cbn [andb];
    (split; [tauto|]); (split; [lia|]); (split; [lia|]); (split; [lia|]);
    (split; [|intros Hne]); try (split; [intros _; lia | intros _; reflexivity]);
    try tauto.
  all: try (split; [intros ->; lia | intros _; lia]).
  all: try (split; intros; subst; unfold d in *; try lia).
Qed.

(** ** RGB565 packing *)

Lemma land_248 (b : byte) : Z.land (bv b) 248 = bv b / 8 * 8.
Proof. destruct b; vm_compute; reflexivity. Qed.

Lemma land_252 (b : byte) : Z.land (bv b) 252 = bv b / 4 * 4.
Proof. destruct b; vm_compute; reflexivity. Qed.

Lemma pack_sum (r g bl : byte) :
  pack (r, g, bl) = bv r / 8 * 2048 + bv g / 4 * 32 + bv bl / 8.
Proof.
  pose proof (bv_range r) as Hr. pose proof (bv_range g) as Hg.
  pose proof (bv_range bl) as Hb.
  unfold pack, rgb565. rewrite land_248, land_252, Z.shiftr_div_pow2 by lia.
  change (2 ^ 3) with 8.
  assert (HR : 0 <= bv r / 8 < 32) by (split; [apply Z.div_pos | apply Z.div_lt_upper_bound]; lia).
  assert (HG : 0 <= bv g / 4 < 64) by (split; [apply Z.div_pos | apply Z.div_lt_upper_bound]; lia).
  assert (HB : 0 <= bv bl / 8 < 32) by (split; [apply Z.div_pos | apply Z.div_lt_upper_bound]; lia).
  set (R := bv r / 8) in *. set (G := bv g / 4) in *. set (B := bv bl / 8) in *.
  replace (Z.shiftl (R * 8) 8) with (Z.shiftl (Z.shiftl R 6) 5)
    by (rewrite !Z.shiftl_mul_pow2 by lia; lia).
  replace (Z.shiftl (G * 4) 3) with (Z.shiftl G 5)
    by (rewrite !Z.shiftl_mul_pow2 by lia; lia).
  rewrite <- Z.shiftl_lor.
  rewrite (lor_shiftl_add R G 6) by (change (2 ^ 6) with 64; lia).
  rewrite (lor_shiftl_add _ B 5) by (change (2 ^ 5) with 32; lia).
  change (2 ^ 6) with 64. change (2 ^ 5) with 32.
  rewrite u16_small by lia. lia.
Qed.

(** X2. The RGB565 word of a pixel holds the top five bits of red, the
    top six of green and the top five of blue, each in a field of its
    own: the word fits 16 bits, the three fields can be read back from
    it, and two pixels pack alike exactly when they agree on those
    bits. *)
Theorem pack_fields (r g bl r' g' bl' : byte) :
  0 <= pack (r, g, bl) < 65536
  /\ pack (r, g, bl) / 2048 = bv r / 8
  /\ (pack (r, g, bl) / 32) mod 64 = bv g / 4
  /\ pack (r, g, bl) mod 32 = bv bl / 8
  /\ (pack (r, g, bl) = pack (r', g', bl') <->
      bv r / 8 = bv r' / 8 /\ bv g / 4 = bv g' / 4 /\ bv bl / 8 = bv bl' / 8).
Proof.
  rewrite !pack_sum.
  pose proof (bv_range r) as Hr. pose proof (bv_range g) as Hg.
  pose proof (bv_range bl) as Hb.
  pose proof (bv_range r') as Hr'. pose proof (bv_range g') as Hg'.
  pose proof (bv_range bl') as Hb'.
  assert (HR : 0 <= bv r / 8 < 32) by (split; [apply Z.div_pos | apply Z.div_lt_upper_bound]; lia).
  assert (HG : 0 <= bv g / 4 < 64) by (split; [apply Z.div_pos | apply Z.div_lt_upper_bound]; lia).
  assert (HB : 0 <= bv bl / 8 < 32) by (split; [apply Z.div_pos | apply Z.div_lt_upper_bound]; lia).
  assert (HR' : 0 <= bv r' / 8 < 32) by (split; [apply Z.div_pos | apply Z.div_lt_upper_bound]; lia).
  assert (HG' : 0 <= bv g' / 4 < 64) by (split; [apply Z.div_pos | apply Z.div_lt_upper_bound]; lia).
  assert (HB' : 0 <= bv bl' / 8 < 32) by (split; [apply Z.div_pos | apply Z.div_lt_upper_bound]; lia).
  set (R := bv r / 8) in *. set (G := bv g / 4) in *. set (B := bv bl / 8) in *.
  set (R' := bv r' / 8) in *. set (G' := bv g' / 4) in *. set (B' := bv bl' / 8) in *.
  split; [lia|]. split.
  { symmetry. apply (Z.div_unique _ 2048 R (G * 32 + B)); lia. }
  split.
  { replace ((R * 2048 + G * 32 + B) / 32) with (R * 64 + G)
      by (apply (Z.div_unique _ 32 _ B); lia).
    symmetry. apply (Z.mod_unique _ 64 R G); lia. }
  split.
  { symmetry. apply (Z.mod_unique _ 32 (R * 64 + G) B); lia. }
  split; [lia | intros (-> & -> & ->); reflexivity].
Qed.

(** ** Pixel extraction *)

Lemma rd_slice (cur : list byte) (off n i : Z) :
  0 <= off -> 0 <= i < n ->
  rd (take (Z.to_nat n) (drop (Z.to_nat off) cur)) i = rd cur (off + i).
Proof.
  intros Hoff Hi. rewrite rd_take by lia. rewrite rd_drop by lia.
  f_equal. lia.
Qed.

(** X3. [get_pixel] decodes pixel [x] from the [bpp] bytes of that pixel
    and from nothing else in the scanline: the bytes it reads lie at
    offsets [x * bpp .. x * bpp + bpp - 1]. *)
Theorem get_pixel_reads_own_bytes (cur : list byte) (x ctype bpc bpp : Z)
    (pal : palette) :
  bytes_per_pixel ctype bpc = Some bpp -> bpc = 1 \/ bpc = 2 ->
  0 <= x -> (x + 1) * bpp <= 4294967296 ->
  get_pixel cur x ctype bpc pal
  = get_pixel (take (Z.to_nat bpp) (drop (Z.to_nat (x * bpp)) cur)) 0 ctype bpc pal.
Proof.
  intros Hbpp Hbpc Hx Hfit.
  apply bytes_per_pixel_Some in Hbpp.
  unfold get_pixel.
  destruct Hbpc as [-> | ->];
    destruct Hbpp as [[-> ->] | [[-> ->] | [[-> ->] | [[-> ->] | [-> ->]]]]];
    cbn [Z.eqb Pos.eqb]; try reflexivity;
    rewrite ?(u32_small (x * _)) by lia;
    change (u32 (0 * _)) with 0;
    repeat match goal with
    | |- context [rd (take (Z.to_nat ?n) (drop (Z.to_nat ?off) cur)) ?i] =>
        rewrite (rd_slice cur off n i) by lia
    end;
    rewrite ?Z.add_0_r, ?Z.mul_1_r; try reflexivity.
  all: repeat f_equal; lia.
Qed.

Lemma get_pixel_reads_own_bytes_witness :
  bytes_per_pixel 2 1 = Some 3
  /\ get_pixel [x01; x02; x03; x04; x05; x06] 1 2 1 []
     = get_pixel (take 3 (drop 3 [x01; x02; x03; x04; x05; x06])) 0 2 1 [].
Proof.
  split; [reflexivity|].
  apply (get_pixel_reads_own_bytes [x01; x02; x03; x04; x05; x06] 1 2 1 3 []);
    [reflexivity | left; reflexivity | lia | lia].
Defined.

Lemma rd_high_bytes (cur : list byte) (j : Z) :
  0 <= j < Z.of_nat (length cur) / 2 -> rd (high_bytes cur) j = rd cur (2 * j).
Proof.
  intros H. unfold rd at 1. unfold high_bytes. rewrite list_lookup_fmap.
  rewrite lookup_seqZ_lt by lia. simpl. f_equal. lia.
Qed.

(** X4. With 16-bit samples [get_pixel] keeps the high byte of each
    sample: a 16-bit scanline gives the pixels of the 8-bit scanline made
    of its high bytes. *)
Theorem get_pixel_16bit_high_byte (cur : list byte) (x ctype bpp : Z)
    (pal : palette) :
  bytes_per_pixel ctype 1 = Some bpp -> ctype <> 3 ->
  0 <= x -> 2 * ((x + 1) * bpp) <= Z.of_nat (length cur) ->
  Z.of_nat (length cur) <= 4294967296 ->
  get_pixel cur x ctype 2 pal = get_pixel (high_bytes cur) x ctype 1 pal.
Proof.
  intros Hbpp Hc Hx Hfit Hlen.
  apply bytes_per_pixel_Some in Hbpp.
  assert (Hhalf : forall j, 0 <= j < (x + 1) * bpp ->
                    rd (high_bytes cur) j = rd cur (2 * j)).
  { intros j Hj. apply rd_high_bytes. split; [lia|].
    assert ((x + 1) * bpp <= Z.of_nat (length cur) / 2)
      by (apply Z.div_le_lower_bound; lia).
    lia. }
  unfold get_pixel.
  destruct Hbpp as [[-> ->] | [[-> ->] | [[-> ->] | [[-> ->] | [-> ->]]]]];
    cbn [Z.eqb Pos.eqb]; try congruence;
    rewrite ?(u32_small (x * _)) by lia;
    rewrite ?Hhalf by lia;
    (f_equal; [f_equal|]); apply (f_equal (rd cur)); lia.
Qed.

Lemma get_pixel_16bit_high_byte_witness :
  high_bytes [x12; x34; x56; x78; x9a; xbc] = [x12; x56; x9a]
  /\ get_pixel [x12; x34; x56; x78; x9a; xbc] 0 2 2 [] = (x12, x56, x9a).
Proof.
  split; [reflexivity|].
  rewrite (get_pixel_16bit_high_byte [x12; x34; x56; x78; x9a; xbc] 0 2 3 []);
    [reflexivity | reflexivity | discriminate | lia | cbn; lia | cbn; lia].
Defined.

(** ** Inverse filtering: edge cases *)

Lemma fold_left_id {A B : Type} (f : A -> B -> A) (l : list B) (a : A) :
  (forall a b, f a b = a) -> fold_left f l a = a.
Proof. intros Hf. induction l as [|b l IH]; [reflexivity|]. cbn. rewrite Hf. exact IH. Qed.

Lemma fold_left_ext_all {A B : Type} (f g : A -> B -> A) (l : list B) (a : A) :
  (forall a b, f a b = g a b) -> fold_left f l a = fold_left g l a.
Proof.
  intros Hfg. revert a. induction l as [|b l IH]; intros a; [reflexivity|].
  cbn. rewrite Hfg. apply IH.
Qed.

(** X5. A filter-type byte other than 1, 2, 3, 4 is no error: the
    scanline is taken as it is, as with filter type 0. *)
Theorem unfilter_unknown_type (flt : byte) (bpp stride : Z) (cur prev : list byte) :
  bv flt = 0 \/ 4 < bv flt ->
  unfilter flt bpp stride cur prev = cur.
Proof.
  intros H. unfold unfilter. apply fold_left_id. intros c i.
  unfold unfilter_byte.
  pose proof (bv_range flt) as Hr.
  destruct (bv flt) as [|p|p]; [reflexivity | | lia].
  do 3 (destruct p as [p|p|]; try reflexivity; try lia).
Qed.

Lemma unfilter_unknown_type_witness :
  (bv xff = 0 \/ 4 < bv xff)
  /\ unfilter xff 3 6 [x0a; xff; x03; x80; x7f; x01] [x09; x10; xfe; x80; x00; x81]
     = [x0a; xff; x03; x80; x7f; x01].
Proof.
  assert (H : bv xff = 0 \/ 4 < bv xff) by (right; vm_compute; reflexivity).
  split; [exact H|]. exact (unfilter_unknown_type xff 3 6 _ _ H).
Defined.

Lemma rd_replicate_x00 (n : nat) (i : Z) : rd (replicate n x00) i = x00.
Proof.
  unfold rd. destruct (replicate n x00 !! Z.to_nat i) as [b|] eqn:E; [|reflexivity].
  apply lookup_replicate in E. destruct E as [-> _]. reflexivity.
Qed.

Lemma paeth_first_row (a : byte) : paeth a x00 x00 = a.
Proof.
  unfold paeth. change (bv x00) with 0. pose proof (bv_range a).
  rewrite !c_abs. repeat case_if; try reflexivity; zb; lia.
Qed.

Lemma insert_same_byte (cur : list byte) (i : Z) :
  <[Z.to_nat i := rd cur i]> cur = cur.
Proof.
  unfold rd. destruct (cur !! Z.to_nat i) as [b|] eqn:E.
  - apply list_insert_id. exact E.
  - apply list_insert_ge. apply lookup_ge_None. exact E.
Qed.

(** X6. On the first scanline, where the scanline above is the zeroed
    buffer, filter Up changes nothing and filter Paeth acts as filter
    Sub. *)
Theorem unfilter_first_row (bpp stride : Z) (n : nat) (cur : list byte) :
  unfilter x02 bpp stride cur (replicate n x00) = cur
  /\ unfilter x04 bpp stride cur (replicate n x00)
     = unfilter x01 bpp stride cur (replicate n x00).
Proof.
  unfold unfilter. split.
  - apply fold_left_id. intros c i. unfold unfilter_byte.
    change (bv x02) with 2. cbv iota beta. rewrite rd_replicate_x00.
    change (bv x00) with 0. rewrite Z.add_0_r, to_u8_bv. apply insert_same_byte.
  - apply fold_left_ext_all. intros c i. unfold unfilter_byte.
    change (bv x04) with 4. change (bv x01) with 1. cbv iota beta.
    rewrite !rd_replicate_x00.
    destruct (bpp <=? i); rewrite paeth_first_row; reflexivity.
Qed.

(** ** sped_decode in two cases: the header is refused, or the loop runs *)

Lemma unsupported_dec (png : list byte) (scale : Z) :
  {unsupported png scale} + {~ unsupported png scale}.
Proof.
  unfold unsupported.
  assert (D : Decision
    (ihdr_compression png <> 0 \/ ihdr_filter png <> 0 \/ ihdr_interlace png <> 0
     \/ (ihdr_depth png <> 8 /\ ihdr_depth png <> 16)
     \/ (ihdr_depth png = 16 /\ ihdr_ctype png = 3)
     \/ (ihdr_ctype png <> 0 /\ ihdr_ctype png <> 2 /\ ihdr_ctype png <> 3
         /\ ihdr_ctype png <> 4 /\ ihdr_ctype png <> 6)
     \/ ihdr_w png = 0 \/ ihdr_h png = 0
     \/ (scale <> 1 /\ scale <> 2 /\ scale <> 4)
     \/ ihdr_w png / scale = 0 \/ ihdr_h png / scale = 0)) by apply _.
  exact D.
Qed.

(** The header checks of [sped_decode] (lines 88-130) fail. *)
Lemma sped_decode_refused (tinfl : inflater) (alloc : Z -> bool)
    (stack_pal : Z -> rgb) (fuel : nat) (png : list byte) (scale : Z) :
  sped_info png = None \/ unsupported png scale ->
  sped_decode tinfl alloc stack_pal fuel png scale = Some (-1, []).
Proof.
  unfold sped_info, unsupported, ihdr_compression, ihdr_filter, ihdr_interlace,
    ihdr_depth, ihdr_ctype, ihdr_w, ihdr_h.
  intros H. unfold sped_decode. cbv zeta.
  destruct ((Z.of_nat (length png) <? 33) || negb (bytes_at png 0 png_sig));
    [repeat case_if; reflexivity|].
  destruct (negb (r32 png 8 =? 13) || negb (bytes_at png 12 (tag "IHDR")));
    [repeat case_if; reflexivity|].
  destruct H as [H|H]; [discriminate|].
  destruct (bytes_per_pixel (bv (rd png 25)) (Z.quot (bv (rd png 24)) 8)) as [bpp|] eqn:Ebpp.
  - apply bytes_per_pixel_Some in Ebpp.
    repeat case_if; try reflexivity; exfalso; zb; intuition lia.
  - repeat case_if; reflexivity.
Qed.

(** The header checks pass: what is left is the chunk scan, the
    allocations and the decoding loop (lines 132-309). *)
Lemma sped_decode_accepted (tinfl : inflater) (alloc : Z -> bool)
    (stack_pal : Z -> rgb) (fuel : nat) (png : list byte) (scale : Z) :
  sped_info png <> None -> ~ unsupported png scale ->
  let im := image_of stack_pal png scale in
  let c := scan_chunks stack_pal png (ihdr_ctype png) in
  sped_decode tinfl alloc stack_pal fuel png scale
  = if Z.of_nat (length (ch_idat c)) =? 0 then Some (-1, [])
    else if negb (alloc (u32 (img_stride im))) || negb (alloc (u32 (img_stride im)))
            || negb (alloc (u32 (img_out_w im * 2))) || negb (alloc TINFL_LZ_DICT_SIZE)
            || ((1 <? scale) && negb (alloc (u32 (img_out_w im * 3) * 2)))
    then Some (-1, [])
    else inflate_loop tinfl im (ch_idat c) fuel (tinfl_init tinfl) 0 0
           (default [] (ch_idat c !! 0%nat)) (decoder_init im).
Proof.
  intros Hhdr Hsup im c. subst im c.
  unfold sped_info in Hhdr. unfold unsupported in Hsup.
  unfold image_of, decoder_init.
  unfold ihdr_compression, ihdr_filter, ihdr_interlace, ihdr_depth, ihdr_ctype,
    ihdr_w, ihdr_h in *.
  unfold sped_decode. cbv zeta.
  replace (negb (scale =? 1) && negb (scale =? 2) && negb (scale =? 4)) with false
    by (symmetry; apply andb_false_iff; rewrite andb_false_iff, !negb_false_iff, !Z.eqb_eq; lia).
  destruct ((Z.of_nat (length png) <? 33) || negb (bytes_at png 0 png_sig));
    [congruence|].
  destruct (negb (r32 png 8 =? 13) || negb (bytes_at png 12 (tag "IHDR")));
    [congruence|].
  replace (negb (bv (rd png 26) =? 0)) with false
    by (symmetry; rewrite negb_false_iff, Z.eqb_eq; lia).
  replace (negb (bv (rd png 27) =? 0)) with false
    by (symmetry; rewrite negb_false_iff, Z.eqb_eq; lia).
  replace (negb (bv (rd png 28) =? 0)) with false
    by (symmetry; rewrite negb_false_iff, Z.eqb_eq; lia).
  replace (negb (bv (rd png 24) =? 8) && negb (bv (rd png 24) =? 16)) with false
    by (symmetry; rewrite andb_false_iff, !negb_false_iff, !Z.eqb_eq; lia).
  replace ((bv (rd png 24) =? 16) && (bv (rd png 25) =? 3)) with false
    by (symmetry; rewrite andb_false_iff, !Z.eqb_neq; lia).
  replace ((r32 png 16 =? 0) || (r32 png 20 =? 0)) with false
    by (symmetry; rewrite orb_false_iff, !Z.eqb_neq; lia).
  destruct (bytes_per_pixel (bv (rd png 25)) (Z.quot (bv (rd png 24)) 8)) as [bpp|] eqn:Ebpp.
  2:{ exfalso. unfold bytes_per_pixel in Ebpp.
      assert (Hc : bv (rd png 25) = 0 \/ bv (rd png 25) = 2 \/ bv (rd png 25) = 3
                   \/ bv (rd png 25) = 4 \/ bv (rd png 25) = 6) by lia.
      destruct Hc as [Hc | [Hc | [Hc | [Hc | Hc]]]]; rewrite Hc in Ebpp; discriminate. }
  replace ((r32 png 16 / scale =? 0) || (r32 png 20 / scale =? 0)) with false
    by (symmetry; rewrite orb_false_iff, !Z.eqb_neq; lia).
  reflexivity.
Qed.

(** The image record of an accepted header whose height and scanline
    size fit an [int]. *)
Lemma accepted_image_ok (stack_pal : Z -> rgb) (png : list byte) (scale : Z) :
  ~ unsupported png scale ->
  ihdr_h png < 2147483648 ->
  ihdr_w png * img_bpp (image_of stack_pal png scale) < 2147483647 ->
  image_ok (image_of stack_pal png scale).
Proof.
  intros Hsup Hh Hstr. unfold unsupported in Hsup.
  assert (Hd : ihdr_depth png = 8 \/ ihdr_depth png = 16) by lia.
  assert (Hc : ihdr_ctype png = 0 \/ ihdr_ctype png = 2 \/ ihdr_ctype png = 3
               \/ ihdr_ctype png = 4 \/ ihdr_ctype png = 6) by lia.
  assert (Hbpp : exists bpp,
             bytes_per_pixel (ihdr_ctype png) (Z.quot (ihdr_depth png) 8) = Some bpp
             /\ img_bpp (image_of stack_pal png scale) = bpp /\ 1 <= bpp <= 8).
  { unfold image_of; simpl.
    destruct Hd as [-> | ->]; destruct Hc as [-> | [-> | [-> | [-> | ->]]]];
      eexists; (split; [reflexivity|]); simpl; split;
      first [reflexivity | lia | (vm_compute; split; discriminate)]. }
  destruct Hbpp as (bpp & Ebpp & Hbpp & Hb).
  pose proof (r32_range png 16). pose proof (r32_range png 20).
  rewrite Hbpp in Hstr.
  assert (Hw : 0 < r32 png 16 / scale).
  { unfold ihdr_w in Hsup. pose proof (Z.div_pos (r32 png 16) scale). lia. }
  constructor; rewrite ?Hbpp; unfold image_of; simpl; fold (ihdr_w png) (ihdr_h png);
    unfold ihdr_w, ihdr_h in *; try lia.
  rewrite Ebpp. simpl. rewrite u32_small, to_int_small; nia.
Qed.

(** ** sped_info and sped_decode agree on the header *)

(** X7. [sped_decode] fails, with no callback, on every input
    [sped_info] fails on (the empty input among them); and when
    [sped_decode] does anything else than fail without a callback,
    [sped_info] succeeds on the same input and reports dimensions that
    are at least the scale. *)
Theorem decode_needs_info (tinfl : inflater) (alloc : Z -> bool)
    (stack_pal : Z -> rgb) (fuel : nat) (png : list byte) (scale : Z) :
  (sped_info png = None ->
   sped_decode tinfl alloc stack_pal fuel png scale = Some (-1, []))
  /\ (sped_decode tinfl alloc stack_pal fuel png scale <> Some (-1, []) ->
      exists info, sped_info png = Some info
                   /\ 1 <= scale <= width info /\ scale <= height info).
Proof.
  split.
  - intros H. apply sped_decode_refused. left. exact H.
  - intros H.
    destruct (sped_info png) as [info|] eqn:Einfo.
    2:{ exfalso. apply H, sped_decode_refused. left. exact Einfo. }
    destruct (unsupported_dec png scale) as [Hu|Hu].
    { exfalso. apply H, sped_decode_refused. right. exact Hu. }
    exists info. split; [reflexivity|].
    revert Einfo. unfold sped_info. repeat case_if; try discriminate.
    intros [= <-]. cbn [width height].
    unfold unsupported, ihdr_w, ihdr_h in Hu.
    pose proof (r32_range png 16). pose proof (r32_range png 20).
    assert (Hs : scale = 1 \/ scale = 2 \/ scale = 4) by lia.
    assert (r32 png 16 / scale <> 0 /\ r32 png 20 / scale <> 0) as [Hw Hh] by lia.
    assert (scale <= r32 png 16).
    { destruct (Z.lt_ge_cases (r32 png 16) scale); [|lia].
      rewrite Z.div_small in Hw by lia. lia. }
    assert (scale <= r32 png 20).
    { destruct (Z.lt_ge_cases (r32 png 20) scale); [|lia].
      rewrite Z.div_small in Hh by lia. lia. }
    lia.
Qed.

(** ** Failures before the decoding loop *)

(** X8. When an allocation is refused, whichever of the five it is,
    [sped_decode] returns -1 and makes no callback. *)
Theorem decode_alloc_refused (tinfl : inflater) (alloc : Z -> bool)
    (stack_pal : Z -> rgb) (fuel : nat) (png : list byte) (scale : Z) :
  let im := image_of stack_pal png scale in
  alloc (u32 (img_stride im)) = false
  \/ alloc (u32 (img_out_w im * 2)) = false
  \/ alloc TINFL_LZ_DICT_SIZE = false
  \/ (1 < scale /\ alloc (u32 (img_out_w im * 3) * 2) = false) ->
  sped_decode tinfl alloc stack_pal fuel png scale = Some (-1, []).
Proof.
  intros im H.
  destruct (sped_info png) as [info|] eqn:Einfo.
  2:{ apply sped_decode_refused. left. exact Einfo. }
  destruct (unsupported_dec png scale) as [Hu|Hu].
  { apply sped_decode_refused. right. exact Hu. }
  rewrite sped_decode_accepted by (try exact Hu; rewrite Einfo; discriminate).
  fold im. case_if; [reflexivity|].
  destruct H as [-> | [-> | [-> | [Hs ->]]]]; cbn [negb orb andb];
    rewrite ?orb_true_r; try reflexivity.
  replace (1 <? scale) with true by (symmetry; apply Z.ltb_lt; exact Hs).
  cbn [andb]. rewrite ?orb_true_r. reflexivity.
Qed.

Lemma decode_alloc_refused_witness :
  alloc_no_dict TINFL_LZ_DICT_SIZE = false
  /\ sped_decode Stored.stored alloc_no_dict no_stack 100 png_2x2 1 = Some (-1, []).
Proof.
  split; [reflexivity|].
  apply (decode_alloc_refused Stored.stored alloc_no_dict no_stack 100 png_2x2 1).
  right; right; left. reflexivity.
Defined.

(** X9. A height of 2^31 or more is negative as an [int], so the
    decoding loop [while (row < (int)h)] never runs: once the header, the
    chunk scan and the allocations have passed, [sped_decode] returns 0
    without a callback and without a call of the decompressor, whatever
    the IDAT data. *)
Theorem decode_huge_height (tinfl : inflater) (alloc : Z -> bool)
    (stack_pal : Z -> rgb) (fuel : nat) (png : list byte) (scale : Z) :
  sped_info png <> None -> ~ unsupported png scale ->
  2147483648 <= ihdr_h png ->
  ch_idat (scan_chunks stack_pal png (ihdr_ctype png)) <> [] ->
  (forall n, alloc n = true) ->
  sped_decode tinfl alloc stack_pal fuel png scale = Some (0, []).
Proof.
  intros Hi Hu Hh Hidat Halloc.
  rewrite sped_decode_accepted by assumption.
  rewrite !Halloc. cbn [negb orb]. rewrite andb_false_r.
  destruct (ch_idat _) as [|i0 idat]; [congruence|].
  cbn [length]. replace (Z.of_nat (S (length idat)) =? 0) with false
    by (symmetry; apply Z.eqb_neq; lia).
  assert (Hneg : to_int (ihdr_h png) < 0).
  { unfold to_int. pose proof (r32_range png 20) as Hr. unfold ihdr_h in *.
    rewrite Z.mod_small by lia.
    destruct (Z.ltb_spec (r32 png 20) 2147483648); lia. }
  destruct fuel; cbn [inflate_loop image_of img_h decoder_init row calls];
    destruct (Z.ltb_spec 0 (to_int (ihdr_h png))); try lia; reflexivity.
Qed.

Lemma decode_huge_height_witness :
  sped_info png_huge_height <> None /\ ~ unsupported png_huge_height 1
  /\ 2147483648 <= ihdr_h png_huge_height
  /\ ch_idat (scan_chunks no_stack png_huge_height (ihdr_ctype png_huge_height)) <> []
  /\ sped_decode Stored.stored alloc_any no_stack 0 png_huge_height 1 = Some (0, []).
Proof.
  assert (Hi : sped_info png_huge_height <> None) by (vm_compute; discriminate).
  assert (Hu : ~ unsupported png_huge_height 1).
  { unfold unsupported.
    change (ihdr_compression png_huge_height) with 0.
    change (ihdr_filter png_huge_height) with 0.
    change (ihdr_interlace png_huge_height) with 0.
    change (ihdr_depth png_huge_height) with 8.
    change (ihdr_ctype png_huge_height) with 2.
    change (ihdr_w png_huge_height) with 2.
    change (ihdr_h png_huge_height) with 2147483650.
    vm_compute. intuition discriminate. }
  assert (Hh : 2147483648 <= ihdr_h png_huge_height) by (vm_compute; discriminate).
  assert (Hd : ch_idat (scan_chunks no_stack png_huge_height (ihdr_ctype png_huge_height)) <> [])
    by (vm_compute; discriminate).
  split; [exact Hi|]. split; [exact Hu|]. split; [exact Hh|]. split; [exact Hd|].
  exact (decode_huge_height Stored.stored alloc_any no_stack 0 png_huge_height 1
           Hi Hu Hh Hd (fun _ => eq_refl)).
Defined.

(** ** Whatever the decompressor does *)

Section AnyInflater.
Variable tinfl : inflater.
Variable im : image.
Variable idat : list (list byte).

(** The loop returns 0 or -1, and the calls it has made are those of
    the decoder fed with the windows the decompressor delivered. *)
Lemma inflate_loop_windows (fuel : nat) :
  forall (d : tinfl_state tinfl) (dict_ofs ci : Z) (inp : list byte) (s : decoder)
         (ret : Z) (cs : list cb_call),
    inflate_loop tinfl im idat fuel d dict_ofs ci inp s = Some (ret, cs) ->
    (ret = 0 \/ ret = -1)
    /\ exists windows, cs = calls (fold_left (feed im) windows s).
Proof.
  induction fuel as [|fuel IH]; intros d dict_ofs ci inp s ret cs; cbn [inflate_loop].
  - destruct (negb (row s <? to_int (img_h im))); [|discriminate].
    intros [= <- <-]. split; [left; reflexivity | exists []; reflexivity].
  - destruct (negb (row s <? to_int (img_h im))).
    { intros [= <- <-]. split; [left; reflexivity | exists []; reflexivity]. }
    cbv zeta.
    set (r := tinfl_decompress tinfl d inp (TINFL_LZ_DICT_SIZE - dict_ofs) _).
    destruct (t_status r =? TINFL_STATUS_DONE).
    { intros [= <- <-]. split; [left; reflexivity | exists [t_out r]; reflexivity]. }
    destruct (t_status r <? 0).
    { intros [= <- <-]. split; [right; reflexivity | exists [t_out r]; reflexivity]. }
    intros H. apply IH in H. destruct H as (Hret & ws & ->).
    split; [exact Hret | exists (t_out r :: ws); reflexivity].
Qed.
End AnyInflater.

Lemma fold_feed_ok (im : image) (windows : list (list byte)) (s : decoder) :
  image_ok im -> decoder_ok im s -> decoder_ok im (fold_left (feed im) windows s).
Proof.
  intros Him. revert s. induction windows as [|w ws IH]; intros s Hok; [exact Hok|].
  cbn [fold_left]. apply IH, (feed_ok im Him), Hok.
Qed.

(** X10. Whatever the decompressor returns, well-behaved or not, and
    whatever the file holds after its header: when [sped_decode] returns,
    it returns 0 or -1, the callbacks it has made stand for no more than
    [h] scanlines ([scale] each), their row numbers are 0, 1, 2, ...
    without a gap, and each carries [w / scale] pixels.  The header must
    announce a height and a scanline size that fit an [int]. *)
Theorem decode_calls_always_in_order (tinfl : inflater) (alloc : Z -> bool)
    (stack_pal : Z -> rgb) (fuel : nat) (png : list byte) (scale : Z)
    (ret : Z) (cs : list cb_call) :
  ihdr_h png < 2147483648 ->
  ihdr_w png * img_bpp (image_of stack_pal png scale) < 2147483647 ->
  sped_decode tinfl alloc stack_pal fuel png scale = Some (ret, cs) ->
  (ret = 0 \/ ret = -1)
  /\ Z.of_nat (length cs) * scale <= ihdr_h png
  /\ map cb_y cs = seqZ 0 (Z.of_nat (length cs))
  /\ Forall (fun c => cb_w c = ihdr_w png / scale
                      /\ Z.of_nat (length (cb_row c)) = ihdr_w png / scale) cs.
Proof.
  intros Hh Hstr Hdec.
  pose proof (r32_range png 20) as Hr. fold (ihdr_h png) in Hr.
  assert (Hnone : Some (-1, []) = Some (ret, cs) ->
    (ret = 0 \/ ret = -1)
    /\ Z.of_nat (length cs) * scale <= ihdr_h png
    /\ map cb_y cs = seqZ 0 (Z.of_nat (length cs))
    /\ Forall (fun c => cb_w c = ihdr_w png / scale
                        /\ Z.of_nat (length (cb_row c)) = ihdr_w png / scale) cs).
  { intros [= <- <-]. split; [right; reflexivity|]. split; [cbn; lia|].
    split; [reflexivity | constructor]. }
  destruct (sped_info png) as [info|] eqn:Einfo.
  2:{ rewrite sped_decode_refused in Hdec by (left; exact Einfo). auto. }
  destruct (unsupported_dec png scale) as [Hu|Hu].
  { rewrite sped_decode_refused in Hdec by (right; exact Hu). auto. }
  rewrite sped_decode_accepted in Hdec by (try exact Hu; rewrite Einfo; discriminate).
  revert Hdec. case_if; [exact Hnone|]. case_if; [exact Hnone|]. intros Hdec.
  pose proof (accepted_image_ok stack_pal png scale Hu Hh Hstr) as Him.
  set (im := image_of stack_pal png scale) in *.
  apply inflate_loop_windows in Hdec. destruct Hdec as (Hret & ws & ->).
  split; [exact Hret|].
  destruct (reachable_rows_done im Him ws) as [done Hd].
  pose proof (fold_feed_ok im ws _ Him (decoder_init_ok im Him)) as Hok.
  set (s := fold_left (feed im) ws (decoder_init im)) in *.
  rewrite (rd_calls _ _ _ Hd).
  assert (Hlen : Z.of_nat (length done) <= ihdr_h png).
  { rewrite <- (rd_row _ _ _ Hd). destruct Hok as [_ Hrow _ _]. exact (proj2 Hrow). }
  assert (Hs : scale = 1 \/ scale = 2 \/ scale = 4) by (unfold unsupported in Hu; lia).
  assert (Hq : 0 <= Z.of_nat (length done) / scale) by (apply Z.div_pos; lia).
  assert (Hw : 0 <= ihdr_w png / scale).
  { pose proof (r32_range png 16). apply Z.div_pos; unfold ihdr_w; lia. }
  unfold expected_calls. cbn [img_scale img_out_w image_of im].
  rewrite !length_map, !length_seqZ, Z2Nat.id by lia.
  split; [|split].
  - pose proof (Z.mul_div_le (Z.of_nat (length done)) scale ltac:(lia)). lia.
  - rewrite map_map. cbn [cb_y]. apply map_id.
  - apply List.Forall_forall. intros c Hc. apply in_map_iff in Hc.
    destruct Hc as (oy & <- & _). cbn [cb_w cb_row].
    split; [reflexivity|]. rewrite length_map, length_seqZ. lia.
Qed.

Lemma decode_calls_always_in_order_witness :
  ihdr_h png_2x2_short < 2147483648
  /\ ihdr_w png_2x2_short * img_bpp (image_of no_stack png_2x2_short 1) < 2147483647
  /\ sped_decode Stored.stored alloc_any no_stack 100 png_2x2_short 1
     = Some (0, [{| cb_y := 0; cb_w := 2; cb_row := [63488; 2016] |}])
  /\ map cb_y [{| cb_y := 0; cb_w := 2; cb_row := [63488; 2016] |}] = seqZ 0 1.
Proof.
  assert (Hh : ihdr_h png_2x2_short < 2147483648) by (vm_compute; reflexivity).
  assert (Hs : ihdr_w png_2x2_short * img_bpp (image_of no_stack png_2x2_short 1)
               < 2147483647) by (vm_compute; reflexivity).
  assert (Hd : sped_decode Stored.stored alloc_any no_stack 100 png_2x2_short 1
               = Some (0, [{| cb_y := 0; cb_w := 2; cb_row := [63488; 2016] |}]))
    by (vm_compute; reflexivity).
  split; [exact Hh|]. split; [exact Hs|]. split; [exact Hd|].
  exact (proj1 (proj2 (proj2 (decode_calls_always_in_order Stored.stored alloc_any
                               no_stack 100 png_2x2_short 1 _ _ Hh Hs Hd)))).
Defined.

(** ** What of the file the decoder looks at *)

(** Two files with the same 33 header bytes whose chunk scans give the
    same palette and the same IDAT slices decode alike. *)
Lemma sped_decode_same_scan (tinfl : inflater) (alloc : Z -> bool)
    (stack_pal : Z -> rgb) (fuel : nat) (hdr body1 body2 : list byte) (scale : Z) :
  length hdr = 33%nat ->
  ch_pal (scan_chunks stack_pal (hdr ++ body1) (ihdr_ctype hdr))
  = ch_pal (scan_chunks stack_pal (hdr ++ body2) (ihdr_ctype hdr)) ->
  ch_idat (scan_chunks stack_pal (hdr ++ body1) (ihdr_ctype hdr))
  = ch_idat (scan_chunks stack_pal (hdr ++ body2) (ihdr_ctype hdr)) ->
  sped_decode tinfl alloc stack_pal fuel (hdr ++ body1) scale
  = sped_decode tinfl alloc stack_pal fuel (hdr ++ body2) scale.
Proof.
  intros Hhdr Hpal Hidat.
  pose proof (hdr_sped_info hdr body1 Hhdr) as Hi1.
  pose proof (hdr_sped_info hdr body2 Hhdr) as Hi2.
  pose proof (hdr_unsupported hdr body1 Hhdr scale) as Hu1.
  pose proof (hdr_unsupported hdr body2 Hhdr scale) as Hu2.
  destruct (sped_info hdr) as [info|] eqn:Einfo.
  2:{ rewrite !sped_decode_refused by (left; assumption). reflexivity. }
  destruct (unsupported_dec hdr scale) as [Hu|Hu].
  { rewrite !sped_decode_refused by (right; tauto). reflexivity. }
  rewrite !sped_decode_accepted by (first [tauto | congruence]).
  destruct (hdr_fields hdr body1 Hhdr) as (_ & _ & _ & Hc1 & _).
  destruct (hdr_fields hdr body2 Hhdr) as (_ & _ & _ & Hc2 & _).
  rewrite Hc1, Hc2, Hidat.
  rewrite (image_of_same_header stack_pal hdr body1 body2 scale Hhdr Hpal).
  reflexivity.
Qed.

(** [apply_chunk] looks at the type and the data of a chunk, and the
    palette and IDAT list it returns depend on the palette and IDAT list
    it is given. *)
Lemma apply_chunk_ext (ctype : Z) (c c' : chunks) (ch ch' : chunk_t) :
  ck_type ch = ck_type ch' -> ck_data ch = ck_data ch' ->
  ch_pal c = ch_pal c' -> ch_idat c = ch_idat c' ->
  ch_pal (apply_chunk ctype c ch) = ch_pal (apply_chunk ctype c' ch')
  /\ ch_idat (apply_chunk ctype c ch) = ch_idat (apply_chunk ctype c' ch').
Proof.
  intros Ht Hd Hp Hi. unfold apply_chunk. rewrite Ht, Hd.
  repeat case_if; cbn [ch_pal ch_idat]; rewrite ?Hp, ?Hi; split; try reflexivity.
  all: rewrite Hi in *; congruence.
Qed.

Lemma fold_apply_chunk_ext (ctype : Z) (cs cs' : list chunk_t) :
  Forall2 (fun a b => ck_type a = ck_type b /\ ck_data a = ck_data b) cs cs' ->
  forall c c', ch_pal c = ch_pal c' -> ch_idat c = ch_idat c' ->
    ch_pal (fold_left (apply_chunk ctype) cs c)
    = ch_pal (fold_left (apply_chunk ctype) cs' c')
    /\ ch_idat (fold_left (apply_chunk ctype) cs c)
       = ch_idat (fold_left (apply_chunk ctype) cs' c').
Proof.
  induction 1 as [|a b cs cs' [Ht Hd] _ IH]; intros c c' Hp Hi; [split; assumption|].
  cbn [fold_left].
  destruct (apply_chunk_ext ctype c c' a b Ht Hd Hp Hi) as [Hp' Hi'].
  apply IH; assumption.
Qed.

Lemma Forall2_same_type_data (cs : list chunk_t) :
  Forall2 (fun a b => ck_type a = ck_type b /\ ck_data a = ck_data b) cs cs.
Proof. induction cs; constructor; auto. Qed.

(** X11. The decoder never looks at a CRC, nor at what follows the IEND
    chunk: two files with the same header whose chunks have the same
    types and data, whatever their CRC bytes and their trailing bytes,
    give the same return value and the same callbacks. *)
Theorem decode_ignores_crc_and_trailer (tinfl : inflater) (alloc : Z -> bool)
    (stack_pal : Z -> rgb) (fuel : nat) (hdr : list byte) (cs cs' : list chunk_t)
    (crc crc' junk junk' : list byte) (scale : Z) :
  length hdr = 33%nat -> length crc = 4%nat -> length crc' = 4%nat ->
  Forall (fun ch => chunk_ok ch /\ ck_type ch <> tag "IEND") cs ->
  Forall chunk_ok cs' ->
  Forall2 (fun a b => ck_type a = ck_type b /\ ck_data a = ck_data b) cs cs' ->
  sped_decode tinfl alloc stack_pal fuel (png_file hdr cs crc junk) scale
  = sped_decode tinfl alloc stack_pal fuel (png_file hdr cs' crc' junk') scale.
Proof.
  intros Hhdr Hcrc Hcrc' Hcs Hok' Hsame.
  assert (Hcs' : Forall (fun ch => chunk_ok ch /\ ck_type ch <> tag "IEND") cs').
  { clear - Hcs Hok' Hsame. induction Hsame as [|a b cs cs' [Ht _] _ IH]; [constructor|].
    pose proof (Forall_inv Hcs) as [_ Hne]. constructor.
    - split; [exact (Forall_inv Hok') | rewrite <- Ht; exact Hne].
    - apply IH; [exact (Forall_inv_tail Hcs) | exact (Forall_inv_tail Hok')]. }
  unfold png_file.
  apply sped_decode_same_scan; [exact Hhdr | |];
    fold (png_file hdr cs crc junk) (png_file hdr cs' crc' junk');
    rewrite !scan_chunks_png_file by assumption;
    apply (fold_apply_chunk_ext _ _ _ Hsame); reflexivity.
Qed.

Lemma decode_ignores_crc_and_trailer_witness :
  png_file (take 33 png_2x2)
    [idat_chunk (take 25 (drop 41 png_2x2)) [xde; xdd; xec; x2b]]
    [xae; x42; x60; x82] [] = png_2x2
  /\ sped_decode Stored.stored alloc_any no_stack 100 png_2x2 1
     = sped_decode Stored.stored alloc_any no_stack 100
         (png_file (take 33 png_2x2)
            [idat_chunk (take 25 (drop 41 png_2x2)) [x00; x00; x00; x00]]
            [x00; x00; x00; x00] [x01; x02; x03]) 1.
Proof.
  split; [reflexivity|].
  apply (decode_ignores_crc_and_trailer Stored.stored alloc_any no_stack 100
           (take 33 png_2x2)
           [idat_chunk (take 25 (drop 41 png_2x2)) [xde; xdd; xec; x2b]]
           [idat_chunk (take 25 (drop 41 png_2x2)) [x00; x00; x00; x00]]
           [xae; x42; x60; x82] [x00; x00; x00; x00] [] [x01; x02; x03] 1).
  - reflexivity.
  - reflexivity.
  - reflexivity.
  - constructor; [|constructor]. apply idat_chunk_not_iend; [reflexivity | cbn; lia].
  - constructor; [|constructor]. apply idat_chunk_not_iend; [reflexivity | cbn; lia].
  - constructor; [split; reflexivity | constructor].
Defined.

(** X12. A chunk that is none of PLTE, IDAT and IEND has no effect on
    the decoding: a file with such a chunk decodes as the file without
    it.  This holds for tRNS too: the palette alpha it fills is never
    read. *)
Theorem decode_ignores_ancillary (tinfl : inflater) (alloc : Z -> bool)
    (stack_pal : Z -> rgb) (fuel : nat) (hdr : list byte)
    (cs1 cs2 : list chunk_t) (ch : chunk_t) (crc junk : list byte) (scale : Z) :
  length hdr = 33%nat -> length crc = 4%nat ->
  Forall (fun ch => chunk_ok ch /\ ck_type ch <> tag "IEND") (cs1 ++ cs2) ->
  chunk_ok ch ->
  ck_type ch <> tag "PLTE" -> ck_type ch <> tag "IDAT" -> ck_type ch <> tag "IEND" ->
  sped_decode tinfl alloc stack_pal fuel (png_file hdr (cs1 ++ ch :: cs2) crc junk) scale
  = sped_decode tinfl alloc stack_pal fuel (png_file hdr (cs1 ++ cs2) crc junk) scale.
Proof.
  intros Hhdr Hcrc Hcs Hok Hp Hd He.
  apply Forall_app in Hcs. destruct Hcs as [Hcs1 Hcs2].
  assert (Hall : Forall (fun ch => chunk_ok ch /\ ck_type ch <> tag "IEND")
                   (cs1 ++ ch :: cs2)).
  { apply Forall_app. split; [exact Hcs1|]. constructor; [split; assumption | exact Hcs2]. }
  assert (Hstep : forall c, ch_pal (apply_chunk (ihdr_ctype hdr) c ch) = ch_pal c
                            /\ ch_idat (apply_chunk (ihdr_ctype hdr) c ch) = ch_idat c).
  { intros c. unfold apply_chunk.
    rewrite (bool_decide_eq_false_2 _ Hp), (bool_decide_eq_false_2 _ Hd).
    repeat case_if; split; reflexivity. }
  unfold png_file.
  apply sped_decode_same_scan; [exact Hhdr | |];
    fold (png_file hdr (cs1 ++ ch :: cs2) crc junk) (png_file hdr (cs1 ++ cs2) crc junk);
    rewrite !scan_chunks_png_file
      by (first [assumption | apply Forall_app; split; assumption]);
    rewrite !fold_left_app; cbn [fold_left];
    destruct (Hstep (fold_left (apply_chunk (ihdr_ctype hdr)) cs1
                       {| ch_pal := pal_uninit stack_pal;
                          ch_pal_a := replicate 256 xff; ch_idat := [] |})) as [Hp1 Hi1];
    apply (fold_apply_chunk_ext _ _ _ (Forall2_same_type_data cs2)); assumption.
Qed.

Lemma decode_ignores_ancillary_witness :
  sped_decode Stored.stored alloc_any no_stack 100
    (png_file (take 33 png_2x2)
       ([] ++ {| ck_type := tag "tRNS"; ck_data := [x00; x80]; ck_crc := [x00; x00; x00; x00] |}
           :: [idat_chunk (take 25 (drop 41 png_2x2)) [xde; xdd; xec; x2b]])
       [xae; x42; x60; x82] []) 1
  = sped_decode Stored.stored alloc_any no_stack 100 png_2x2 1.
Proof.
  apply (decode_ignores_ancillary Stored.stored alloc_any no_stack 100
           (take 33 png_2x2) []
           [idat_chunk (take 25 (drop 41 png_2x2)) [xde; xdd; xec; x2b]]
           {| ck_type := tag "tRNS"; ck_data := [x00; x80]; ck_crc := [x00; x00; x00; x00] |}
           [xae; x42; x60; x82] [] 1).
  - reflexivity.
  - reflexivity.
  - constructor; [|constructor]. apply idat_chunk_not_iend; [reflexivity | cbn; lia].
  - split; [reflexivity | split; [reflexivity | cbn; lia]].
  - cbn. discriminate.
  - cbn. discriminate.
  - cbn. discriminate.
Defined.

(** X13. A file without an IDAT chunk before IEND is refused: -1 and
    no callback, whatever its header and its other chunks. *)
Theorem decode_without_idat (tinfl : inflater) (alloc : Z -> bool)
    (stack_pal : Z -> rgb) (fuel : nat) (hdr : list byte) (cs : list chunk_t)
    (crc junk : list byte) (scale : Z) :
  length hdr = 33%nat -> length crc = 4%nat -> Forall other_chunk cs ->
  sped_decode tinfl alloc stack_pal fuel (png_file hdr cs crc junk) scale = Some (-1, []).
Proof.
  intros Hhdr Hcrc Hcs.
  set (png := png_file hdr cs crc junk).
  destruct (sped_info png) as [info|] eqn:Einfo.
  2:{ apply sped_decode_refused. left. exact Einfo. }
  destruct (unsupported_dec png scale) as [Hu|Hu].
  { apply sped_decode_refused. right. exact Hu. }
  rewrite sped_decode_accepted by (try exact Hu; rewrite Einfo; discriminate).
  unfold png. rewrite scan_chunks_png_file
    by (first [assumption | apply other_chunk_not_iend; assumption]).
  destruct (fold_other_chunks (ihdr_ctype (png_file hdr cs crc junk)) cs Hcs
              {| ch_pal := pal_uninit stack_pal; ch_pal_a := replicate 256 xff;
                 ch_idat := [] |} _ eq_refl) as [_ ->].
  reflexivity.
Qed.

Lemma decode_without_idat_witness :
  png_file (take 33 png_2x2) [] [xae; x42; x60; x82] [] = png_no_idat
  /\ sped_decode Stored.stored alloc_any no_stack 100 png_no_idat 1 = Some (-1, []).
Proof.
  split; [reflexivity|].
  apply (decode_without_idat Stored.stored alloc_any no_stack 100
           (take 33 png_2x2) [] [xae; x42; x60; x82] [] 1);
    [reflexivity | reflexivity | constructor].
Defined.

(** ** The palette *)

Lemma plte_copy_S (png : list byte) (cp : Z) (k : nat) (pal : palette) :
  plte_copy png cp (Z.of_nat (S k)) pal
  = <[k := (rd png (cp + 8 + Z.of_nat k * 3),
            rd png (cp + 8 + Z.of_nat k * 3 + 1),
            rd png (cp + 8 + Z.of_nat k * 3 + 2))]> (plte_copy png cp (Z.of_nat k) pal).
Proof.
  unfold plte_copy. rewrite seqZ_S.
  rewrite fold_left_app. cbn [fold_left]. rewrite Z.add_0_l, Nat2Z.id. reflexivity.
Qed.

Lemma plte_copy_length (png : list byte) (cp : Z) (k : nat) (pal : palette) :
  length (plte_copy png cp (Z.of_nat k) pal) = length pal.
Proof.
  induction k as [|k IH]; [reflexivity|].
  rewrite plte_copy_S. unfold palette, rgb in *. rewrite length_insert. exact IH.
Qed.

Lemma plte_copy_lookup (png : list byte) (cp : Z) (k : nat) (pal : palette) (i : nat) :
  (k <= length pal)%nat ->
  plte_copy png cp (Z.of_nat k) pal !! i
  = if decide (i < k)%nat
    then Some (rd png (cp + 8 + Z.of_nat i * 3),
               rd png (cp + 8 + Z.of_nat i * 3 + 1),
               rd png (cp + 8 + Z.of_nat i * 3 + 2))
    else pal !! i.
Proof.
  induction k as [|k IH]; intros Hk.
  - destruct (decide (i < 0)%nat); [lia | reflexivity].
  - rewrite plte_copy_S. pose proof (plte_copy_length png cp k pal) as Hlen.
    unfold palette, rgb in *. destruct (decide (i = k)) as [->|Hne].
    + rewrite list_lookup_insert_eq by lia.
      destruct (decide (k < S k)%nat); [reflexivity | lia].
    + rewrite list_lookup_insert_ne by congruence. rewrite IH by lia.
      destruct (decide (i < k)%nat), (decide (i < S k)%nat); try lia; reflexivity.
Qed.

Lemma fold_no_plte (ctype : Z) (cs : list chunk_t) :
  Forall (fun ch => ck_type ch <> tag "PLTE") cs ->
  forall c, ch_pal (fold_left (apply_chunk ctype) cs c) = ch_pal c.
Proof.
  induction 1 as [|ch cs Hne _ IH]; intros c; [reflexivity|].
  cbn [fold_left]. rewrite IH. unfold apply_chunk.
  rewrite (bool_decide_eq_false_2 _ Hne). repeat case_if; reflexivity.
Qed.

(** X14. Palette entry [i] of an indexed image is made of bytes [3i],
    [3i+1], [3i+2] of the PLTE chunk when the chunk has that many
    entries; an entry the chunk does not reach keeps what the
    uninitialised stack array held.  Entries past 256 are not read. *)
Theorem palette_from_plte (stack_pal : Z -> rgb) (ctype : Z) (hdr : list byte)
    (pre post : list chunk_t) (data plte_crc iend_crc junk : list byte) (i : Z) :
  length hdr = 33%nat -> length iend_crc = 4%nat -> length plte_crc = 4%nat ->
  Z.of_nat (length data) < 4294967296 ->
  Forall (fun ch => chunk_ok ch /\ ck_type ch <> tag "IEND"
                    /\ ck_type ch <> tag "PLTE") (pre ++ post) ->
  0 <= i < 256 ->
  let plte := {| ck_type := tag "PLTE"; ck_data := data; ck_crc := plte_crc |} in
  pal_rd (ch_pal (scan_chunks stack_pal
                    (png_file hdr (pre ++ plte :: post) iend_crc junk) ctype)) i
  = if i <? Z.of_nat (length data) / 3
    then (rd data (3 * i), rd data (3 * i + 1), rd data (3 * i + 2))
    else stack_pal i.
Proof.
  intros Hhdr Hcrc Hpcrc Hdata Hcs Hi plte.
  apply Forall_app in Hcs. destruct Hcs as [Hpre Hpost].
  assert (Hplte : chunk_ok plte /\ ck_type plte <> tag "IEND").
  { split; [split; [reflexivity | split; [exact Hpcrc | exact Hdata]]|].
    cbn. discriminate. }
  rewrite scan_chunks_png_file; [|exact Hhdr | exact Hcrc |].
  2:{ apply Forall_app. split; [|constructor; [exact Hplte|]].
      - revert Hpre. apply Forall_impl. tauto.
      - revert Hpost. apply Forall_impl. tauto. }
  rewrite fold_left_app. cbn [fold_left].
  rewrite fold_no_plte by (revert Hpost; apply Forall_impl; tauto).
  set (c1 := fold_left (apply_chunk ctype) pre _).
  assert (Hc1 : ch_pal c1 = pal_uninit stack_pal).
  { unfold c1. rewrite fold_no_plte by (revert Hpre; apply Forall_impl; tauto).
    reflexivity. }
  unfold apply_chunk.
  change (bool_decide (ck_type plte = tag "PLTE")) with true. cbn [ch_pal ck_data plte].
  rewrite Hc1.
  set (n := Z.quot (Z.of_nat (length data)) 3).
  assert (Hn : n = Z.of_nat (length data) / 3)
    by (unfold n; apply Z.quot_div_nonneg; lia).
  assert (Hn0 : 0 <= n) by (rewrite Hn; apply Z.div_pos; lia).
  set (m := if 256 <? n then 256 else n).
  assert (Hm : m = Z.min 256 n)
    by (unfold m; case_if; zb; lia).
  unfold pal_rd. rewrite <- (Z2Nat.id m) by lia.
  rewrite plte_copy_lookup
    by (unfold pal_uninit; rewrite length_map, length_seqZ; lia).
  rewrite <- Hn.
  destruct (decide (Z.to_nat i < Z.to_nat m)%nat) as [Hlt|Hge].
  - destruct (Z.ltb_spec i n); [|lia]. cbn [from_option id].
    rewrite Z2Nat.id by lia.
    (f_equal; [f_equal|]); apply (f_equal (rd data)); lia.
  - assert (Hin : m <= i) by lia.
    unfold pal_uninit, palette, rgb in *. rewrite list_lookup_fmap, lookup_seqZ_lt by lia.
    cbn [fmap option_fmap option_map from_option id].
    destruct (Z.ltb_spec i n); [lia|]. f_equal. lia.
Qed.

Lemma palette_from_plte_witness :
  pal_rd (ch_pal (scan_chunks no_stack
                    (png_file (take 33 png_2x2)
                       ([] ++ {| ck_type := tag "PLTE";
                                 ck_data := [x01; x02; x03; x04; x05; x06];
                                 ck_crc := [x00; x00; x00; x00] |} :: [])
                       [xae; x42; x60; x82] []) 3)) 1
  = (x04, x05, x06)
  /\ pal_rd (ch_pal (scan_chunks no_stack
                       (png_file (take 33 png_2x2)
                          ([] ++ {| ck_type := tag "PLTE";
                                    ck_data := [x01; x02; x03; x04; x05; x06];
                                    ck_crc := [x00; x00; x00; x00] |} :: [])
                          [xae; x42; x60; x82] []) 3)) 2
     = no_stack 2.
Proof.
  split.
  - apply (palette_from_plte no_stack 3 (take 33 png_2x2) [] []
             [x01; x02; x03; x04; x05; x06] [x00; x00; x00; x00]
             [xae; x42; x60; x82] [] 1);
      [reflexivity | reflexivity | reflexivity | cbn; lia | constructor | lia].
  - apply (palette_from_plte no_stack 3 (take 33 png_2x2) [] []
             [x01; x02; x03; x04; x05; x06] [x00; x00; x00; x00]
             [xae; x42; x60; x82] [] 2);
      [reflexivity | reflexivity | reflexivity | cbn; lia | constructor | lia].
Defined.

(** ** The IDAT table *)

Lemma fold_idat_chunks (ctype : Z) (l : list chunk_t) :
  Forall (fun ch => chunk_ok ch /\ ck_type ch = tag "IDAT") l ->
  forall cst,
    ch_pal (fold_left (apply_chunk ctype) l cst) = ch_pal cst
    /\ ch_idat (fold_left (apply_chunk ctype) l cst)
       = ch_idat cst ++ take (64 - length (ch_idat cst)) (map ck_data l).
Proof.
  induction 1 as [|ch l [_ Ht] _ IH]; intros cst.
  - cbn. rewrite take_nil, app_nil_r. split; reflexivity.
  - cbn [fold_left map].
    assert (Hstep : ch_pal (apply_chunk ctype cst ch) = ch_pal cst
                    /\ ch_idat (apply_chunk ctype cst ch)
                       = if Z.of_nat (length (ch_idat cst)) <? 64
                         then ch_idat cst ++ [ck_data ch] else ch_idat cst).
    { unfold apply_chunk. rewrite Ht.
      change (bool_decide (tag "IDAT" = tag "PLTE")) with false.
      change (bool_decide (tag "IDAT" = tag "tRNS")) with false.
      change (bool_decide (tag "IDAT" = tag "IDAT")) with true.
      cbn [ch_pal ch_idat]. unfold SPED_MAX_IDAT. split; reflexivity. }
    destruct Hstep as [Hp Hi]. destruct (IH (apply_chunk ctype cst ch)) as [IHp IHi].
    split; [rewrite IHp; exact Hp|]. rewrite IHi, Hi.
    destruct (Z.ltb_spec (Z.of_nat (length (ch_idat cst))) 64) as [Hlt|Hge].
    + rewrite length_app. cbn [length].
      replace (64 - length (ch_idat cst))%nat
        with (S (64 - (length (ch_idat cst) + 1)))%nat by lia.
      cbn [take]. rewrite <- app_assoc. reflexivity.
    + replace (64 - length (ch_idat cst))%nat with 0%nat by lia.
      cbn [take]. reflexivity.
Qed.

(** X15. The scan keeps the first 64 IDAT chunks ([SPED_MAX_IDAT]) and
    drops the others without an error: the IDAT stream the decompressor
    is given is that of the first 64 chunks. *)
Theorem scan_keeps_first_64_idat (stack_pal : Z -> rgb) (ctype : Z) (hdr : list byte)
    (pre post idats : list chunk_t) (iend_crc junk : list byte) :
  length hdr = 33%nat -> length iend_crc = 4%nat ->
  Forall other_chunk pre -> Forall other_chunk post ->
  Forall (fun ch => chunk_ok ch /\ ck_type ch = tag "IDAT") idats ->
  ch_idat (scan_chunks stack_pal (png_file hdr (pre ++ idats ++ post) iend_crc junk) ctype)
  = take 64 (map ck_data idats).
Proof.
  intros Hhdr Hcrc Hpre Hpost Hid.
  rewrite scan_chunks_png_file; [|exact Hhdr | exact Hcrc |].
  2:{ apply Forall_app. split; [apply other_chunk_not_iend, Hpre|].
      apply Forall_app. split; [|apply other_chunk_not_iend, Hpost].
      revert Hid. apply Forall_impl. intros ch [Hok Ht]. split; [exact Hok|].
      rewrite Ht. discriminate. }
  rewrite !fold_left_app.
  set (c0 := {| ch_pal := pal_uninit stack_pal; ch_pal_a := replicate 256 xff;
                ch_idat := [] |}).
  destruct (fold_other_chunks ctype pre Hpre c0 c0 eq_refl) as [_ Hi0].
  set (c1 := fold_left (apply_chunk ctype) pre c0) in *.
  destruct (fold_idat_chunks ctype idats Hid c1) as [Hp2 Hi2].
  set (c2 := fold_left (apply_chunk ctype) idats c1) in *.
  destruct (fold_other_chunks ctype post Hpost c2 c2 eq_refl) as [_ Hi3].
  rewrite Hi3, Hi2, Hi0. reflexivity.
Qed.

Lemma scan_keeps_first_64_idat_witness :
  ch_idat (scan_chunks no_stack
             (png_file (take 33 png_2x2)
                ([] ++ (replicate 64 (idat_chunk [x00] [x00; x00; x00; x00])
                        ++ [idat_chunk [x01] [x00; x00; x00; x00]]) ++ [])
                [xae; x42; x60; x82] []) 2)
  = replicate 64 [x00].
Proof.
  apply (scan_keeps_first_64_idat no_stack 2 (take 33 png_2x2) [] []
           (replicate 64 (idat_chunk [x00] [x00; x00; x00; x00])
            ++ [idat_chunk [x01] [x00; x00; x00; x00]])
           [xae; x42; x60; x82] []);
    [reflexivity | reflexivity | constructor | constructor |].
  apply Forall_app. split.
  - apply Forall_replicate. split; [|reflexivity].
    split; [reflexivity | split; [reflexivity | cbn; lia]].
  - constructor; [|constructor]. split; [|reflexivity].
    split; [reflexivity | split; [reflexivity | cbn; lia]].
Defined.

(** ** The scanline loop and the windows of the decompressor *)

(** X16. The decoder does not depend on how the decompressor cuts its
    output into windows: feeding the windows one after the other leaves
    the state, and so the callbacks, that feeding their concatenation at
    once leaves. *)
Theorem feed_windows_irrelevant (im : image) (windows : list (list byte)) :
  image_ok im ->
  fold_left (feed im) windows (decoder_init im)
  = feed im (decoder_init im) (concat windows).
Proof.
  intros Him. apply (fold_feed_concat im Him). apply decoder_init_ok, Him.
Qed.

Lemma feed_windows_irrelevant_witness :
  image_ok (image_of no_stack png_2x2 1)
  /\ fold_left (feed (image_of no_stack png_2x2 1)) [take 3 raw_2x2; drop 3 raw_2x2]
       (decoder_init (image_of no_stack png_2x2 1))
     = feed (image_of no_stack png_2x2 1) (decoder_init (image_of no_stack png_2x2 1))
         raw_2x2.
Proof.
  assert (Him : image_ok (image_of no_stack png_2x2 1)).
  { apply (decodable_image_ok Stored.stored alloc_any no_stack png_2x2 1 raw_2x2).
    apply png_2x2_decodable. left. reflexivity. }
  split; [exact Him|].
  exact (feed_windows_irrelevant (image_of no_stack png_2x2 1)
           [take 3 raw_2x2; drop 3 raw_2x2] Him).
Defined.

(** X17. Once [h] scanlines are complete the scanline loop takes
    nothing more: bytes inflated beyond the last scanline change neither
    the state nor the callbacks, and are no error. *)
Theorem feed_stops_after_last_row (im : image) (raw tail : list byte) :
  image_ok im ->
  Z.of_nat (length raw) = img_h im * (img_stride im + 1) ->
  row (feed im (decoder_init im) raw) = img_h im
  /\ feed im (decoder_init im) (raw ++ tail) = feed im (decoder_init im) raw.
Proof.
  intros Him Hraw. pose proof (stride_pos im Him) as Hs.
  assert (Hh : 0 < img_h im < 2147483648) by (destruct Him; assumption).
  pose proof (decoder_init_ok im Him) as Hok0.
  set (n := Z.to_nat (img_h im)). set (st := Z.to_nat (img_stride im)).
  assert (Hn : (n * S st = length raw)%nat) by (unfold n, st; nia).
  assert (Hfeed : feed im (decoder_init im) raw = decode_rows im n (decoder_init im) raw).
  { rewrite (feed_push im Him) by exact Hok0.
    rewrite <- (firstn_all raw) at 1. rewrite <- Hn. unfold st.
    apply (fold_push_rows im Him n); [exact Hok0 | reflexivity | cbn; lia | fold st; lia]. }
  destruct (decode_rows_done im Him n (decoder_init im) raw [] (rows_done_init im Him)
              ltac:(cbn; lia)) as [_ Hrow].
  cbn [row decoder_init] in Hrow.
  assert (Hr : row (feed im (decoder_init im) raw) = img_h im)
    by (rewrite Hfeed, Hrow; unfold n; lia).
  split; [exact Hr|].
  rewrite (feed_app im Him) by exact Hok0.
  apply (feed_done im Him); [apply (feed_ok im Him), Hok0 | lia].
Qed.

Lemma feed_stops_after_last_row_witness :
  image_ok (image_of no_stack png_2x2 1)
  /\ feed (image_of no_stack png_2x2 1) (decoder_init (image_of no_stack png_2x2 1))
       (raw_2x2 ++ [x01; x02; x03])
     = feed (image_of no_stack png_2x2 1) (decoder_init (image_of no_stack png_2x2 1))
         raw_2x2.
Proof.
  assert (Him : image_ok (image_of no_stack png_2x2 1)).
  { apply (decodable_image_ok Stored.stored alloc_any no_stack png_2x2 1 raw_2x2).
    apply png_2x2_decodable. left. reflexivity. }
  split; [exact Him|].
  apply (feed_stops_after_last_row (image_of no_stack png_2x2 1) raw_2x2
           [x01; x02; x03] Him).
  vm_compute. reflexivity.
Defined.

(** ** Full resolution *)

Lemma pack_chan (p : rgb) : rgb565 (chan 0 p) (chan 1 p) (chan 2 p) = pack p.
Proof. destruct p as [[r g] bl]. reflexivity. Qed.

Lemma block_pixel_single (im : image) (cur : list byte) (x : Z) :
  img_scale im = 1 ->
  block_pixel im [cur] x = pack (source_pixel im cur x).
Proof.
  intros Hs. unfold block_pixel, block_sum, row_sum. rewrite Hs.
  change (seqZ 0 1) with [0]. unfold zsum. cbn [map foldr].
  rewrite !Z.add_0_r, !Z.mul_1_r, !Z.div_1_r. apply pack_chan.
Qed.

(** X18. At scale 1 every source pixel comes out as its RGB565 word:
    for a well-formed file, callback [y] carries in column [x] the
    packing of pixel [x] of scanline [y]. *)
Theorem full_scale_pixel (tinfl : inflater) (alloc : Z -> bool)
    (stack_pal : Z -> rgb) (png : list byte) (raw : list byte) (fuel : nat) :
  well_formed tinfl alloc stack_pal png 1 raw ->
  (decode_fuel stack_pal png raw <= fuel)%nat ->
  let im := image_of stack_pal png 1 in
  let rows := image_rows stack_pal png 1 raw in
  exists cs,
    sped_decode tinfl alloc stack_pal fuel png 1 = Some (0, cs)
    /\ forall x y, 0 <= x < ihdr_w png -> 0 <= y < ihdr_h png ->
         exists c cur,
           cs !! Z.to_nat y = Some c /\ rows !! Z.to_nat y = Some cur
           /\ cb_y c = y /\ cb_w c = ihdr_w png
           /\ cb_row c !! Z.to_nat x = Some (pack (source_pixel im cur x)).
Proof.
  intros Hwf Hfuel im rows.
  destruct (sped_decode_well_formed _ _ _ _ _ _ _ Hwf Hfuel) as [Hdec Hlen].
  pose proof (decodable_image_ok _ _ _ _ _ _ (proj1 Hwf)) as Him.
  fold im in Hdec, Him. fold rows in Hdec, Hlen.
  exists (expected_calls im rows). split; [exact Hdec|].
  intros x y Hx Hy.
  assert (Hs : img_scale im = 1) by reflexivity.
  assert (Hw : img_out_w im = ihdr_w png) by (cbn; apply Z.div_1_r).
  destruct (expected_calls_lookup im rows x y) as (c & Hc & Hcy & Hcw & Hpx).
  { rewrite Hs, Z.div_1_r. lia. }
  { rewrite Hw. exact Hx. }
  destruct (rows !! Z.to_nat y) as [cur|] eqn:Ecur.
  2:{ apply lookup_ge_None in Ecur. lia. }
  exists c, cur. split; [exact Hc|]. split; [reflexivity|].
  split; [exact Hcy|]. split; [rewrite Hcw; exact Hw|].
  rewrite Hpx. f_equal. rewrite <- (block_pixel_single im cur x Hs). f_equal.
  unfold block_rows. rewrite Hs, Z.mul_1_r.
  change (Z.to_nat 1) with 1%nat.
  rewrite (drop_S _ _ _ Ecur). reflexivity.
Qed.

Lemma full_scale_pixel_witness :
  well_formed Stored.stored alloc_any no_stack png_2x2 1 raw_2x2
  /\ (decode_fuel no_stack png_2x2 raw_2x2 <= 100)%nat
  /\ exists cs,
       sped_decode Stored.stored alloc_any no_stack 100 png_2x2 1 = Some (0, cs)
       /\ exists c, cs !! 1%nat = Some c /\ cb_row c !! 0%nat = Some 31.
Proof.
  assert (Hwf : well_formed Stored.stored alloc_any no_stack png_2x2 1 raw_2x2)
    by (apply png_2x2_well_formed; left; reflexivity).
  assert (Hfuel : (decode_fuel no_stack png_2x2 raw_2x2 <= 100)%nat)
    by (vm_compute; lia).
  split; [exact Hwf|]. split; [exact Hfuel|].
  destruct (full_scale_pixel Stored.stored alloc_any no_stack png_2x2 raw_2x2 100
              Hwf Hfuel) as (cs & Hdec & Hpx).
  exists cs. split; [exact Hdec|].
  destruct (Hpx 0 1) as (c & cur & Hc & Hcur & _ & _ & Hrow);
    [vm_compute; split; [discriminate | reflexivity]
    | vm_compute; split; [discriminate | reflexivity] |].
  change (Z.to_nat 1) with 1%nat in Hc, Hcur.
  change (Z.to_nat 0) with 0%nat in Hrow.
  exists c. split; [exact Hc|]. rewrite Hrow.
  vm_compute in Hcur. injection Hcur as <-. vm_compute. reflexivity.
Defined.

(** ** A file that ends inside a chunk *)






(** ** Big-endian words *)

(** X20. [r32] reads the four bytes at [off] as a big-endian number: it
    is the sum of the bytes weighted by 2^24, 2^16, 2^8 and 1, it lies
    below 2^32, and it reads back every 32-bit length written in
    big-endian order. *)
Theorem r32_big_endian (p pre rest : list byte) (off n : Z) :
  r32 p off = 16777216 * bv (rd p off) + 65536 * bv (rd p (off + 1))
              + 256 * bv (rd p (off + 2)) + bv (rd p (off + 3))
  /\ 0 <= r32 p off < 4294967296
  /\ (0 <= n < 4294967296 ->
      r32 (pre ++ be32 n ++ rest) (Z.of_nat (length pre)) = n).
Proof.
  split; [apply r32_be|]. split; [apply r32_range | apply r32_be32].
Qed.

(** ** Where a failure can come from *)

Lemma inflate_loop_never_fails (tinfl : inflater) (im : image) (idat : list (list byte))
    (fuel : nat) :
  (forall d inp cap more, 0 <= t_status (tinfl_decompress tinfl d inp cap more)) ->
  forall (d : tinfl_state tinfl) (dict_ofs ci : Z) (inp : list byte) (s : decoder)
         (ret : Z) (cs : list cb_call),
    inflate_loop tinfl im idat fuel d dict_ofs ci inp s = Some (ret, cs) -> ret = 0.
Proof.
  intros Hpos. induction fuel as [|fuel IH]; intros d dict_ofs ci inp s ret cs;
    cbn [inflate_loop].
  - destruct (negb (row s <? to_int (img_h im))); [|discriminate].
    intros [= <- <-]. reflexivity.
  - destruct (negb (row s <? to_int (img_h im))); [intros [= <- <-]; reflexivity|].
    cbv zeta.
    set (r := tinfl_decompress tinfl d inp (TINFL_LZ_DICT_SIZE - dict_ofs) _).
    pose proof (Hpos d inp (TINFL_LZ_DICT_SIZE - dict_ofs)
                  ((ci <? Z.of_nat (length idat) - 1) || (0 <? Z.of_nat (length inp))))
      as Hr. fold r in Hr.
    destruct (t_status r =? TINFL_STATUS_DONE); [intros [= <- <-]; reflexivity|].
    destruct (Z.ltb_spec (t_status r) 0); [lia|]. apply IH.
Qed.

(** X21. Once the header is accepted, an IDAT chunk is found and the
    buffers are granted, [sped_decode] can fail only through the
    decompressor: with a decompressor that never reports a negative
    status it returns 0 whenever it returns, whatever the inflated data
    holds (too few scanlines, unknown filter types, bytes to spare). *)
Theorem decode_fails_only_with_inflater (tinfl : inflater) (alloc : Z -> bool)
    (stack_pal : Z -> rgb) (fuel : nat) (png : list byte) (scale : Z)
    (ret : Z) (cs : list cb_call) :
  sped_info png <> None -> ~ unsupported png scale ->
  ch_idat (scan_chunks stack_pal png (ihdr_ctype png)) <> [] ->
  (forall n, alloc n = true) ->
  (forall d inp cap more, 0 <= t_status (tinfl_decompress tinfl d inp cap more)) ->
  sped_decode tinfl alloc stack_pal fuel png scale = Some (ret, cs) ->
  ret = 0.
Proof.
  intros Hi Hu Hidat Halloc Hpos.
  rewrite sped_decode_accepted by assumption.
  rewrite !Halloc. cbn [negb orb]. rewrite andb_false_r.
  destruct (ch_idat _) as [|i0 idat]; [congruence|].
  cbn [length]. replace (Z.of_nat (S (length idat)) =? 0) with false
    by (symmetry; apply Z.eqb_neq; lia).
  apply inflate_loop_never_fails. exact Hpos.
Qed.

Lemma decode_fails_only_with_inflater_witness :
  sped_info png_2x2_short <> None /\ ~ unsupported png_2x2_short 1
  /\ ch_idat (scan_chunks no_stack png_2x2_short (ihdr_ctype png_2x2_short)) <> []
  /\ exists ret cs,
       sped_decode done_at_once alloc_any no_stack 1 png_2x2_short 1 = Some (ret, cs)
       /\ ret = 0.
Proof.
  assert (Hdec : decodable Stored.stored alloc_any no_stack png_2x2_short 1 raw_2x2_short)
    by (apply png_2x2_short_decodable; left; reflexivity).
  destruct Hdec as [Hi Hu _ _ _ Hidat _].
  assert (Hd : sped_decode done_at_once alloc_any no_stack 1 png_2x2_short 1
               = Some (0, [])) by (vm_compute; reflexivity).
  split; [exact Hi|]. split; [exact Hu|]. split; [exact Hidat|].
  exists 0, []. split; [exact Hd|].
  exact (decode_fails_only_with_inflater done_at_once alloc_any no_stack 1 png_2x2_short 1
           0 [] Hi Hu Hidat (fun _ => eq_refl) (fun _ _ _ _ => Z.le_refl 0) Hd).
Defined.

(** ** The palette array is read for indexed images only *)

Lemma get_pixel_no_pal (cur : list byte) (x ctype bpc : Z) (pal pal' : palette) :
  ctype <> 3 -> get_pixel cur x ctype bpc pal = get_pixel cur x ctype bpc pal'.
Proof.
  intros Hc. unfold get_pixel.
  destruct (bpc =? 1); [|reflexivity].
  destruct ctype as [|p|p]; try reflexivity.
  repeat (match goal with q : positive |- _ => destruct q end; try reflexivity).
  congruence.
Qed.

Section NoPalette.
Variable im : image.
Variable pal : palette.
Hypothesis Hc : img_ctype im <> 3.

Lemma direct_row_no_pal (cur : list byte) :
  direct_row (with_pal im pal) cur = direct_row im cur.
Proof.
  unfold direct_row. cbn [with_pal img_w img_ctype img_bpc img_pal].
  apply map_ext. intros x. f_equal. apply get_pixel_no_pal, Hc.
Qed.

Lemma accumulate_no_pal (n : Z) (cur : list byte) (a : list Z) :
  accumulate (with_pal im pal) n cur a = accumulate im n cur a.
Proof.
  unfold accumulate. apply fold_left_ext_all. intros a0 x.
  unfold accumulate_px. cbn [with_pal img_scale img_ctype img_bpc img_pal].
  rewrite (get_pixel_no_pal cur x _ _ pal (img_pal im) Hc). reflexivity.
Qed.

Lemma scanline_complete_no_pal (s : decoder) (c : list byte) :
  scanline_complete (with_pal im pal) s c = scanline_complete im s c.
Proof.
  unfold scanline_complete, emit_scanline.
  rewrite direct_row_no_pal, accumulate_no_pal. reflexivity.
Qed.

Lemma feed_loop_no_pal (n : nat) :
  forall (s : decoder) (dp : list byte),
    feed_loop (with_pal im pal) n s dp = feed_loop im n s dp.
Proof.
  induction n as [|n IH]; intros s dp; [reflexivity|].
  cbn [feed_loop]. rewrite scanline_complete_no_pal, !IH. reflexivity.
Qed.

Lemma inflate_loop_no_pal (tinfl : inflater) (idat : list (list byte)) (fuel : nat) :
  forall (d : tinfl_state tinfl) (dict_ofs ci : Z) (inp : list byte) (s : decoder),
    inflate_loop tinfl (with_pal im pal) idat fuel d dict_ofs ci inp s
    = inflate_loop tinfl im idat fuel d dict_ofs ci inp s.
Proof.
  induction fuel as [|fuel IH]; intros d dict_ofs ci inp s; [reflexivity|].
  cbn [inflate_loop]. unfold feed. rewrite feed_loop_no_pal, IH. reflexivity.
Qed.
End NoPalette.

Lemma scan_loop_idat_any_pal (png : list byte) (ctype : Z) (fuel : nat) :
  forall (cp : Z) (c c' : chunks),
    ch_idat c = ch_idat c' ->
    ch_idat (scan_loop fuel png ctype cp c) = ch_idat (scan_loop fuel png ctype cp c').
Proof.
  induction fuel as [|fuel IH]; intros cp c c' Hi; [exact Hi|].
  cbn [scan_loop]. repeat case_if; try assumption; apply IH; cbn [ch_idat];
    rewrite ?Hi; try reflexivity.
  all: rewrite Hi in *; congruence.
Qed.

(** X22. Unless the image is indexed (colour type 3), nothing of the
    decoding depends on the palette array: what the uninitialised array
    holds when [sped_decode] starts has no influence on the return value
    and on the callbacks. *)
Theorem decode_reads_palette_only_if_indexed (tinfl : inflater) (alloc : Z -> bool)
    (stack_pal stack_pal' : Z -> rgb) (fuel : nat) (png : list byte) (scale : Z) :
  ihdr_ctype png <> 3 ->
  sped_decode tinfl alloc stack_pal fuel png scale
  = sped_decode tinfl alloc stack_pal' fuel png scale.
Proof.
  intros Hc.
  destruct (sped_info png) as [info|] eqn:Einfo.
  2:{ rewrite !sped_decode_refused by (left; assumption). reflexivity. }
  destruct (unsupported_dec png scale) as [Hu|Hu].
  { rewrite !sped_decode_refused by (right; assumption). reflexivity. }
  rewrite !sped_decode_accepted by (try exact Hu; rewrite Einfo; discriminate).
  assert (Hidat : ch_idat (scan_chunks stack_pal png (ihdr_ctype png))
                  = ch_idat (scan_chunks stack_pal' png (ihdr_ctype png)))
    by (apply scan_loop_idat_any_pal; reflexivity).
  rewrite Hidat.
  change (image_of stack_pal png scale)
    with (with_pal (image_of stack_pal' png scale)
            (ch_pal (scan_chunks stack_pal png (ihdr_ctype png)))).
  rewrite inflate_loop_no_pal by exact Hc.
  reflexivity.
Qed.

Lemma decode_reads_palette_only_if_indexed_witness :
  ihdr_ctype png_2x2 <> 3
  /\ sped_decode Stored.stored alloc_any no_stack 100 png_2x2 1
     = sped_decode Stored.stored alloc_any (fun _ => (xff, xff, xff)) 100 png_2x2 1.
Proof.
  assert (Hc : ihdr_ctype png_2x2 <> 3) by (vm_compute; discriminate).
  split; [exact Hc|].
  exact (decode_reads_palette_only_if_indexed Stored.stored alloc_any no_stack
           (fun _ => (xff, xff, xff)) 100 png_2x2 1 Hc).
Defined.

(** ** The state of the scanline loop stays in range *)

(** X23. Whatever bytes the decompressor delivers, in whatever
    windows, the state of the scanline loop stays in range: [sl_pos]
    within [0, stride], [row] within [0, h], the two scanline buffers of
    [stride] bytes; the callbacks made so far number [row / scale]; and
    when downscaling [out_row] is [row / scale] and the accumulator keeps
    its [3 * out_w] lanes. *)
Theorem decoder_state_in_range (im : image) (windows : list (list byte)) :
  image_ok im ->
  let s := fold_left (feed im) windows (decoder_init im) in
  0 <= sl_pos s <= img_stride im
  /\ 0 <= row s <= img_h im
  /\ Z.of_nat (length (cur s)) = img_stride im
  /\ Z.of_nat (length (prev s)) = img_stride im
  /\ Z.of_nat (length (calls s)) = row s / img_scale im
  /\ (1 < img_scale im ->
      out_row s = row s / img_scale im
      /\ Z.of_nat (length (acc s)) = 3 * img_out_w im).
Proof.
  intros Him s.
  pose proof (fold_feed_ok im windows _ Him (decoder_init_ok im Him)) as Hok.
  destruct (reachable_rows_done im Him windows) as [done Hd].
  fold s in Hok, Hd. pose proof (stride_pos im Him) as Hs.
  destruct Hok as [Hsl Hrow Hcur Hprev].
  split; [exact Hsl|]. split; [exact Hrow|].
  split; [rewrite Hcur; lia|]. split; [rewrite Hprev; lia|].
  assert (Hsc : img_scale im = 1 \/ img_scale im = 2 \/ img_scale im = 4)
    by (destruct Him; assumption).
  split.
  - rewrite (rd_calls _ _ _ Hd), (rd_row _ _ _ Hd). unfold expected_calls.
    rewrite length_map, length_seqZ. rewrite Z2Nat.id; [reflexivity|].
    apply Z.div_pos; lia.
  - intros Hdown. split.
    + rewrite (rd_out_row _ _ _ Hd Hdown), (rd_row _ _ _ Hd). reflexivity.
    + exact (rd_acc_len _ _ _ Hd Hdown).
Qed.

Lemma decoder_state_in_range_witness :
  image_ok (image_of no_stack png_2x2 2)
  /\ row (fold_left (feed (image_of no_stack png_2x2 2)) [take 9 raw_2x2]
            (decoder_init (image_of no_stack png_2x2 2))) <= 2.
Proof.
  assert (Him : image_ok (image_of no_stack png_2x2 2)).
  { apply (decodable_image_ok Stored.stored alloc_any no_stack png_2x2 2 raw_2x2).
    apply png_2x2_decodable. right. reflexivity. }
  split; [exact Him|].
  exact (proj2 (proj1 (proj2 (decoder_state_in_range (image_of no_stack png_2x2 2)
                                [take 9 raw_2x2] Him)))).
Defined.
